(** * github-tag-action: verification of [src/utils.ts]

    A shallow embedding of the tag selection, commit scoping and release-rule
    functions of [src/utils.ts], with the properties the specification
    states about them.

    Conventions of the embedding:
    - a JavaScript string is a [string]; each character stands for one
      UTF-16 code unit below 256 (Latin-1);
    - [undefined] and [null] are [None];
    - a function that logs through [@actions/core] or may throw runs in the
      monad [Core.t], which threads the list of diagnostics emitted so far
      and carries a thrown error;
    - a plain JavaScript object used as a map is an [Obj.t]: an association
      list kept in the order [Object.values] enumerates own properties;
    - a regular expression of the fragment described in [RegExp] is
      parsed and matched by the model; for any other pattern the
      constructor of the run-time is a parameter, a [RegExp.Engine], and
      the statements hold for every engine.

    The file has four parts: the definitions (the JavaScript run-time
    notions the code relies on, the [semver] functions and the regular
    expressions it calls, then [utils.ts] itself), the supporting lemmas,
    the properties of the specification, and further properties of the
    code. *)

From Stdlib Require Import List String Ascii Bool Arith NArith ZArith Lia.
From Stdlib Require Import Permutation Sorted DecimalString.
Import ListNotations.

Local Open Scope string_scope.
Local Open Scope list_scope.

Set Implicit Arguments.

(* ################################################################## *)
(** * Part I: definitions *)
(* ################################################################## *)

(* ================================================================== *)
(** ** JavaScript strings and values *)
(* ================================================================== *)

Module Js.

(** [s.split(sep)] for a separator of one character: the pieces between
    the separators, in order; never the empty array. *)
Fixpoint split (sep : ascii) (s : string) : list string :=
  match s with
  | EmptyString => [EmptyString]
  | String c s' =>
      if Ascii.eqb c sep then EmptyString :: split sep s'
      else match split sep s' with
           | p :: ps => String c p :: ps
           | [] => [String c EmptyString]
           end
  end.

(** [c.toLowerCase()] on a Latin-1 code unit: A-Z and the accented
    capitals (except the multiplication sign) move up by 32. *)
Definition lower_char (c : ascii) : ascii :=
  let n := N_of_ascii c in
  if (((65 <=? n) && (n <=? 90))
      || ((192 <=? n) && (n <=? 222) && negb (n =? 215)))%N
  then ascii_of_N (n + 32) else c.

Fixpoint toLowerCase (s : string) : string :=
  match s with
  | EmptyString => EmptyString
  | String c s' => String (lower_char c) (toLowerCase s')
  end.

(** Truthiness of a value that is a string or [undefined]. *)
Definition truthy (v : option string) : bool :=
  match v with
  | Some EmptyString => false
  | Some _ => true
  | None => false
  end.

(** Truthiness of a value that is an object or [null]/[undefined]. *)
Definition truthy_object {A : Type} (v : option A) : bool :=
  match v with
  | Some _ => true
  | None => false
  end.

(** The text a template literal [`${v}`] gives for such a value. *)
Definition template (v : option string) : string :=
  match v with
  | Some s => s
  | None => "undefined"
  end.

(** [a || b] on such values. *)
Definition or_else (a b : option string) : option string :=
  if truthy a then a else b.

(** [arr.includes(x)] for an array of strings. *)
Definition includes (arr : list string) (x : option string) : bool :=
  match x with
  | Some s => existsb (String.eqb s) arr
  | None => false
  end.

(** Decimal digits and numerals. *)
Definition is_digit (c : ascii) : bool :=
  let n := N_of_ascii c in ((48 <=? n) && (n <=? 57))%N.

Definition digit_value (c : ascii) : N := (N_of_ascii c - 48)%N.

Fixpoint all_chars (p : ascii -> bool) (s : string) : bool :=
  match s with
  | EmptyString => true
  | String c s' => p c && all_chars p s'
  end.

Fixpoint decimal_value (acc : N) (s : string) : N :=
  match s with
  | EmptyString => acc
  | String c s' => decimal_value (10 * acc + digit_value c)%N s'
  end.

(** A numeral without leading zeros: [0|[1-9]\d*]. *)
Definition canonical_numeral (s : string) : bool :=
  match s with
  | EmptyString => false
  | String c EmptyString => is_digit c
  | String c s' =>
      is_digit c && negb (Ascii.eqb c "0") && all_chars is_digit s'
  end.

(** White space and line terminators below 256, as [trim] and the class
    [\s] see them. *)
Definition is_space (c : ascii) : bool :=
  let n := N_of_ascii c in
  (((9 <=? n) && (n <=? 13)) || (n =? 32) || (n =? 160))%N.

End Js.

(* ================================================================== *)
(** ** Plain objects used as maps *)
(* ================================================================== *)

(** Own enumerable string-keyed properties of an ordinary object, in the
    order [Object.values], [Object.keys] and the spread syntax visit them:
    array-index keys first, by ascending value, then the other keys by
    creation time. *)
Module Obj.

Definition t (V : Type) : Type := list (string * V).

(** An array index is a canonical numeral below 2^32 - 1. *)
Definition array_index (k : string) : option N :=
  if Js.canonical_numeral k then
    let n := Js.decimal_value 0 k in
    if (n <? 4294967295)%N then Some n else None
  else None.

Section Ops.
Variable V : Type.

Fixpoint get (k : string) (o : t V) : option V :=
  match o with
  | [] => None
  | (k', v) :: o' => if String.eqb k k' then Some v else get k o'
  end.

Definition keys (o : t V) : list string := map fst o.

(** [Object.values(o)] *)
Definition values (o : t V) : list V := map snd o.

(** Assignment to a property that exists keeps its place. *)
Fixpoint replace (k : string) (v : V) (o : t V) : t V :=
  match o with
  | [] => []
  | (k', v') :: o' =>
      if String.eqb k k' then (k', v) :: o' else (k', v') :: replace k v o'
  end.

(** A new array-index key goes after the smaller indices. *)
Fixpoint insert_index (n : N) (k : string) (v : V) (o : t V) : t V :=
  match o with
  | [] => [(k, v)]
  | (k', v') :: o' =>
      match array_index k' with
      | Some n' =>
          if (n' <? n)%N then (k', v') :: insert_index n k v o'
          else (k, v) :: o
      | None => (k, v) :: o
      end
  end.

(** [o[k] = v] on own data properties. *)
Definition set (k : string) (v : V) (o : t V) : t V :=
  match get k o with
  | Some _ => replace k v o
  | None =>
      match array_index k with
      | Some n => insert_index n k v o
      | None => o ++ [(k, v)]
      end
  end.

(** [{ ...src }] copied onto [target]: the properties of [src] are
    defined one after the other, in enumeration order. *)
Definition spread (src target : t V) : t V :=
  fold_left (fun acc p => set (fst p) (snd p) acc) src target.

(** An object literal [{ k1: v1, ..., kn: vn }]. *)
Definition literal (props : list (string * V)) : t V := spread props [].

End Ops.

(** The properties every ordinary object inherits from [Object.prototype].
    A lookup [o[k]] that finds no own property finds these. *)
Definition prototype_keys : list string :=
  [ "constructor"; "__proto__"; "hasOwnProperty"; "isPrototypeOf";
    "propertyIsEnumerable"; "toLocaleString"; "toString"; "valueOf";
    "__defineGetter__"; "__defineSetter__"; "__lookupGetter__";
    "__lookupSetter__" ].

(** The value of the expression [o[k]]. *)
Inductive Lookup (V : Type) : Type :=
| Own (v : V)      (* an own property *)
| Inherited        (* a member of [Object.prototype]: truthy, and none of
                      the fields of a [V] *)
| Undefined.

Arguments Inherited {V}.
Arguments Undefined {V}.

Definition lookup {V : Type} (o : t V) (k : string) : Lookup V :=
  match get k o with
  | Some v => Own v
  | None =>
      if existsb (String.eqb k) prototype_keys then Inherited else Undefined
  end.

End Obj.

(* ================================================================== *)
(** ** Diagnostics and exceptions *)
(* ================================================================== *)

(** What [core.debug] and [core.warning] record. *)
Inductive Diagnostic : Type :=
| Debug (msg : string)
| Warning (msg : string).

Inductive Error : Type :=
| TypeError (msg : string)
| SyntaxError (msg : string).

Inductive Result (A : Type) : Type :=
| Ok (a : A)
| Throw (e : Error).

Arguments Throw {A} e.

Module Core.

(** A computation receives the diagnostics emitted so far and returns its
    outcome with the diagnostics emitted up to its end. A throw keeps
    what was emitted before it. *)
Definition t (A : Type) : Type :=
  list Diagnostic -> Result A * list Diagnostic.

Definition ret {A : Type} (a : A) : t A := fun log => (Ok a, log).

Definition bind {A B : Type} (m : t A) (f : A -> t B) : t B :=
  fun log =>
    match m log with
    | (Ok a, log') => f a log'
    | (Throw e, log') => (Throw e, log')
    end.

Definition throw {A : Type} (e : Error) : t A := fun log => (Throw e, log).

Definition debug (msg : string) : t unit :=
  fun log => (Ok tt, log ++ [Debug msg]).

Definition warning (msg : string) : t unit :=
  fun log => (Ok tt, log ++ [Warning msg]).

Declare Scope core_scope.
Delimit Scope core_scope with core.
Bind Scope core_scope with t.

Notation "x <- m ;; k" := (bind m (fun x => k))
  (at level 61, m at next level, right associativity) : core_scope.
Notation "m ;; k" := (bind m (fun _ => k))
  (at level 61, right associativity) : core_scope.

Local Open Scope core_scope.

Section Arrays.
Variable A B : Type.

(** [arr.filter(f)] *)
Fixpoint filter (f : A -> t bool) (arr : list A) : t (list A) :=
  match arr with
  | [] => ret []
  | x :: arr' =>
      keep <- f x ;;
      rest <- filter f arr' ;;
      ret (if keep then x :: rest else rest)
  end.

(** [arr.map(f)] *)
Fixpoint map (f : A -> t B) (arr : list A) : t (list B) :=
  match arr with
  | [] => ret []
  | x :: arr' =>
      y <- f x ;;
      rest <- map f arr' ;;
      ret (y :: rest)
  end.

(** [arr.some(f)]: stops at the first element [f] accepts. *)
Fixpoint some (f : A -> t bool) (arr : list A) : t bool :=
  match arr with
  | [] => ret false
  | x :: arr' =>
      hit <- f x ;;
      if hit then ret true else some f arr'
  end.

(** [arr.find(f)]: the first element [f] accepts, or [undefined]. *)
Fixpoint find (f : A -> t bool) (arr : list A) : t (option A) :=
  match arr with
  | [] => ret None
  | x :: arr' =>
      hit <- f x ;;
      if hit then ret (Some x) else find f arr'
  end.

(** [arr.forEach(f)] *)
Fixpoint forEach (f : A -> t unit) (arr : list A) : t unit :=
  match arr with
  | [] => ret tt
  | x :: arr' => f x ;; forEach f arr'
  end.

(** [arr.sort(compare)]. The sort of the language is stable, and for a
    comparator that is consistent on the elements its result is the one
    stable arrangement in which no element is followed by one that
    compares before it; the model builds that arrangement by insertion,
    from the right. An element goes before the first one it does not
    compare after. *)
Fixpoint insert (compare : A -> A -> t Z) (x : A) (sorted : list A)
  : t (list A) :=
  match sorted with
  | [] => ret [x]
  | y :: sorted' =>
      c <- compare x y ;;
      if (c <=? 0)%Z then ret (x :: y :: sorted')
      else (rest <- insert compare x sorted' ;; ret (y :: rest))
  end.

Fixpoint sort (compare : A -> A -> t Z) (arr : list A) : t (list A) :=
  match arr with
  | [] => ret []
  | x :: arr' =>
      sorted <- sort compare arr' ;;
      insert compare x sorted
  end.

End Arrays.

End Core.

Notation "x <- m ;; k" := (Core.bind m (fun x => k))
  (at level 61, m at next level, right associativity) : core_scope.
Notation "m ;; k" := (Core.bind m (fun _ => k))
  (at level 61, right associativity) : core_scope.

(* ================================================================== *)
(** ** String methods with a string argument *)
(* ================================================================== *)

Module JsText.

(** [s.startsWith(needle)] *)
Fixpoint starts_with (needle s : string) : bool :=
  match needle, s with
  | EmptyString, _ => true
  | String _ _, EmptyString => false
  | String n needle', String c s' =>
      Ascii.eqb c n && starts_with needle' s'
  end.

(** [s.includes(needle)]: the needle starts somewhere in [s]. *)
Fixpoint includes (needle s : string) : bool :=
  match s with
  | EmptyString => starts_with needle s
  | String _ s' => starts_with needle s || includes needle s'
  end.

Fixpoint drop (n : nat) (s : string) : string :=
  match n, s with
  | O, _ => s
  | S _, EmptyString => EmptyString
  | S n', String _ s' => drop n' s'
  end.

(** [s.replace(needle, '')] for a string [needle]: the first occurrence
    of the needle is taken out, the rest is kept. *)
Fixpoint remove_first (needle s : string) : string :=
  if starts_with needle s then drop (String.length needle) s
  else match s with
       | EmptyString => EmptyString
       | String c s' => String c (remove_first needle s')
       end.

End JsText.

(* ================================================================== *)
(** ** The [semver] package *)
(* ================================================================== *)

(** Modelled from the spec: [valid], [prerelease] and [rcompare] are
    imported from the [semver] package, which is not in the sources. The
    specification asks for the "semantic-version grammar (accepting all
    standard forms including prerelease/build metadata)" and the
    "standard semver comparison: major, minor, patch, then prerelease
    identifiers; build metadata ignored". The model follows the strict
    mode of the package's [SemVer] class: surrounding white space is
    trimmed, then come an optional leading [v], three numerals without
    leading zeros, and dot-separated prerelease and build identifiers.
    Numerals are exact integers, as JavaScript numbers are up to the
    bound 2^53 - 1 the class puts on major, minor and patch. *)
Module Semver.

Inductive Identifier : Type :=
| Numeric (n : N)
| Alphanumeric (s : string).

Record SemVer : Type := {
  major : N;
  minor : N;
  patch : N;
  pre : list Identifier;      (* the field [prerelease] *)
  build : list string
}.

Definition MAX_LENGTH : nat := 256.
Definition MAX_SAFE_INTEGER : N := 9007199254740991.

(** *** Parsing *)

Fixpoint trim_left (s : string) : string :=
  match s with
  | EmptyString => EmptyString
  | String c s' => if Js.is_space c then trim_left s' else s
  end.

Fixpoint trim_right (s : string) : string :=
  match s with
  | EmptyString => EmptyString
  | String c s' =>
      match trim_right s' with
      | EmptyString => if Js.is_space c then EmptyString
                       else String c EmptyString
      | t => String c t
      end
  end.

Definition trim (s : string) : string := trim_right (trim_left s).

(** The text before the first occurrence of [sep], and the text after it
    when [sep] occurs. *)
Fixpoint break_at (sep : ascii) (s : string) : string * option string :=
  match s with
  | EmptyString => (EmptyString, None)
  | String c s' =>
      if Ascii.eqb c sep then (EmptyString, Some s')
      else let (before, after) := break_at sep s' in (String c before, after)
  end.

Definition is_letter_or_hyphen (c : ascii) : bool :=
  let n := N_of_ascii c in
  (((65 <=? n) && (n <=? 90)) || ((97 <=? n) && (n <=? 122)) || (n =? 45))%N.

Definition is_identifier_char (c : ascii) : bool :=
  Js.is_digit c || is_letter_or_hyphen c.

Definition nonempty (s : string) : bool :=
  match s with
  | EmptyString => false
  | String _ _ => true
  end.

(** [0|[1-9]\d*] or [\d*[a-zA-Z-][a-zA-Z0-9-]*] *)
Definition parse_identifier (id : string) : option Identifier :=
  if Js.canonical_numeral id then Some (Numeric (Js.decimal_value 0 id))
  else if nonempty id && Js.all_chars is_identifier_char id
          && negb (Js.all_chars Js.is_digit id)
       then Some (Alphanumeric id)
       else None.

(** [[0-9A-Za-z-]+] *)
Definition parse_build_identifier (id : string) : option string :=
  if nonempty id && Js.all_chars is_identifier_char id then Some id else None.

Fixpoint traverse {A B : Type} (f : A -> option B) (l : list A)
  : option (list B) :=
  match l with
  | [] => Some []
  | x :: l' =>
      match f x, traverse f l' with
      | Some y, Some ys => Some (y :: ys)
      | _, _ => None
      end
  end.

Definition parse_numeral (s : string) : option N :=
  if Js.canonical_numeral s then
    let n := Js.decimal_value 0 s in
    if (n <=? MAX_SAFE_INTEGER)%N then Some n else None
  else None.

Definition strip_v (s : string) : string :=
  match s with
  | String "v" s' => s'
  | _ => s
  end.

(** [new SemVer(version)], with [None] for a throw. *)
Definition parse (version : string) : option SemVer :=
  if (MAX_LENGTH <? String.length version)%nat then None
  else
    let (core, build_part) := break_at "+" (strip_v (trim version)) in
    let (main, pre_part) := break_at "-" core in
    match Js.split "." main with
    | [ma; mi; pa] =>
        match parse_numeral ma, parse_numeral mi, parse_numeral pa with
        | Some ma', Some mi', Some pa' =>
            match
              match pre_part with
              | Some p => traverse parse_identifier (Js.split "." p)
              | None => Some []
              end,
              match build_part with
              | Some b => traverse parse_build_identifier (Js.split "." b)
              | None => Some []
              end
            with
            | Some pre', Some build' =>
                Some {| major := ma'; minor := mi'; patch := pa';
                        pre := pre'; build := build' |}
            | _, _ => None
            end
        | _, _, _ => None
        end
    | _ => None
    end.

(** *** Printing: the field [version] *)

Definition show_N (n : N) : string :=
  match n with
  | N0 => "0"
  | Npos _ => DecimalString.NilEmpty.string_of_uint (N.to_uint n)
  end.

Definition show_identifier (i : Identifier) : string :=
  match i with
  | Numeric n => show_N n
  | Alphanumeric s => s
  end.

Fixpoint join (sep : string) (l : list string) : string :=
  match l with
  | [] => EmptyString
  | [x] => x
  | x :: l' => x ++ sep ++ join sep l'
  end.

Definition format (v : SemVer) : string :=
  show_N (major v) ++ "." ++ show_N (minor v) ++ "." ++ show_N (patch v)
  ++ match pre v with
     | [] => EmptyString
     | ids => "-" ++ join "." (List.map show_identifier ids)
     end.

(** *** Precedence *)

Definition compareIdentifiers (a b : Identifier) : comparison :=
  match a, b with
  | Numeric x, Numeric y => N.compare x y
  | Numeric _, Alphanumeric _ => Lt
  | Alphanumeric _, Numeric _ => Gt
  | Alphanumeric x, Alphanumeric y => String.compare x y
  end.

Fixpoint compareIdentifierLists (a b : list Identifier) : comparison :=
  match a, b with
  | [], [] => Eq
  | [], _ :: _ => Lt
  | _ :: _, [] => Gt
  | x :: a', y :: b' =>
      match compareIdentifiers x y with
      | Eq => compareIdentifierLists a' b'
      | c => c
      end
  end.

Definition compareMain (a b : SemVer) : comparison :=
  match N.compare (major a) (major b) with
  | Eq =>
      match N.compare (minor a) (minor b) with
      | Eq => N.compare (patch a) (patch b)
      | c => c
      end
  | c => c
  end.

(** A version with prerelease identifiers is below the same version
    without. *)
Definition comparePre (a b : SemVer) : comparison :=
  match pre a, pre b with
  | _ :: _, [] => Lt
  | [], _ :: _ => Gt
  | [], [] => Eq
  | pa, pb => compareIdentifierLists pa pb
  end.

(** [a.compare(b)]: the build identifiers play no part. *)
Definition compareVersions (a b : SemVer) : comparison :=
  match compareMain a b with
  | Eq => comparePre a b
  | c => c
  end.

Definition number_of (c : comparison) : Z :=
  match c with
  | Lt => (-1)%Z
  | Eq => 0%Z
  | Gt => 1%Z
  end.

(** *** The exported functions *)

(** [valid(version)]: the normalised version, or [null]. *)
Definition valid (version : string) : option string :=
  option_map format (parse version).

(** [prerelease(version)]: the prerelease identifiers when the version
    parses and has some, [null] otherwise. *)
Definition prerelease (version : string) : option (list Identifier) :=
  match parse version with
  | Some v =>
      match pre v with
      | [] => None
      | ids => Some ids
      end
  | None => None
  end.

(** [compare(a, b)]: -1, 0 or 1; throws on a string that is no version. *)
Definition compare (a b : string) : Core.t Z :=
  match parse a with
  | None => Core.throw (TypeError ("Invalid Version: " ++ a))
  | Some va =>
      match parse b with
      | None => Core.throw (TypeError ("Invalid Version: " ++ b))
      | Some vb => Core.ret (number_of (compareVersions va vb))
      end
  end.

(** [rcompare(a, b)] is [compare(b, a)]. *)
Definition rcompare (a b : string) : Core.t Z := compare b a.

End Semver.

(* ================================================================== *)
(** ** Regular expressions *)
(* ================================================================== *)

(** Regular expressions belong to the run-time, not to [utils.ts]. A
    fragment of their syntax is modelled here in full: characters, [.],
    character classes, the escapes [\d \w \s] and their complements, the
    control escapes and the identity escapes of punctuation, groups,
    alternation, the quantifiers [* + ?] (greedy or lazy) and the
    assertions [^] and [$]. For a pattern of the fragment, matching is
    the backtracking search of the language definition, so a match is the
    one JavaScript finds, and a pattern that breaks the syntax inside the
    fragment (a group left open, nothing to repeat, a range out of order)
    is a syntax error.

    What lies beyond the fragment (braces, word boundaries, hexadecimal
    and other letter or digit escapes, back-references, look-around,
    named groups) is left to the run-time: the constructor of the
    run-time is a parameter, an [Engine], and a regular expression it
    builds is known only by what the code asks of it. Nothing is said of
    such a pattern that the run-time does not say. The code builds its
    expressions with the flag [g] or with no flag. *)
Module RegExp.

(** What reading a pattern, or a part of one, comes to. *)
Inductive Verdict (A : Type) : Type :=
| Fine (a : A)
| Malformed     (* a syntax error, whatever follows *)
| Beyond.       (* syntax the model leaves to the run-time *)

Arguments Malformed {A}.
Arguments Beyond {A}.

Inductive ClassItem : Type :=
| CChar (c : ascii)
| CRange (lo hi : ascii)
| CDigit (positive : bool)
| CWord (positive : bool)
| CSpace (positive : bool).

Inductive Node : Type :=
| Empty
| Char (c : ascii)
| Dot
| Class (negated : bool) (items : list ClassItem)
| Seq (a b : Node)
| Alt (a b : Node)
| Quant (min : nat) (max : option nat) (greedy : bool) (a : Node)
| Bol
| Eol.

(** A regular expression of the fragment, compiled. *)
Record Compiled : Type := { node : Node; global : bool }.

(** A regular expression object: one of the fragment, or one the
    run-time built, of which the code uses [s.match(re)] as a truth value
    and [s.replace(re, '')]. *)
Inductive t : Type :=
| Modelled (re : Compiled)
| Native (matches : string -> bool) (without : string -> string).

(** *** Matching *)

Definition is_word (c : ascii) : bool :=
  let n := N_of_ascii c in
  (((48 <=? n) && (n <=? 57)) || ((65 <=? n) && (n <=? 90))
   || ((97 <=? n) && (n <=? 122)) || (n =? 95))%N.

Definition is_line_terminator (c : ascii) : bool :=
  let n := N_of_ascii c in ((n =? 10) || (n =? 13))%N.

Definition item_matches (i : ClassItem) (c : ascii) : bool :=
  match i with
  | CChar x => Ascii.eqb c x
  | CRange lo hi => ((N_of_ascii lo <=? N_of_ascii c)
                     && (N_of_ascii c <=? N_of_ascii hi))%N
  | CDigit positive => Bool.eqb positive (Js.is_digit c)
  | CWord positive => Bool.eqb positive (is_word c)
  | CSpace positive => Bool.eqb positive (Js.is_space c)
  end.

Definition class_matches (negated : bool) (items : list ClassItem)
           (c : ascii) : bool :=
  xorb negated (existsb (fun i => item_matches i c) items).

(** A position in the subject: the index and what is left to read. *)
Record Pos : Type := { index : nat; rest : list ascii }.

Definition Matcher : Type := Pos -> (Pos -> option Pos) -> option Pos.

Definition one_char (p : ascii -> bool) : Matcher :=
  fun x c =>
    match rest x with
    | a :: s' =>
        if p a then c {| index := S (index x); rest := s' |} else None
    | [] => None
    end.

(** The repetition of the language definition: while a minimum is owed
    the body must match; afterwards an iteration that reads nothing is
    refused, a greedy quantifier tries one more iteration first and a
    lazy one tries the continuation first. Every iteration lowers the
    owed minimum or reads a character, which bounds the depth: the bound
    [matcher] passes is never what stops a repetition
    ([RegExpFacts.repeat_matcher_depth]). *)
Fixpoint repeat_matcher (depth : nat) (m : Matcher) (min : nat)
         (max : option nat) (greedy : bool) : Matcher :=
  fun x c =>
    match max with
    | Some 0 => c x
    | _ =>
        match depth with
        | 0 => None
        | S depth' =>
            let d := fun y =>
              if (min =? 0)%nat && (index y =? index x)%nat then None
              else repeat_matcher depth' m (Nat.pred min)
                                  (option_map Nat.pred max) greedy y c in
            if negb (min =? 0)%nat then m x d
            else if greedy then
              match m x d with
              | Some z => Some z
              | None => c x
              end
            else
              match c x with
              | Some z => Some z
              | None => m x d
              end
        end
    end.

Fixpoint matcher (r : Node) : Matcher :=
  fun x c =>
    match r with
    | Empty => c x
    | Char ch => one_char (Ascii.eqb ch) x c
    | Dot => one_char (fun a => negb (is_line_terminator a)) x c
    | Class negated items => one_char (class_matches negated items) x c
    | Seq a b => matcher a x (fun y => matcher b y c)
    | Alt a b =>
        match matcher a x c with
        | Some z => Some z
        | None => matcher b x c
        end
    | Quant min max greedy a =>
        repeat_matcher (min + List.length (rest x) + 1) (matcher a)
                       min max greedy x c
    | Bol => if (index x =? 0)%nat then c x else None
    | Eol => match rest x with [] => c x | _ :: _ => None end
    end.

(** The leftmost match at or after the position: its start and end. *)
Fixpoint search (r : Node) (i : nat) (s : list ascii) : option (nat * nat) :=
  match matcher r {| index := i; rest := s |} (fun y => Some y) with
  | Some y => Some (i, index y)
  | None =>
      match s with
      | [] => None
      | _ :: s' => search r (S i) s'
      end
  end.

(** [re.exec(s)] on a fresh expression, as a truth value; also the truth
    value of [s.match(re)], with or without the flag [g]. *)
Definition test (re : t) (s : string) : bool :=
  match re with
  | Modelled re =>
      match search (node re) 0 (list_ascii_of_string s) with
      | Some _ => true
      | None => false
      end
  | Native matches _ => matches s
  end.

(** Removal of every match from the position on; after an empty match
    the search resumes one character further. *)
Fixpoint remove_all (fuel : nat) (r : Node) (i : nat) (s : list ascii)
  : list ascii :=
  match fuel with
  | 0 => s
  | S fuel' =>
      match search r i s with
      | None => s
      | Some (b, e) =>
          if (e =? b)%nat then
            match skipn (b - i) s with
            | [] => firstn (b - i) s
            | a :: s' => firstn (b - i) s ++ a :: remove_all fuel' r (S b) s'
            end
          else firstn (b - i) s ++ remove_all fuel' r e (skipn (e - i) s)
      end
  end.

(** [s.replace(re, '')] *)
Definition remove (re : t) (s : string) : string :=
  match re with
  | Modelled re =>
      let cs := list_ascii_of_string s in
      if global re then
        string_of_list_ascii (remove_all (S (List.length cs)) (node re) 0 cs)
      else
        match search (node re) 0 cs with
        | Some (b, e) => string_of_list_ascii (firstn b cs ++ skipn e cs)
        | None => s
        end
  | Native _ without => without s
  end.

(** *** Parsing a pattern *)

(** What may follow the last term of the alternative being read. *)
Inductive Last : Type :=
| NoAtom        (* nothing to repeat *)
| Atom          (* a quantifier may follow *)
| Quantified.   (* only the lazy mark [?] may follow *)

(** A group being read: the alternatives completed so far and the terms
    of the current one, both latest first. *)
Record Frame : Type := {
  alts : list Node;
  terms : list Node;
  last : Last
}.

Inductive Mode : Type :=
| Normal
| Escape            (* after a backslash *)
| GroupOpen         (* after an opening parenthesis *)
| GroupQuestion     (* after an opening parenthesis and a question mark *)
| ClassOpen         (* after an opening bracket *)
| InClass (negated : bool) (items : list ClassItem)
          (pending : option ascii) (dash escape : bool).

Record State : Type := {
  parents : list Frame;
  top : Frame;
  mode : Mode
}.

Definition empty_frame : Frame :=
  {| alts := []; terms := []; last := NoAtom |}.

Definition initial : State :=
  {| parents := []; top := empty_frame; mode := Normal |}.

Definition build_seq (terms_rev : list Node) : Node :=
  fold_left (fun acc term => Seq term acc) terms_rev Empty.

Definition build_alt (f : Frame) : Node :=
  fold_left (fun acc a => Alt a acc) (alts f) (build_seq (terms f)).

Definition push_term (n : Node) (f : Frame) : Frame :=
  {| alts := alts f; terms := n :: terms f; last := Atom |}.

Definition push_assertion (n : Node) (f : Frame) : Frame :=
  {| alts := alts f; terms := n :: terms f; last := NoAtom |}.

Definition next_alternative (f : Frame) : Frame :=
  {| alts := build_seq (terms f) :: alts f; terms := []; last := NoAtom |}.

Definition quantify (min : nat) (max : option nat) (f : Frame)
  : option Frame :=
  match last f, terms f with
  | Atom, term :: before =>
      Some {| alts := alts f;
              terms := Quant min max true term :: before;
              last := Quantified |}
  | _, _ => None
  end.

Definition make_lazy (f : Frame) : option Frame :=
  match last f, terms f with
  | Quantified, Quant min max _ term :: before =>
      Some {| alts := alts f;
              terms := Quant min max false term :: before;
              last := NoAtom |}
  | _, _ => None
  end.

Inductive Escaped : Type :=
| EChar (c : ascii)
| EClass (i : ClassItem).

(** The escapes common to patterns and classes that the model reads:
    the class escapes, the control escapes, and a character that is not
    a letter or a digit, which stands for itself. An escaped letter or
    digit that is not listed ([\b], [\x41], [\1], [\k], ...) is left to
    the run-time. *)
Definition escaped (c : ascii) : option Escaped :=
  match c with
  | "d"%char => Some (EClass (CDigit true))
  | "D"%char => Some (EClass (CDigit false))
  | "w"%char => Some (EClass (CWord true))
  | "W"%char => Some (EClass (CWord false))
  | "s"%char => Some (EClass (CSpace true))
  | "S"%char => Some (EClass (CSpace false))
  | "t"%char => Some (EChar (ascii_of_nat 9))
  | "n"%char => Some (EChar (ascii_of_nat 10))
  | "v"%char => Some (EChar (ascii_of_nat 11))
  | "f"%char => Some (EChar (ascii_of_nat 12))
  | "r"%char => Some (EChar (ascii_of_nat 13))
  | "_"%char => Some (EChar c)
  | _ => if is_word c then None else Some (EChar c)
  end.

Definition with_top (st : State) (f : Frame) : State :=
  {| parents := parents st; top := f; mode := Normal |}.

Definition with_mode (st : State) (m : Mode) : State :=
  {| parents := parents st; top := top st; mode := m |}.

(** A quantifier with nothing to repeat is a syntax error. *)
Definition lift_top (st : State) (f : option Frame) : Verdict State :=
  match f with
  | Some f' => Fine (with_top st f')
  | None => Malformed
  end.

(** A closing bracket or brace outside a class stands for itself; an
    opening brace may start a counted quantifier and is left to the
    run-time. *)
Definition step_normal (st : State) (c : ascii) : Verdict State :=
  match c with
  | "\"%char => Fine (with_mode st Escape)
  | "["%char => Fine (with_mode st ClassOpen)
  | "("%char =>
      Fine {| parents := top st :: parents st; top := empty_frame;
              mode := GroupOpen |}
  | ")"%char =>
      match parents st with
      | parent :: above =>
          Fine {| parents := above;
                  top := push_term (build_alt (top st)) parent;
                  mode := Normal |}
      | [] => Malformed
      end
  | "|"%char => Fine (with_top st (next_alternative (top st)))
  | "*"%char => lift_top st (quantify 0 None (top st))
  | "+"%char => lift_top st (quantify 1 None (top st))
  | "?"%char =>
      match last (top st) with
      | Quantified => lift_top st (make_lazy (top st))
      | _ => lift_top st (quantify 0 (Some 1) (top st))
      end
  | "^"%char => Fine (with_top st (push_assertion Bol (top st)))
  | "$"%char => Fine (with_top st (push_assertion Eol (top st)))
  | "."%char => Fine (with_top st (push_term Dot (top st)))
  | "{"%char => Beyond
  | _ => Fine (with_top st (push_term (Char c) (top st)))
  end.

Definition push_pending (pending : option ascii) (items : list ClassItem)
  : list ClassItem :=
  match pending with
  | Some x => CChar x :: items
  | None => items
  end.

(** A single character arrives in a class: it closes a range when a dash
    is pending and otherwise waits as a possible start of a range. A
    range out of order is a syntax error. *)
Definition class_char (negated : bool) (items : list ClassItem)
           (pending : option ascii) (dash : bool) (x : ascii) : Verdict Mode :=
  if dash then
    match pending with
    | Some lo =>
        if (N_of_ascii lo <=? N_of_ascii x)%N
        then Fine (InClass negated (CRange lo x :: items) None false false)
        else Malformed
    | None => Beyond
    end
  else Fine (InClass negated (push_pending pending items) (Some x) false false).

Definition lift_mode (st : State) (m : Verdict Mode) : Verdict State :=
  match m with
  | Fine m' => Fine (with_mode st m')
  | Malformed => Malformed
  | Beyond => Beyond
  end.

Definition class_item (negated : bool) (items : list ClassItem)
           (pending : option ascii) (dash : bool) (i : ClassItem) : Mode :=
  let items' := push_pending pending items in
  InClass negated (i :: (if dash then CChar "-" :: items' else items'))
          None false false.

Definition step_class (st : State) (negated : bool)
           (items : list ClassItem) (pending : option ascii)
           (dash escape : bool) (c : ascii) : Verdict State :=
  if escape then
    match (if Ascii.eqb c "b" then Some (EChar (ascii_of_nat 8))
           else escaped c) with
    | Some (EChar x) =>
        lift_mode st (class_char negated items pending dash x)
    | Some (EClass i) =>
        Fine (with_mode st (class_item negated items pending dash i))
    | None => Beyond
    end
  else
    match c with
    | "\"%char => Fine (with_mode st (InClass negated items pending dash true))
    | "]"%char =>
        let items' := push_pending pending items in
        Fine (with_top st
                (push_term
                   (Class negated
                      (rev (if dash then CChar "-" :: items' else items')))
                   (top st)))
    | "-"%char =>
        match pending, dash with
        | Some _, false =>
            Fine (with_mode st (InClass negated items pending true false))
        | _, _ =>
            lift_mode st (class_char negated items pending dash c)
        end
    | _ => lift_mode st (class_char negated items pending dash c)
    end.

(** After [(?] the model reads the group that does not capture, [(?:];
    look-around and named groups are left to the run-time. *)
Definition step (st : State) (c : ascii) : Verdict State :=
  match mode st with
  | Normal => step_normal st c
  | Escape =>
      match escaped c with
      | Some (EChar x) => Fine (with_top st (push_term (Char x) (top st)))
      | Some (EClass i) =>
          Fine (with_top st (push_term (Class false [i]) (top st)))
      | None => Beyond
      end
  | GroupOpen =>
      if Ascii.eqb c "?" then Fine (with_mode st GroupQuestion)
      else step_normal (with_mode st Normal) c
  | GroupQuestion =>
      if Ascii.eqb c ":" then Fine (with_mode st Normal) else Beyond
  | ClassOpen =>
      if Ascii.eqb c "^" then Fine (with_mode st (InClass true [] None false false))
      else step_class st false [] None false false c
  | InClass negated items pending dash escape =>
      step_class st negated items pending dash escape c
  end.

Fixpoint steps (st : State) (cs : list ascii) : Verdict State :=
  match cs with
  | [] => Fine st
  | c :: cs' =>
      match step st c with
      | Fine st' => steps st' cs'
      | Malformed => Malformed
      | Beyond => Beyond
      end
  end.

(** At the end of the pattern every group must be closed, and no escape,
    group opening or class may be left unfinished. *)
Definition finish (st : State) : Verdict Node :=
  match mode st, parents st with
  | Normal, [] => Fine (build_alt (top st))
  | _, _ => Malformed
  end.

Definition parse (pattern : string) : Verdict Node :=
  match steps initial (list_ascii_of_string pattern) with
  | Fine st => finish st
  | Malformed => Malformed
  | Beyond => Beyond
  end.

(** The run-time, where the model ends: its constructor on the patterns
    beyond the fragment, called with the pattern and with whether the
    flag [g] is given, and the message it puts into a syntax error. *)
Record Engine : Type := {
  construct : string -> bool -> Result t;
  complaint : string -> bool -> string
}.

(** [new RegExp(pattern)] and [new RegExp(pattern, 'g')], as a value or
    an error. *)
Definition compile (engine : Engine) (pattern : string) (global : bool)
  : Result t :=
  match parse pattern with
  | Fine n => Ok (Modelled {| node := n; global := global |})
  | Malformed => Throw (SyntaxError (complaint engine pattern global))
  | Beyond => construct engine pattern global
  end.

(** The constructor within a computation: it logs nothing. *)
Definition create (engine : Engine) (pattern : string) (global : bool)
  : Core.t t :=
  fun log => (compile engine pattern global, log).

End RegExp.

(* ================================================================== *)
(** ** [utils.ts]: release rules *)
(* ================================================================== *)

(** A rule object. The expander builds rules with the four fields; an
    entry of the default table has no [breaking] field, and any of its
    fields but [type] may be missing. *)
Record Rule : Type := {
  type : string;
  release : option string;
  section : option string;
  breaking : option bool
}.

Section ReleaseRules.

Local Open Scope core_scope.

(** The two imports of [utils.ts] the rule functions read. Neither file
    is part of the sources at hand, so both are parameters:
    [DEFAULT_RELEASE_TYPES] is the array exported by
    [@semantic-release/commit-analyzer], and [defaultsLiteral] lists the
    properties of the object literal that [./defaults] exports as
    [defaultChangelogRules]. *)
Variable DEFAULT_RELEASE_TYPES : list string.
Variable defaultsLiteral : list (string * Rule).

Definition defaultChangelogRules : Obj.t Rule := Obj.literal defaultsLiteral.

Definition releaseRuleSeparator : ascii := ",".
Definition releaseTypeSeparator : ascii := ":".

(** [x.toLowerCase()] where [x] may be [undefined]. *)
Definition toLowerCase (x : option string) : Core.t string :=
  match x with
  | Some s => Core.ret (Js.toLowerCase s)
  | None =>
      Core.throw
        (TypeError "Cannot read properties of undefined (reading 'toLowerCase')")
  end.

(** The callback of [.filter] in [mapCustomReleaseRules] (lines 101-129).
    The test that guards the two debug messages compares the length of
    the rule string, [customReleaseRule.length], with 3. *)
Definition mapCustomReleaseRules_filter (customReleaseRule : string)
  : Core.t bool :=
  let parts := Js.split releaseTypeSeparator customReleaseRule in
  if (List.length parts <? 2)%nat then
    Core.warning
      (customReleaseRule ++ " is not a valid custom release definition.") ;;
    Core.ret false
  else
    key <- toLowerCase (nth_error parts 0) ;;
    let defaultRule := Obj.lookup defaultChangelogRules key in
    (if negb (String.length customReleaseRule =? 3)%nat then
       Core.debug
         (customReleaseRule
            ++ " doesn't mention the section for the changelog.") ;;
       Core.debug
         match defaultRule with
         | Obj.Own r =>
             "Default section (" ++ Js.template (section r)
               ++ ") will be used instead."
         | Obj.Inherited =>
             "Default section (" ++ Js.template None
               ++ ") will be used instead."
         | Obj.Undefined =>
             "The commits matching this rule won't be included in the changelog."
         end
     else Core.ret tt) ;;
    if negb (Js.includes DEFAULT_RELEASE_TYPES (nth_error parts 1)) then
      Core.warning
        (Js.template (nth_error parts 1) ++ " is not a valid release type.") ;;
      Core.ret false
    else Core.ret true.

(** [defaultRule?.section] *)
Definition section_of (defaultRule : Obj.Lookup Rule) : option string :=
  match defaultRule with
  | Obj.Own r => section r
  | Obj.Inherited => None
  | Obj.Undefined => None
  end.

(** The callback of [.map] in [mapCustomReleaseRules] (lines 130-166).
    [type], [release] and [section] are the first three parts, each
    [undefined] when the rule has fewer; [type.toLowerCase()] throws on
    an [undefined] type. *)
Definition mapCustomReleaseRules_map (customReleaseRule : string)
  : Core.t (list Rule) :=
  let parts := Js.split releaseTypeSeparator customReleaseRule in
  let release_ := nth_error parts 1 in
  let section_ := nth_error parts 2 in
  match nth_error parts 0 with
  | None => toLowerCase None ;; Core.ret []
  | Some type_ =>
      key <- toLowerCase (Some type_) ;;
      let defaultRule := Obj.lookup defaultChangelogRules key in
      Core.ret
        [ {| type := type_;
             release := Some "major";
             section := Js.or_else section_ (section_of defaultRule);
             breaking := Some true |};
          {| type := type_;
             release := release_;
             section := Js.or_else section_ (section_of defaultRule);
             breaking := Some false |} ]
  end.

(** [mapCustomReleaseRules] (lines 95-168): split at the commas, filter,
    map, and flatten by one level. *)
Definition mapCustomReleaseRules (customReleaseTypes : string)
  : Core.t (list Rule) :=
  kept <- Core.filter mapCustomReleaseRules_filter
            (Js.split releaseRuleSeparator customReleaseTypes) ;;
  pairs <- Core.map mapCustomReleaseRules_map kept ;;
  Core.ret (List.concat pairs).

(** The accumulator of the [reduce] in [mergeWithDefaultChangelogRules]
    (lines 173-179): a copy of the default table, then for each rule a
    copy of the accumulator with the property [curr.type] set to the
    rule. *)
Definition mergedRules (mappedReleaseRules : list Rule) : Obj.t Rule :=
  fold_left
    (fun acc curr => Obj.set (type curr) curr (Obj.spread acc []))
    mappedReleaseRules
    (Obj.spread defaultChangelogRules []).

(** [mergeWithDefaultChangelogRules] (lines 170-182). An omitted argument
    is the empty array. *)
Definition mergeWithDefaultChangelogRules (mappedReleaseRules : list Rule)
  : list Rule :=
  filter (fun rule => Js.truthy (section rule))
         (Obj.values (mergedRules mappedReleaseRules)).

End ReleaseRules.

(* ================================================================== *)
(** ** [utils.ts]: tags and commits *)
(* ================================================================== *)

Record TagCommit : Type := { sha : string }.

(** A tag as the host returns it. *)
Record Tag : Type := { name : string; commit : TagCommit }.

(** A commit as [getCommits] returns it. *)
Record Commit : Type := { message : string; hash : string }.

(** [tag.name.replace(prefixRegex, '')] *)
Definition stripped (prefixRegex : RegExp.t) (tag : Tag) : string :=
  RegExp.remove prefixRegex (name tag).

Section Tags.

Local Open Scope core_scope.

(** [listTags] of [./github] asks the host; its result is a parameter. *)
Variable listTags : bool -> Core.t (list Tag).

(** [getValidTags] (lines 11-32). The first [forEach] names its
    parameter [name] but receives the tag object, which a template
    literal prints as [[object Object]]. *)
Definition getValidTags (prefixRegex : RegExp.t) (shouldFetchAllTags : bool)
  : Core.t (list Tag) :=
  tags <- listTags shouldFetchAllTags ;;
  let invalidTags :=
    filter (fun tag => negb (Js.truthy (Semver.valid (stripped prefixRegex tag))))
           tags in
  Core.forEach
    (fun name_ : Tag => Core.debug ("Found Invalid Tag: " ++ "[object Object]" ++ "."))
    invalidTags ;;
  validTags <-
    Core.sort
      (fun a b =>
         Semver.rcompare (stripped prefixRegex a) (stripped prefixRegex b))
      (filter (fun tag => Js.truthy (Semver.valid (stripped prefixRegex tag)))
              tags) ;;
  Core.forEach
    (fun tag => Core.debug ("Found Valid Tag: " ++ name tag ++ "."))
    validTags ;;
  Core.ret validTags.

End Tags.

(** [getScopedCommits] (lines 45-60). The run-time that builds the
    regular expressions is the parameter [engine]. *)
Definition getScopedCommits (engine : RegExp.Engine) (commits : list Commit)
           (scopes : list string) : Core.t (list Commit) :=
  Core.filter
    (fun commit =>
       Core.some
         (fun scope =>
            (re <- RegExp.create engine
                     ("^(build|chore|ci|docs|feat|fix|perf|refactor|revert|style|test)\("
                        ++ scope ++ "\)\: [\w ]+")
                     true ;;
             Core.ret (RegExp.test re (message commit)))%core)
         scopes)
    commits.

(** [getLatestTag] (lines 70-83) *)
Definition getLatestTag (tags : list Tag) (prefixRegex : RegExp.t)
           (tagPrefix : string) : Tag :=
  match
    find (fun tag =>
            negb (Js.truthy_object
                    (Semver.prerelease (stripped prefixRegex tag))))
         tags
  with
  | Some tag => tag
  | None => {| name := tagPrefix ++ "0.0.0"; commit := {| sha := "HEAD" |} |}
  end.

(** [getLatestPrereleaseTag] (lines 85-93). [s.match(identifier)] with a
    string argument builds [new RegExp(identifier)] at each call. *)
Definition getLatestPrereleaseTag (engine : RegExp.Engine) (tags : list Tag)
           (identifier : string) (prefixRegex : RegExp.t)
  : Core.t (option Tag) :=
  Core.find
    (fun tag =>
       (re <- RegExp.create engine identifier false ;;
        Core.ret (RegExp.test re (stripped prefixRegex tag)))%core)
    (filter (fun tag =>
               Js.truthy_object (Semver.prerelease (stripped prefixRegex tag)))
            tags).

(* ================================================================== *)
(** ** [utils.ts]: commits of the host and refs *)
(* ================================================================== *)

(** A commit as the host's comparison returns it: the message sits in
    the nested [commit] object, the hash is the top-level [sha]. *)
Module Host.

Record Detail : Type := { message : string }.

Record Commit : Type := { commit : Detail; sha : string }.

End Host.

Section Commits.

Local Open Scope core_scope.

(** [compareCommits] of [./github] asks the host; its result is a
    parameter. *)
Variable compareCommits : string -> string -> Core.t (list Host.Commit).

(** [getCommits] (lines 34-43) *)
Definition getCommits (baseRef headRef : string) : Core.t (list Commit) :=
  commits <- compareCommits baseRef headRef ;;
  Core.ret
    (List.map
       (fun commit =>
          {| message := Host.message (Host.commit commit);
             hash := Host.sha commit |})
       (filter
          (fun commit => Js.truthy (Some (Host.message (Host.commit commit))))
          commits)).

End Commits.

(** [getBranchFromRef] (lines 62-64) *)
Definition getBranchFromRef (ref : string) : string :=
  JsText.remove_first "refs/heads/" ref.

(** [isPr] (lines 66-68) *)
Definition isPr (ref : string) : bool := JsText.includes "refs/pull/" ref.

(* ================================================================== *)
(** ** What the specification says of the release rules *)
(* ================================================================== *)

(** The notions below are written from the words of the specification;
    the theorems of Part III compare them with the code. *)
Section RuleSpec.

Variable DEFAULT_RELEASE_TYPES : list string.
Variable defaultsLiteral : list (string * Rule).

(** The colon-separated parts of a custom rule. *)
Definition rule_parts (rule : string) : list string := Js.split ":" rule.

Definition rule_type (rule : string) : string := nth 0 (rule_parts rule) "".

(** A rule is accepted when it has at least two parts and its release is
    in the allowed list. *)
Definition accepted (rule : string) : bool :=
  (2 <=? List.length (rule_parts rule))%nat
  && Js.includes DEFAULT_RELEASE_TYPES (nth_error (rule_parts rule) 1).

(** The section of the default table for a type, looked up by the
    lowercased type. *)
Definition default_section (ty : string) : option string :=
  section_of
    (Obj.lookup (defaultChangelogRules defaultsLiteral) (Js.toLowerCase ty)).

(** The section of a rule: its third part when there is one and it is not
    empty, the default section of its type otherwise. *)
Definition rule_section (rule : string) : option string :=
  match nth_error (rule_parts rule) 2 with
  | Some (String c s) => Some (String c s)
  | Some EmptyString => default_section (rule_type rule)
  | None => default_section (rule_type rule)
  end.

Definition major_variant (rule : string) : Rule :=
  {| type := rule_type rule;
     release := Some "major";
     section := rule_section rule;
     breaking := Some true |}.

Definition literal_variant (rule : string) : Rule :=
  {| type := rule_type rule;
     release := nth_error (rule_parts rule) 1;
     section := rule_section rule;
     breaking := Some false |}.

(** The two rules a custom rule expands to, in the order of emission. *)
Definition variants (rule : string) : list Rule :=
  [major_variant rule; literal_variant rule].

(** The section as the sentence "the explicitly given third part or, when
    absent, the default table's section" reads literally: a third part
    that is present counts as given, whatever it holds. *)
Definition rule_section_as_given (rule : string) : option string :=
  match nth_error (rule_parts rule) 2 with
  | Some s => Some s
  | None => default_section (rule_type rule)
  end.

Definition variants_as_given (rule : string) : list Rule :=
  [ {| type := rule_type rule;
       release := Some "major";
       section := rule_section_as_given rule;
       breaking := Some true |};
    {| type := rule_type rule;
       release := nth_error (rule_parts rule) 1;
       section := rule_section_as_given rule;
       breaking := Some false |} ].

(** The warning that goes with the rejection of a rule. *)
Definition rejection_warning (rule : string) : Diagnostic :=
  if (List.length (rule_parts rule) <? 2)%nat then
    Warning (rule ++ " is not a valid custom release definition.")
  else
    Warning (Js.template (nth_error (rule_parts rule) 1)
               ++ " is not a valid release type.").

Definition is_warning (d : Diagnostic) : bool :=
  match d with
  | Warning _ => true
  | Debug _ => false
  end.

(** Every diagnostic the filter emits for one rule, in order. *)
Definition rule_diagnostics (rule : string) : list Diagnostic :=
  if (List.length (rule_parts rule) <? 2)%nat then
    [Warning (rule ++ " is not a valid custom release definition.")]
  else
    (if negb (String.length rule =? 3)%nat then
       [ Debug (rule ++ " doesn't mention the section for the changelog.");
         Debug
           match Obj.lookup (defaultChangelogRules defaultsLiteral)
                            (Js.toLowerCase (rule_type rule)) with
           | Obj.Own r =>
               "Default section (" ++ Js.template (section r)
                 ++ ") will be used instead."
           | Obj.Inherited =>
               "Default section (undefined) will be used instead."
           | Obj.Undefined =>
               "The commits matching this rule won't be included in the changelog."
           end ]
     else [])
    ++ (if Js.includes DEFAULT_RELEASE_TYPES (nth_error (rule_parts rule) 1)
        then []
        else [Warning (Js.template (nth_error (rule_parts rule) 1)
                         ++ " is not a valid release type.")]).

(** The last rule of a list that names a type (compared as written). *)
Fixpoint last_rule_of_type (ty : string) (rules : list string)
  : option string :=
  match rules with
  | [] => None
  | rule :: rules' =>
      match last_rule_of_type ty rules' with
      | Some later => Some later
      | None => if String.eqb (rule_type rule) ty then Some rule else None
      end
  end.

(** The last rule object of a list whose [type] is [k]: the last writer
    of the key [k]. *)
Fixpoint last_writer (k : string) (rules : list Rule) : option Rule :=
  match rules with
  | [] => None
  | r :: rules' =>
      match last_writer k rules' with
      | Some later => Some later
      | None => if String.eqb (type r) k then Some r else None
      end
  end.

End RuleSpec.

(* ================================================================== *)
(** ** What the specification says of tags and commits *)
(* ================================================================== *)

(** The stable arrangement by insertion, for a comparator that cannot
    throw: the pure counterpart of [Core.sort]. [before x y] says that
    [x] may stand before [y]. *)
Section StableSort.
Variable A : Type.
Variable before : A -> A -> bool.

Fixpoint insert_before (x : A) (sorted : list A) : list A :=
  match sorted with
  | [] => [x]
  | y :: sorted' =>
      if before x y then x :: y :: sorted'
      else y :: insert_before x sorted'
  end.

Fixpoint stable_sort (arr : list A) : list A :=
  match arr with
  | [] => []
  | x :: arr' => insert_before x (stable_sort arr')
  end.

End StableSort.

(** A three-way comparison that is consistent: the comparator a sort
    needs. *)
Record Comparator {A : Type} (cmp : A -> A -> comparison) : Prop := {
  cmp_antisym : forall a b, cmp b a = CompOpp (cmp a b);
  cmp_trans : forall a b c, cmp a b = Lt -> cmp b c = Lt -> cmp a c = Lt;
  cmp_eq_l : forall a b c, cmp a b = Eq -> cmp a c = cmp b c
}.

(** Comparing by a first criterion, then by a second. *)
Definition lex {A : Type} (c1 c2 : A -> A -> comparison) (a b : A)
  : comparison :=
  match c1 a b with
  | Eq => c2 a b
  | c => c
  end.

(** [x] may stand before [y]. *)
Definition goes_before {A : Type} (before : A -> A -> bool) (x y : A) : Prop :=
  before x y = true.

(** The version has no prerelease identifier. *)
Definition no_prerelease (v : Semver.SemVer) : bool :=
  match Semver.pre v with
  | [] => true
  | _ :: _ => false
  end.

(** The version a tag stands for, once its prefix is stripped. *)
Definition version_of (prefixRegex : RegExp.t) (tag : Tag)
  : option Semver.SemVer :=
  Semver.parse (stripped prefixRegex tag).

(** The stripped name of the tag is valid semver. *)
Definition is_valid (prefixRegex : RegExp.t) (tag : Tag) : bool :=
  Js.truthy (Semver.valid (stripped prefixRegex tag)).

(** The stripped name of the tag has a prerelease component. *)
Definition has_prerelease (prefixRegex : RegExp.t) (tag : Tag) : bool :=
  Js.truthy_object (Semver.prerelease (stripped prefixRegex tag)).

(** What [rcompare] answers for the stripped names of two valid tags. *)
Definition tag_order (prefixRegex : RegExp.t) (a b : Tag) : Z :=
  match version_of prefixRegex b, version_of prefixRegex a with
  | Some vb, Some va => Semver.number_of (Semver.compareVersions vb va)
  | _, _ => 0%Z
  end.

(** The first tag may stand before the second in the sorted list. *)
Definition before (prefixRegex : RegExp.t) (a b : Tag) : bool :=
  (tag_order prefixRegex a b <=? 0)%Z.

(** The valid tags of a list, in the order of the sort. *)
Definition sorted_valid (prefixRegex : RegExp.t) (tags : list Tag)
  : list Tag :=
  stable_sort (before prefixRegex) (filter (is_valid prefixRegex) tags).

(** Both tags are versions, and the precedence of the first is not lower
    than that of the second. *)
Definition not_below (prefixRegex : RegExp.t) (a b : Tag) : Prop :=
  exists va vb,
    version_of prefixRegex a = Some va
    /\ version_of prefixRegex b = Some vb
    /\ Semver.compareVersions va vb <> Lt.

(** Both tags are versions, and the precedence of the first is higher
    than that of the second. *)
Definition strictly_above (prefixRegex : RegExp.t) (a b : Tag) : Prop :=
  exists va vb,
    version_of prefixRegex a = Some va
    /\ version_of prefixRegex b = Some vb
    /\ Semver.compareVersions va vb = Gt.

(** The tag [getLatestTag] makes up when no tag qualifies. *)
Definition synthetic_tag (tagPrefix : string) : Tag :=
  {| name := tagPrefix ++ "0.0.0"; commit := {| sha := "HEAD" |} |}.

(** The pattern of [getScopedCommits] for a scope. *)
Definition scope_pattern (scope : string) : string :=
  "^(build|chore|ci|docs|feat|fix|perf|refactor|revert|style|test)\("
    ++ scope ++ "\)\: [\w ]+".

Definition scope_prefix : string :=
  "^(build|chore|ci|docs|feat|fix|perf|refactor|revert|style|test)\(".

Definition scope_suffix : string := "\)\: [\w ]+".

(** The commit types the pattern lists. *)
Definition commit_types : list string :=
  [ "build"; "chore"; "ci"; "docs"; "feat"; "fix"; "perf"; "refactor";
    "revert"; "style"; "test" ].

(** The pattern is a well-formed regular expression: the constructor
    returns an expression for it. *)
Definition well_formed (engine : RegExp.Engine) (pattern : string)
           (global : bool) : Prop :=
  exists re, RegExp.compile engine pattern global = Ok re.

(** The subject holds a match of the pattern: the expression the
    constructor returns for the pattern finds one. *)
Definition pattern_matches (engine : RegExp.Engine) (pattern : string)
           (global : bool) (subject : string) : bool :=
  match RegExp.compile engine pattern global with
  | Ok re => RegExp.test re subject
  | Throw _ => false
  end.

(** A character that stands for itself in a pattern. *)
Definition plain (c : ascii) : bool :=
  negb (existsb (Ascii.eqb c)
          [ "\"; "["; "("; ")"; "|"; "*"; "+"; "?"; "^"; "$"; "."; "{" ]%char).

(** One string lies inside another. *)
Definition substring (inner outer : string) : Prop :=
  exists before after : string, outer = (before ++ inner ++ after)%string.

(** [subject.replace(new RegExp(pattern, flags), '')] for a pattern of
    the modelled fragment. *)
Definition removed (pattern : string) (global : bool) (subject : string)
  : option string :=
  match RegExp.parse pattern with
  | RegExp.Fine n =>
      Some (RegExp.remove
              (RegExp.Modelled {| RegExp.node := n; RegExp.global := global |})
              subject)
  | _ => None
  end.

(** *** Auxiliary notions for reasoning about patterns *)

(** The terms of a sequence, matched one after the other. *)
Fixpoint match_all (terms : list RegExp.Node) : RegExp.Matcher :=
  fun x c =>
    match terms with
    | [] => c x
    | term :: terms' => RegExp.matcher term x (fun y => match_all terms' y c)
    end.

(** What is left of a text after a given beginning. *)
Fixpoint strip_prefix (beginning text : list ascii) : option (list ascii) :=
  match beginning, text with
  | [] , _ => Some text
  | b :: beginning', a :: text' =>
      if Ascii.eqb a b then strip_prefix beginning' text' else None
  | _ :: _, [] => None
  end.

(** The node of a word taken literally, and of a choice among words, in
    the shape the parser gives them. *)
Definition word (w : string) : RegExp.Node :=
  RegExp.build_seq (rev (List.map RegExp.Char (list_ascii_of_string w))).

Fixpoint alternation (words : list string) : RegExp.Node :=
  match words with
  | [] => RegExp.Empty
  | [w] => word w
  | w :: words' => RegExp.Alt (word w) (alternation words')
  end.

(** The one-or-more class [[\w ]+] that ends the scope pattern. *)
Definition subject_start : RegExp.Node :=
  RegExp.Quant 1 None true
    (RegExp.Class false [RegExp.CWord true; RegExp.CChar " "]).

(** The node of the scope pattern for a scope of plain characters. *)
Definition scope_node (scope : list ascii) : RegExp.Node :=
  RegExp.build_seq
    (subject_start :: RegExp.Char " " :: RegExp.Char ":" :: RegExp.Char ")"
       :: rev (List.map RegExp.Char scope)
       ++ [RegExp.Char "("; alternation commit_types; RegExp.Bol]).


(** The second position lies at or after the first in the same text. *)
Definition reaches (x y : RegExp.Pos) : Prop :=
  exists consumed,
    RegExp.rest x = consumed ++ RegExp.rest y
    /\ RegExp.index y = RegExp.index x + List.length consumed.

(** A match starts at the position. *)
Definition matches_at (n : RegExp.Node) (i : nat) (s : list ascii) : bool :=
  Js.truthy_object
    (RegExp.matcher n {| RegExp.index := i; RegExp.rest := s |}
                    (fun y => Some y)).

(* ================================================================== *)
(** ** Further notions for the properties of Part III *)
(* ================================================================== *)

(** The tag stands for a version that has the precedence of [v]. *)
Definition same_precedence (prefixRegex : RegExp.t) (v : Semver.SemVer)
           (tag : Tag) : bool :=
  match version_of prefixRegex tag with
  | Some vt =>
      match Semver.compareVersions vt v with
      | Eq => true
      | _ => false
      end
  | None => false
  end.

(** The commit [getCommits] makes of a commit of the host. *)
Definition commit_of (c : Host.Commit) : Commit :=
  {| message := Host.message (Host.commit c); hash := Host.sha c |}.

(** The test of one commit against one scope in [getScopedCommits]: the
    callback of [some]. *)
Definition scope_test (engine : RegExp.Engine) (commit : Commit)
           (scope : string) : Core.t bool :=
  Core.bind (RegExp.create engine (scope_pattern scope) true)
            (fun re => Core.ret (RegExp.test re (message commit))).

(** The first key is enumerated before the second: array indices come
    first, in ascending order; the other keys follow. *)
Definition enum_before (k1 k2 : string) : Prop :=
  match Obj.array_index k1, Obj.array_index k2 with
  | Some n1, Some n2 => (n1 < n2)%N
  | Some _, None => True
  | None, Some _ => False
  | None, None => True
  end.

(** An object as the run-time keeps it: no key twice, and the keys in
    the order of enumeration. *)
Definition canonical {V : Type} (o : Obj.t V) : Prop :=
  NoDup (Obj.keys o) /\ StronglySorted enum_before (Obj.keys o).

(** The keys of a list that are not among [seen], each once, in the
    order of their first appearance. *)
Fixpoint new_keys (seen ks : list string) : list string :=
  match ks with
  | [] => []
  | k :: ks' =>
      if existsb (String.eqb k) seen then new_keys seen ks'
      else k :: new_keys (seen ++ [k]) ks'
  end.

(** The rule is not a breaking variant. *)
Definition not_breaking (r : Rule) : bool :=
  match breaking r with
  | Some true => false
  | _ => true
  end.

(* ================================================================== *)
(** ** A sample configuration *)
(* ================================================================== *)

Module Sample.

(** Modelled from the spec: the release-type vocabulary
    [DEFAULT_RELEASE_TYPES] is imported from a package and is not in the
    sources; the specification describes it as "major/minor/patch/and
    pre-release variants". *)
Definition DEFAULT_RELEASE_TYPES : list string :=
  [ "major"; "premajor"; "minor"; "preminor"; "patch"; "prepatch";
    "prerelease" ].

(** Modelled from the spec: [./defaults] is not in the sources; the
    specification describes [defaultChangelogRules] as a "static mapping
    from lowercase commit type to {type, release, section}". The entries
    below only illustrate that shape; the general statements quantify
    over every table. *)
Definition defaultsLiteral : list (string * Rule) :=
  [ ("feat",  {| type := "feat";  release := Some "minor";
                 section := Some "Features"; breaking := None |});
    ("fix",   {| type := "fix";   release := Some "patch";
                 section := Some "Bug Fixes"; breaking := None |});
    ("docs",  {| type := "docs";  release := None;
                 section := Some "Documentation"; breaking := None |});
    ("chore", {| type := "chore"; release := None;
                 section := None; breaking := None |}) ].

(** The prefix pattern [/^v/], as [new RegExp("^v")] compiles it. *)
Definition prefixRegex : RegExp.t :=
  RegExp.Modelled
    {| RegExp.node :=
         RegExp.Seq RegExp.Bol (RegExp.Seq (RegExp.Char "v") RegExp.Empty);
       RegExp.global := false |}.

Definition tag (n : string) : Tag :=
  {| name := n; commit := {| sha := "sha-of-" ++ n |} |}.

End Sample.

(* ################################################################## *)
(** * Part II: supporting lemmas *)
(* ################################################################## *)

(* ================================================================== *)
(** ** Strings *)
(* ================================================================== *)

Module JsFacts.

Lemma split_not_nil sep s : Js.split sep s <> [].
Proof.
  destruct s as [|c s]; simpl; [discriminate|].
  destruct (Ascii.eqb c sep); [discriminate|].
  destruct (Js.split sep s); discriminate.
Qed.

Lemma split_head sep s :
  nth_error (Js.split sep s) 0 = Some (nth 0 (Js.split sep s) "").
Proof.
  pose proof (split_not_nil sep s) as H.
  destruct (Js.split sep s); [congruence | reflexivity].
Qed.

End JsFacts.

(* ================================================================== *)
(** ** Objects *)
(* ================================================================== *)

Module ObjFacts.

Import Obj.

Section Facts.
Variable V : Type.
Implicit Types (o : Obj.t V) (k : string) (v : V).

Lemma get_None_keys k o : get k o = None <-> ~ In k (keys o).
Proof.
  induction o as [|[k' v'] o IH]; simpl.
  - tauto.
  - destruct (String.eqb_spec k k') as [->|Hne].
    + split; [discriminate | intros H; exfalso; apply H; now left].
    + rewrite IH. split; intros H; [intros [E|I]; [congruence|tauto] | tauto].
Qed.

Lemma get_replace k k' v o :
  get k (replace k' v o) =
  match get k' o with
  | Some _ => if String.eqb k k' then Some v else get k o
  | None => get k o
  end.
Proof.
  induction o as [|[k0 v0] o IH]; simpl; [reflexivity|].
  destruct (String.eqb_spec k' k0) as [->|Hne]; simpl.
  - destruct (String.eqb_spec k k0); reflexivity.
  - rewrite IH. destruct (String.eqb_spec k k0) as [->|Hne'].
    + destruct (get k' o); [|reflexivity].
      destruct (String.eqb_spec k0 k'); [congruence | reflexivity].
    + reflexivity.
Qed.

Lemma get_insert_index n k k' v o :
  get k' o = None ->
  get k (insert_index n k' v o) =
  if String.eqb k k' then Some v else get k o.
Proof.
  induction o as [|[k0 v0] o IH]; simpl; intros Hnone.
  - reflexivity.
  - destruct (String.eqb_spec k' k0) as [->|Hne]; [discriminate|].
    destruct (array_index k0) as [n0|]; simpl; [|reflexivity].
    destruct (n0 <? n)%N; simpl; [|reflexivity].
    rewrite (IH Hnone).
    destruct (String.eqb_spec k k0) as [->|]; [|reflexivity].
    destruct (String.eqb_spec k0 k'); [congruence | reflexivity].
Qed.

Lemma get_app_last k k' v o :
  get k' o = None ->
  get k (o ++ [(k', v)]) = if String.eqb k k' then Some v else get k o.
Proof.
  induction o as [|[k0 v0] o IH]; simpl; intros Hnone.
  - reflexivity.
  - destruct (String.eqb_spec k' k0) as [->|Hne]; [discriminate|].
    rewrite (IH Hnone).
    destruct (String.eqb_spec k k0) as [->|]; [|reflexivity].
    destruct (String.eqb_spec k0 k'); [congruence | reflexivity].
Qed.

(** Reading after writing. *)
Lemma get_set k k' v o :
  get k (set k' v o) = if String.eqb k k' then Some v else get k o.
Proof.
  unfold set. destruct (get k' o) eqn:E.
  - rewrite get_replace, E. reflexivity.
  - destruct (array_index k').
    + now apply get_insert_index.
    + now apply get_app_last.
Qed.

Lemma keys_replace k v o : keys (replace k v o) = keys o.
Proof.
  induction o as [|[k0 v0] o IH]; simpl; [reflexivity|].
  destruct (String.eqb k k0); simpl; [reflexivity | now rewrite IH].
Qed.

Lemma keys_insert_index n k v o :
  Permutation (keys (insert_index n k v o)) (k :: keys o).
Proof.
  induction o as [|[k0 v0] o IH]; simpl; [reflexivity|].
  destruct (array_index k0) as [n0|]; simpl; [|reflexivity].
  destruct (n0 <? n)%N; simpl; [|reflexivity].
  rewrite IH. apply perm_swap.
Qed.

Lemma keys_set k v o :
  Permutation (keys (set k v o))
              (match get k o with Some _ => keys o | None => k :: keys o end).
Proof.
  unfold set. destruct (get k o) eqn:E.
  - now rewrite keys_replace.
  - destruct (array_index k).
    + apply keys_insert_index.
    + unfold keys. rewrite map_app. simpl.
      symmetry. apply Permutation_cons_append.
Qed.

(** An object never holds a key twice. *)
Lemma NoDup_keys_set k v o : NoDup (keys o) -> NoDup (keys (set k v o)).
Proof.
  intros Hnd. pose proof (keys_set k v o) as P.
  destruct (get k o) eqn:E.
  - eapply Permutation_NoDup; [symmetry; exact P | exact Hnd].
  - eapply Permutation_NoDup; [symmetry; exact P |].
    constructor; [now apply get_None_keys | exact Hnd].
Qed.

Lemma NoDup_keys_spread (src target : Obj.t V) :
  NoDup (keys target) -> NoDup (keys (spread src target)).
Proof.
  unfold spread. revert target.
  induction src as [|[k v] src IH]; simpl; intros target Hnd; [exact Hnd|].
  apply IH. now apply NoDup_keys_set.
Qed.

Lemma NoDup_keys_literal (props : list (string * V)) :
  NoDup (keys (literal props)).
Proof. apply NoDup_keys_spread. constructor. Qed.

Lemma get_spread_fresh k (src target : Obj.t V) :
  NoDup (keys src) ->
  (forall k', In k' (keys src) -> get k' target = None) ->
  get k (spread src target) =
  match get k src with Some v => Some v | None => get k target end.
Proof.
  unfold spread. revert target.
  induction src as [|[k0 v0] src IH]; simpl; intros target Hnd Hfresh.
  - reflexivity.
  - inversion Hnd as [|? ? Hnotin Hnd']; subst.
    rewrite IH; [| exact Hnd' |].
    + rewrite get_set.
      destruct (String.eqb_spec k k0) as [->|Hne].
      * apply get_None_keys in Hnotin. now rewrite Hnotin.
      * reflexivity.
    + intros k' Hin. rewrite get_set.
      destruct (String.eqb_spec k' k0) as [->|Hne]; [contradiction|].
      apply Hfresh. now right.
Qed.

(** A copy of an object holds the bindings of the object. *)
Lemma get_spread_empty k o :
  NoDup (keys o) -> get k (spread o []) = get k o.
Proof.
  intros Hnd. rewrite get_spread_fresh; auto.
  destruct (get k o); reflexivity.
Qed.

Lemma In_get_Some k v o : get k o = Some v -> In (k, v) o.
Proof.
  induction o as [|[k0 v0] o IH]; simpl; [discriminate|].
  destruct (String.eqb_spec k k0) as [->|Hne].
  - intros [= ->]. now left.
  - intros H. right. now apply IH.
Qed.

Lemma get_Some_In k v o : NoDup (keys o) -> In (k, v) o -> get k o = Some v.
Proof.
  induction o as [|[k0 v0] o IH]; simpl; [tauto|].
  intros Hnd [E|Hin]; inversion Hnd as [|? ? Hnotin Hnd']; subst.
  - inversion E; subst. now rewrite String.eqb_refl.
  - destruct (String.eqb_spec k k0) as [->|Hne].
    + exfalso. apply Hnotin. change (In (fst (k0, v)) (List.map fst o)).
      now apply in_map.
    + now apply IH.
Qed.

(** The values of an object are what its keys are bound to. *)
Lemma In_values v o :
  NoDup (keys o) -> (In v (values o) <-> exists k, get k o = Some v).
Proof.
  intros Hnd. unfold values. rewrite in_map_iff. split.
  - intros [[k v'] [E Hin]]. simpl in E. subst v'.
    exists k. now apply get_Some_In.
  - intros [k Hget]. exists (k, v). split; [reflexivity|].
    now apply In_get_Some.
Qed.

End Facts.

End ObjFacts.

(* ================================================================== *)
(** ** Running array callbacks *)
(* ================================================================== *)

Module CoreFacts.

Section Run.
Variable A B : Type.

(** A callback that never throws and whose diagnostics depend on its
    argument alone: [filter] keeps what it accepts and emits the
    diagnostics of every element, in order. *)
Lemma filter_run (f : A -> Core.t bool) (p : A -> bool)
      (d : A -> list Diagnostic) :
  (forall x log, f x log = (Ok (p x), log ++ d x)) ->
  forall arr log,
    Core.filter f arr log = (Ok (filter p arr), log ++ flat_map d arr).
Proof.
  intros Hf arr. induction arr as [|x arr IH]; intros log; simpl.
  - unfold Core.ret. now rewrite app_nil_r.
  - unfold Core.bind. rewrite Hf, IH. unfold Core.ret.
    rewrite <- app_assoc. now destruct (p x).
Qed.

(** A callback that neither throws nor logs: [map] is the pure map. *)
Lemma map_run (f : A -> Core.t B) (g : A -> B) :
  (forall x log, f x log = (Ok (g x), log)) ->
  forall arr log, Core.map f arr log = (Ok (List.map g arr), log).
Proof.
  intros Hf arr. induction arr as [|x arr IH]; intros log; simpl.
  - reflexivity.
  - unfold Core.bind. rewrite Hf, IH. reflexivity.
Qed.

End Run.

End CoreFacts.

(* ================================================================== *)
(** ** The release-rule functions *)
(* ================================================================== *)

Section RuleFacts.

Variable DEFAULT_RELEASE_TYPES : list string.
Variable defaultsLiteral : list (string * Rule).

(** The filter callback decides acceptance and never throws. *)
Lemma filter_callback_run rule log :
  mapCustomReleaseRules_filter DEFAULT_RELEASE_TYPES defaultsLiteral rule log
  = (Ok (accepted DEFAULT_RELEASE_TYPES rule),
     log ++ rule_diagnostics DEFAULT_RELEASE_TYPES defaultsLiteral rule).
Proof.
  unfold mapCustomReleaseRules_filter, accepted,
    rule_diagnostics, rule_type, rule_parts, releaseTypeSeparator.
  set (parts := Js.split ":" rule).
  rewrite (Nat.leb_antisym (List.length parts) 2).
  pose proof (JsFacts.split_head ":" rule) as Hhd. fold parts in Hhd.
  destruct (List.length parts <? 2)%nat eqn:Hlen.
  - reflexivity.
  - rewrite Hhd.
    unfold toLowerCase, Core.bind, Core.ret, Core.debug, Core.warning.
    cbn [negb andb].
    destruct (negb (String.length rule =? 3)%nat);
      destruct (Js.includes DEFAULT_RELEASE_TYPES (nth_error parts 1));
      cbn [negb]; rewrite <- ?app_assoc, ?app_nil_r; try reflexivity.
Qed.

Lemma or_else_rule_section rule :
  Js.or_else (nth_error (rule_parts rule) 2)
             (default_section defaultsLiteral (rule_type rule))
  = rule_section defaultsLiteral rule.
Proof.
  unfold rule_section, Js.or_else.
  destruct (nth_error (rule_parts rule) 2) as [[|c s]|]; reflexivity.
Qed.

(** The map callback builds the two variants; it neither throws nor
    logs. *)
Lemma map_callback_run rule log :
  mapCustomReleaseRules_map defaultsLiteral rule log
  = (Ok (variants defaultsLiteral rule), log).
Proof.
  unfold mapCustomReleaseRules_map, releaseTypeSeparator.
  pose proof (JsFacts.split_head ":" rule) as Hhd. rewrite Hhd.
  unfold toLowerCase, Core.bind, Core.ret.
  pose proof (or_else_rule_section rule) as Hsec.
  unfold default_section, rule_type, rule_parts in Hsec. rewrite Hsec.
  reflexivity.
Qed.

(** [mapCustomReleaseRules] in closed form. *)
Lemma mapCustomReleaseRules_run s log :
  mapCustomReleaseRules DEFAULT_RELEASE_TYPES defaultsLiteral s log
  = (Ok (flat_map (variants defaultsLiteral)
             (filter (accepted DEFAULT_RELEASE_TYPES) (Js.split "," s))),
     log ++ flat_map (rule_diagnostics DEFAULT_RELEASE_TYPES defaultsLiteral)
              (Js.split "," s)).
Proof.
  unfold mapCustomReleaseRules, releaseRuleSeparator, Core.bind.
  rewrite (CoreFacts.filter_run _ (accepted DEFAULT_RELEASE_TYPES)
             (rule_diagnostics DEFAULT_RELEASE_TYPES defaultsLiteral)
             filter_callback_run).
  rewrite (CoreFacts.map_run _ (variants defaultsLiteral) map_callback_run).
  unfold Core.ret. now rewrite <- flat_map_concat_map.
Qed.

(** *** The merged table *)

Lemma last_writer_app k (l1 l2 : list Rule) :
  last_writer k (l1 ++ l2) =
  match last_writer k l2 with
  | Some r => Some r
  | None => last_writer k l1
  end.
Proof.
  induction l1 as [|r l1 IH]; simpl.
  - now destruct (last_writer k l2).
  - rewrite IH. now destruct (last_writer k l2).
Qed.

Lemma merge_fold (rules : list Rule) : forall acc : Obj.t Rule,
  NoDup (Obj.keys acc) ->
  let table :=
    fold_left (fun acc curr => Obj.set (type curr) curr (Obj.spread acc []))
              rules acc in
  NoDup (Obj.keys table)
  /\ forall k, Obj.get k table =
               match last_writer k rules with
               | Some r => Some r
               | None => Obj.get k acc
               end.
Proof.
  induction rules as [|r rules IH]; intros acc Hnd; simpl.
  - split; [exact Hnd | reflexivity].
  - assert (Hnd' : NoDup (Obj.keys (Obj.set (type r) r (Obj.spread acc [])))).
    { apply ObjFacts.NoDup_keys_set, ObjFacts.NoDup_keys_spread. constructor. }
    destruct (IH _ Hnd') as [Hkeys Hget]. split; [exact Hkeys|].
    intros k. rewrite Hget.
    destruct (last_writer k rules); [reflexivity|].
    rewrite ObjFacts.get_set, ObjFacts.get_spread_empty by exact Hnd.
    rewrite String.eqb_sym. now destruct (String.eqb (type r) k).
Qed.

Lemma NoDup_defaultChangelogRules :
  NoDup (Obj.keys (defaultChangelogRules defaultsLiteral)).
Proof. apply ObjFacts.NoDup_keys_literal. Qed.

Lemma NoDup_mergedRules rules :
  NoDup (Obj.keys (mergedRules defaultsLiteral rules)).
Proof.
  unfold mergedRules. apply merge_fold.
  apply ObjFacts.NoDup_keys_spread. constructor.
Qed.

(** Last writer wins, and a key no rule writes keeps its default. *)
Lemma get_mergedRules k rules :
  Obj.get k (mergedRules defaultsLiteral rules) =
  match last_writer k rules with
  | Some r => Some r
  | None => Obj.get k (defaultChangelogRules defaultsLiteral)
  end.
Proof.
  unfold mergedRules.
  destruct (@merge_fold rules
              (Obj.spread (defaultChangelogRules defaultsLiteral) []))
    as [_ Hget].
  { apply ObjFacts.NoDup_keys_spread. constructor. }
  rewrite Hget.
  now rewrite ObjFacts.get_spread_empty by apply NoDup_defaultChangelogRules.
Qed.

(** The output is the table's entries with a truthy section. *)
Lemma In_mergeWithDefaultChangelogRules r rules :
  In r (mergeWithDefaultChangelogRules defaultsLiteral rules) <->
  (exists k, Obj.get k (mergedRules defaultsLiteral rules) = Some r)
  /\ Js.truthy (section r) = true.
Proof.
  unfold mergeWithDefaultChangelogRules. rewrite filter_In.
  now rewrite (@ObjFacts.In_values _ r _ (NoDup_mergedRules rules)).
Qed.

(** Of the rules a list of custom rules expands to, the last writer of a
    type is the literal variant of the last custom rule of that type. *)
Lemma last_writer_variants k rules :
  last_writer k (flat_map (variants defaultsLiteral) rules) =
  option_map (literal_variant defaultsLiteral) (last_rule_of_type k rules).
Proof.
  induction rules as [|rule rules IH]; simpl; [reflexivity|].
  rewrite IH.
  destruct (last_rule_of_type k rules); simpl; [reflexivity|].
  destruct (String.eqb (rule_type rule) k); reflexivity.
Qed.

Lemma last_rule_of_type_In ty rules rule :
  last_rule_of_type ty rules = Some rule ->
  In rule rules /\ rule_type rule = ty.
Proof.
  induction rules as [|r rules IH]; simpl; [discriminate|].
  destruct (last_rule_of_type ty rules) as [later|].
  - intros [= <-]. destruct (IH eq_refl) as [Hin Hty]. auto.
  - destruct (String.eqb_spec (rule_type r) ty) as [E|]; [|discriminate].
    intros [= <-]. auto.
Qed.

End RuleFacts.

Section RuleFacts2.

Variable DEFAULT_RELEASE_TYPES : list string.
Variable defaultsLiteral : list (string * Rule).

Lemma last_rule_of_type_exists rules rule :
  In rule rules ->
  exists last, last_rule_of_type (rule_type rule) rules = Some last.
Proof.
  induction rules as [|r rules IH]; simpl; [tauto|].
  intros [->|Hin].
  - destruct (last_rule_of_type (rule_type rule) rules); eauto.
    rewrite String.eqb_refl. eauto.
  - destruct (IH Hin) as [last ->]. eauto.
Qed.

(** An accepted rule has a type and a release of the allowed list. *)
Lemma accepted_parts rule :
  accepted DEFAULT_RELEASE_TYPES rule = true ->
  exists rel,
    nth_error (rule_parts rule) 0 = Some (rule_type rule)
    /\ nth_error (rule_parts rule) 1 = Some rel
    /\ In rel DEFAULT_RELEASE_TYPES.
Proof.
  unfold accepted. intros H. apply andb_prop in H as [_ Hinc].
  destruct (nth_error (rule_parts rule) 1) as [rel|] eqn:E; [|discriminate].
  exists rel. split; [apply JsFacts.split_head|]. split; [reflexivity|].
  simpl in Hinc. apply existsb_exists in Hinc as [x [Hin Heq]].
  apply String.eqb_eq in Heq. now subst x.
Qed.

(** A rule is rejected exactly when it has fewer than two parts or a
    release outside the allowed list. *)
Lemma rejected_iff rule :
  accepted DEFAULT_RELEASE_TYPES rule = false <->
  (List.length (rule_parts rule) < 2
   \/ Js.includes DEFAULT_RELEASE_TYPES (nth_error (rule_parts rule) 1) = false).
Proof.
  unfold accepted. rewrite andb_false_iff, Nat.leb_gt. tauto.
Qed.

(** The filter warns once for a rejected rule and not at all for an
    accepted one. *)
Lemma warnings_of_rule rule :
  filter is_warning
         (rule_diagnostics DEFAULT_RELEASE_TYPES defaultsLiteral rule)
  = if accepted DEFAULT_RELEASE_TYPES rule then []
    else [rejection_warning rule].
Proof.
  unfold rule_diagnostics, rejection_warning, accepted.
  rewrite (Nat.leb_antisym (List.length (rule_parts rule)) 2).
  destruct (List.length (rule_parts rule) <? 2)%nat; [reflexivity|].
  rewrite filter_app.
  destruct (negb (String.length rule =? 3)%nat);
    destruct (Js.includes DEFAULT_RELEASE_TYPES
                          (nth_error (rule_parts rule) 1)); reflexivity.
Qed.

Lemma warnings_of_rules rules :
  filter is_warning
         (flat_map (rule_diagnostics DEFAULT_RELEASE_TYPES defaultsLiteral)
                   rules)
  = List.map rejection_warning
             (filter (fun rule => negb (accepted DEFAULT_RELEASE_TYPES rule))
                     rules).
Proof.
  induction rules as [|rule rules IH]; simpl; [reflexivity|].
  rewrite filter_app, IH, warnings_of_rule.
  now destruct (accepted DEFAULT_RELEASE_TYPES rule).
Qed.

End RuleFacts2.
(* ================================================================== *)
(** ** Comparators and the stable sort *)
(* ================================================================== *)

Module OrderFacts.

Section Derived.
Variable A : Type.
Variable cmp : A -> A -> comparison.
Hypothesis Hcmp : Comparator cmp.

Lemma cmp_eq_r a b c : cmp b c = Eq -> cmp a b = cmp a c.
Proof.
  intros H. rewrite (cmp_antisym Hcmp b a), (cmp_antisym Hcmp c a).
  f_equal. now apply (cmp_eq_l Hcmp).
Qed.

Lemma cmp_refl a : cmp a a = Eq.
Proof.
  pose proof (cmp_antisym Hcmp a a) as H.
  destruct (cmp a a); [reflexivity | discriminate | discriminate].
Qed.

(** "Not lower than" is transitive. *)
Lemma not_lt_trans a b c : cmp a b <> Lt -> cmp b c <> Lt -> cmp a c <> Lt.
Proof.
  intros Hab Hbc Hac.
  destruct (cmp a b) eqn:Eab; [| congruence |].
  - rewrite (cmp_eq_l Hcmp _ _ c Eab) in Hac. congruence.
  - destruct (cmp b c) eqn:Ebc; [| congruence |].
    + rewrite <- (@cmp_eq_r a _ _ Ebc) in Hac. congruence.
    + assert (Hca : cmp c a = Gt).
      { rewrite (cmp_antisym Hcmp), Hac. reflexivity. }
      assert (Hba : cmp b a = Lt).
      { rewrite (cmp_antisym Hcmp), Eab. reflexivity. }
      assert (Hcb : cmp c b = Lt).
      { rewrite (cmp_antisym Hcmp), Ebc. reflexivity. }
      rewrite (cmp_trans Hcmp _ _ _ Hcb Hba) in Hca. discriminate.
Qed.

End Derived.

(** Comparing through a projection. *)
Lemma on_comparator {A B : Type} (f : A -> B) (cmp : B -> B -> comparison) :
  Comparator cmp -> Comparator (fun a b => cmp (f a) (f b)).
Proof.
  intros H. split; intros.
  - apply (cmp_antisym H).
  - eapply (cmp_trans H); eauto.
  - now apply (cmp_eq_l H).
Qed.

(** Comparing by a first criterion, then by a second. *)
Lemma lex_comparator {A : Type} (c1 c2 : A -> A -> comparison) :
  Comparator c1 -> Comparator c2 -> Comparator (lex c1 c2).
Proof.
  intros H1 H2. unfold lex. split.
  - intros a b. rewrite (cmp_antisym H1 a b).
    destruct (c1 a b); simpl; auto. apply (cmp_antisym H2).
  - intros a b c.
    destruct (c1 a b) eqn:Eab; try discriminate;
      destruct (c1 b c) eqn:Ebc; try discriminate; intros Hab Hbc.
    + rewrite (cmp_eq_l H1 _ _ c Eab), Ebc. eapply (cmp_trans H2); eauto.
    + now rewrite (cmp_eq_l H1 _ _ c Eab), Ebc.
    + now rewrite <- (@cmp_eq_r _ _ H1 a _ _ Ebc), Eab.
    + now rewrite (cmp_trans H1 _ _ _ Eab Ebc).
  - intros a b c.
    destruct (c1 a b) eqn:Eab; try discriminate. intros Hab.
    rewrite (cmp_eq_l H1 _ _ c Eab).
    destruct (c1 b c); auto. now apply (cmp_eq_l H2).
Qed.

Lemma N_comparator : Comparator N.compare.
Proof.
  split.
  - intros a b. apply N.compare_antisym.
  - intros a b c. rewrite !N.compare_lt_iff. apply N.lt_trans.
  - intros a b c H. apply N.compare_eq_iff in H. now subst.
Qed.

Lemma ascii_comparator : Comparator Ascii.compare.
Proof. exact (on_comparator N_of_ascii N_comparator). Qed.

Lemma string_comparator : Comparator String.compare.
Proof.
  pose proof ascii_comparator as HA. split.
  - intros a b. apply String.compare_antisym.
  - intros a. induction a as [|x a IH]; intros [|y b] [|z c]; simpl;
      try discriminate; auto.
    destruct (Ascii.compare x y) eqn:Exy; try discriminate;
      destruct (Ascii.compare y z) eqn:Eyz; try discriminate; intros Hab Hbc.
    + rewrite (cmp_eq_l HA _ _ z Exy), Eyz. eapply IH; eauto.
    + now rewrite (cmp_eq_l HA _ _ z Exy), Eyz.
    + now rewrite <- (@cmp_eq_r _ _ HA x _ _ Eyz), Exy.
    + now rewrite (cmp_trans HA _ _ _ Exy Eyz).
  - intros a b c H. apply String.compare_eq_iff in H. now subst.
Qed.

Lemma bool_comparator : Comparator Bool.compare.
Proof.
  split.
  - intros [] []; reflexivity.
  - intros [] [] []; simpl; congruence.
  - intros [] [] []; simpl; congruence.
Qed.

(** *** The stable sort *)

Section Sort.
Variable A : Type.
Variable before : A -> A -> bool.

Lemma insert_before_perm x l :
  Permutation (insert_before before x l) (x :: l).
Proof.
  induction l as [|y l IH]; simpl; [reflexivity|].
  destruct (before x y); [reflexivity|].
  rewrite IH. apply perm_swap.
Qed.

(** Sorting rearranges. *)
Lemma stable_sort_perm l : Permutation (stable_sort before l) l.
Proof.
  induction l as [|x l IH]; simpl; [reflexivity|].
  rewrite insert_before_perm. now constructor.
Qed.

Lemma stable_sort_In x l : In x (stable_sort before l) <-> In x l.
Proof.
  split; apply Permutation_in;
    [apply stable_sort_perm | symmetry; apply stable_sort_perm].
Qed.

Lemma insert_before_sorted (P : A -> Prop) x l :
  (forall a b, P a -> P b -> before a b = false -> before b a = true) ->
  P x -> Forall P l ->
  Sorted (goes_before before) l ->
  Sorted (goes_before before) (insert_before before x l).
Proof.
  intros Htotal Px. induction l as [|y l IH]; simpl; intros HP Hs.
  - repeat constructor.
  - inversion HP as [|? ? Py HPl]; subst.
    destruct (before x y) eqn:E.
    + constructor; [exact Hs | constructor; exact E].
    + apply Sorted_inv in Hs as [Hs Hhd]. constructor; [now apply IH|].
      destruct l as [|z l]; simpl.
      * constructor. now apply (Htotal x y).
      * destruct (before x z).
        -- constructor. now apply (Htotal x y).
        -- inversion Hhd; subst. now constructor.
Qed.

(** The result is sorted when any two elements compare one way or the
    other. *)
Lemma stable_sort_sorted (P : A -> Prop) l :
  (forall a b, P a -> P b -> before a b = false -> before b a = true) ->
  Forall P l -> Sorted (goes_before before) (stable_sort before l).
Proof.
  intros Htotal. induction l as [|x l IH]; simpl; intros HP.
  - constructor.
  - inversion HP as [|? ? Px HPl]; subst.
    apply insert_before_sorted with (P := P).
    + exact Htotal.
    + exact Px.
    + apply Forall_forall. intros y Hy.
      apply (proj1 (stable_sort_In y l)) in Hy.
      rewrite Forall_forall in HPl. exact (HPl y Hy).
    + now apply IH.
Qed.

(** Sorting a sorted list changes nothing. *)
Lemma stable_sort_of_sorted l :
  Sorted (goes_before before) l -> stable_sort before l = l.
Proof.
  induction 1 as [|x l Hs IH Hhd]; simpl; [reflexivity|].
  rewrite IH. destruct Hhd as [|y l' Hxy]; simpl; [reflexivity|].
  unfold goes_before in Hxy. now rewrite Hxy.
Qed.

End Sort.

(** [Core.sort] with a comparator that answers without throwing or
    logging on the elements at hand is the stable sort. *)
Lemma insert_run {A : Type} (cmp : A -> A -> Core.t Z) (c : A -> A -> Z)
      (P : A -> Prop) x l log :
  (forall a b, P a -> P b -> forall log, cmp a b log = (Ok (c a b), log)) ->
  P x -> Forall P l ->
  Core.insert cmp x l log
  = (Ok (insert_before (fun a b => (c a b <=? 0)%Z) x l), log).
Proof.
  intros Hcmp Px. induction l as [|y l IH]; simpl; intros HP.
  - reflexivity.
  - inversion HP; subst. unfold Core.bind. rewrite Hcmp by assumption.
    destruct (c x y <=? 0)%Z; [reflexivity|].
    rewrite IH by assumption. reflexivity.
Qed.

Lemma sort_run {A : Type} (cmp : A -> A -> Core.t Z) (c : A -> A -> Z)
      (P : A -> Prop) l log :
  (forall a b, P a -> P b -> forall log, cmp a b log = (Ok (c a b), log)) ->
  Forall P l ->
  Core.sort cmp l log
  = (Ok (stable_sort (fun a b => (c a b <=? 0)%Z) l), log).
Proof.
  intros Hcmp. induction l as [|x l IH]; simpl; intros HP.
  - reflexivity.
  - inversion HP as [|? ? Px HPl]; subst.
    unfold Core.bind. rewrite IH by assumption.
    apply insert_run with (P := P).
    + exact Hcmp.
    + exact Px.
    + apply Forall_forall. intros y Hy.
      apply (proj1 (stable_sort_In _ y l)) in Hy.
      rewrite Forall_forall in HPl. exact (HPl y Hy).
Qed.

End OrderFacts.

(* ================================================================== *)
(** ** Precedence of versions *)
(* ================================================================== *)

Module SemverFacts.

Import OrderFacts.

Lemma identifier_eq a b : Semver.compareIdentifiers a b = Eq -> a = b.
Proof.
  destruct a as [x|x], b as [y|y]; simpl; try discriminate; intros H.
  - apply N.compare_eq_iff in H. now subst.
  - apply String.compare_eq_iff in H. now subst.
Qed.

Lemma identifier_comparator : Comparator Semver.compareIdentifiers.
Proof.
  split.
  - intros [x|x] [y|y]; simpl; auto.
    + apply N.compare_antisym.
    + apply String.compare_antisym.
  - intros [x|x] [y|y] [z|z]; simpl; try discriminate; auto.
    + apply (cmp_trans N_comparator).
    + apply (cmp_trans string_comparator).
  - intros a b c H. apply identifier_eq in H. now subst.
Qed.

Lemma identifier_list_eq a :
  forall b, Semver.compareIdentifierLists a b = Eq -> a = b.
Proof.
  induction a as [|x a IH]; intros [|y b]; simpl; try discriminate; auto.
  destruct (Semver.compareIdentifiers x y) eqn:E; try discriminate.
  intros H. apply identifier_eq in E. apply IH in H. now subst.
Qed.

Lemma identifier_list_comparator :
  Comparator Semver.compareIdentifierLists.
Proof.
  pose proof identifier_comparator as HI. split.
  - intros a. induction a as [|x a IH]; intros [|y b]; simpl; auto.
    rewrite (cmp_antisym HI x y).
    destruct (Semver.compareIdentifiers x y); simpl; auto.
  - intros a. induction a as [|x a IH]; intros [|y b] [|z c]; simpl;
      try discriminate; auto.
    destruct (Semver.compareIdentifiers x y) eqn:Exy; try discriminate;
      destruct (Semver.compareIdentifiers y z) eqn:Eyz; try discriminate;
      intros Hab Hbc.
    + rewrite (cmp_eq_l HI _ _ z Exy), Eyz. eapply IH; eauto.
    + now rewrite (cmp_eq_l HI _ _ z Exy), Eyz.
    + now rewrite <- (@cmp_eq_r _ _ HI x _ _ Eyz), Exy.
    + now rewrite (cmp_trans HI _ _ _ Exy Eyz).
  - intros a b c H. apply identifier_list_eq in H. now subst.
Qed.

Lemma compareMain_lex a b :
  Semver.compareMain a b
  = lex (fun a b => N.compare (Semver.major a) (Semver.major b))
      (lex (fun a b => N.compare (Semver.minor a) (Semver.minor b))
           (fun a b => N.compare (Semver.patch a) (Semver.patch b))) a b.
Proof. reflexivity. Qed.

Lemma comparePre_lex a b :
  Semver.comparePre a b
  = lex (fun a b => Bool.compare (no_prerelease a) (no_prerelease b))
        (fun a b => Semver.compareIdentifierLists (Semver.pre a) (Semver.pre b))
        a b.
Proof.
  unfold Semver.comparePre, lex, no_prerelease.
  destruct (Semver.pre a), (Semver.pre b); reflexivity.
Qed.

Lemma compareVersions_lex a b :
  Semver.compareVersions a b
  = lex Semver.compareMain Semver.comparePre a b.
Proof. reflexivity. Qed.

Lemma comparator_ext {A : Type} (c1 c2 : A -> A -> comparison) :
  (forall a b, c1 a b = c2 a b) -> Comparator c2 -> Comparator c1.
Proof.
  intros E H. split; intros; rewrite ?E in *.
  - apply (cmp_antisym H).
  - eapply (cmp_trans H); eauto.
  - now apply (cmp_eq_l H).
Qed.

(** The comparison of versions is consistent. *)
Lemma version_comparator : Comparator Semver.compareVersions.
Proof.
  apply (@comparator_ext _ _ _ compareVersions_lex).
  apply lex_comparator.
  - apply (@comparator_ext _ _ _ compareMain_lex).
    repeat apply lex_comparator;
      apply (on_comparator _ N_comparator).
  - apply (@comparator_ext _ _ _ comparePre_lex).
    apply lex_comparator.
    + apply (on_comparator no_prerelease bool_comparator).
    + apply (on_comparator Semver.pre identifier_list_comparator).
Qed.

(** The build identifiers play no part in the comparison. *)
Lemma compareVersions_build_ignored a b :
  Semver.major a = Semver.major b ->
  Semver.minor a = Semver.minor b ->
  Semver.patch a = Semver.patch b ->
  Semver.pre a = Semver.pre b ->
  Semver.compareVersions a b = Eq.
Proof.
  intros H1 H2 H3 H4.
  unfold Semver.compareVersions, Semver.compareMain, Semver.comparePre.
  rewrite H1, H2, H3, H4, !N.compare_refl.
  destruct (Semver.pre b); [reflexivity|].
  apply (cmp_refl identifier_list_comparator).
Qed.

(** A prerelease is below the release of the same major, minor and
    patch. *)
Lemma compareVersions_prerelease_below a b :
  Semver.major a = Semver.major b ->
  Semver.minor a = Semver.minor b ->
  Semver.patch a = Semver.patch b ->
  Semver.pre a <> [] -> Semver.pre b = [] ->
  Semver.compareVersions a b = Lt.
Proof.
  intros H1 H2 H3 Ha Hb.
  unfold Semver.compareVersions, Semver.compareMain, Semver.comparePre.
  rewrite H1, H2, H3, Hb, !N.compare_refl.
  destruct (Semver.pre a); [congruence | reflexivity].
Qed.

(** Major first, then minor, then patch. *)
Lemma compareVersions_main a b :
  (Semver.major a < Semver.major b
   \/ (Semver.major a = Semver.major b
       /\ (Semver.minor a < Semver.minor b
           \/ (Semver.minor a = Semver.minor b
               /\ Semver.patch a < Semver.patch b))))%N ->
  Semver.compareVersions a b = Lt.
Proof.
  unfold Semver.compareVersions, Semver.compareMain.
  intros [H|[H1 [H|[H2 H]]]].
  - apply N.compare_lt_iff in H. now rewrite H.
  - apply N.compare_lt_iff in H. now rewrite H1, N.compare_refl, H.
  - apply N.compare_lt_iff in H.
    now rewrite H1, H2, !N.compare_refl, H.
Qed.

(** With the same major, minor and patch, two prereleases compare by
    their identifiers. *)
Lemma compareVersions_prerelease_ids a b :
  Semver.major a = Semver.major b ->
  Semver.minor a = Semver.minor b ->
  Semver.patch a = Semver.patch b ->
  Semver.pre a <> [] -> Semver.pre b <> [] ->
  Semver.compareVersions a b
  = Semver.compareIdentifierLists (Semver.pre a) (Semver.pre b).
Proof.
  intros H1 H2 H3 Ha Hb.
  unfold Semver.compareVersions, Semver.compareMain, Semver.comparePre.
  rewrite H1, H2, H3, !N.compare_refl.
  destruct (Semver.pre a), (Semver.pre b); congruence.
Qed.

Lemma format_not_empty v : Semver.format v <> EmptyString.
Proof.
  unfold Semver.format.
  destruct (Semver.show_N (Semver.major v)); discriminate.
Qed.

(** [valid] is truthy exactly when the string parses. *)
Lemma valid_truthy s :
  Js.truthy (Semver.valid s) = Js.truthy_object (Semver.parse s).
Proof.
  unfold Semver.valid. destruct (Semver.parse s) as [v|]; simpl; auto.
  pose proof (format_not_empty v).
  destruct (Semver.format v); [congruence | reflexivity].
Qed.

Lemma prerelease_truthy s :
  Js.truthy_object (Semver.prerelease s) = true <->
  exists v, Semver.parse s = Some v /\ Semver.pre v <> [].
Proof.
  unfold Semver.prerelease. destruct (Semver.parse s) as [v|]; simpl.
  - destruct (Semver.pre v) eqn:E; simpl; split.
    + discriminate.
    + intros [v' [[= <-] H]]. congruence.
    + intros _. exists v. split; [reflexivity | congruence].
    + reflexivity.
  - split; [discriminate | intros [v [H _]]; discriminate].
Qed.

(** On two versions [compare] answers and neither throws nor logs. *)
Lemma compare_run a b va vb log :
  Semver.parse a = Some va -> Semver.parse b = Some vb ->
  Semver.compare a b log
  = (Ok (Semver.number_of (Semver.compareVersions va vb)), log).
Proof. intros Ha Hb. unfold Semver.compare. now rewrite Ha, Hb. Qed.

(** *** The model at work *)

Example valid_examples :
  List.map Semver.valid
    [ "1.2.3"; "v1.2.3"; "1.2.3-beta.1+build.7"; "1.2"; "01.2.3";
      "1.2.3-01"; "1.2.3-"; "latest" ]
  = [ Some "1.2.3"; Some "1.2.3"; Some "1.2.3-beta.1"; None; None;
      None; None; None ].
Proof. vm_compute. reflexivity. Qed.

Example prerelease_examples :
  List.map Semver.prerelease ["1.0.0-rc.1"; "1.0.0"; "1.0.0+rc.1"; "latest"]
  = [ Some [Semver.Alphanumeric "rc"; Semver.Numeric 1]; None; None; None ].
Proof. vm_compute. reflexivity. Qed.

(** The chain of precedence of the semver specification:
    1.0.0-alpha < 1.0.0-alpha.1 < 1.0.0-alpha.beta < 1.0.0-beta
    < 1.0.0-beta.2 < 1.0.0-beta.11 < 1.0.0-rc.1 < 1.0.0. *)
Example compare_examples :
  List.map (fun p => fst (Semver.compare (fst p) (snd p) []))
    [ ("1.0.0-alpha", "1.0.0-alpha.1");
      ("1.0.0-alpha.1", "1.0.0-alpha.beta");
      ("1.0.0-alpha.beta", "1.0.0-beta");
      ("1.0.0-beta", "1.0.0-beta.2");
      ("1.0.0-beta.2", "1.0.0-beta.11");
      ("1.0.0-beta.11", "1.0.0-rc.1");
      ("1.0.0-rc.1", "1.0.0");
      ("1.0.0+a", "1.0.0+b");
      ("2.0.0", "1.9.9") ]
  = [ Ok (-1)%Z; Ok (-1)%Z; Ok (-1)%Z; Ok (-1)%Z; Ok (-1)%Z; Ok (-1)%Z;
      Ok (-1)%Z; Ok 0%Z; Ok 1%Z ].
Proof. vm_compute. reflexivity. Qed.

End SemverFacts.

(* ================================================================== *)
(** ** Tags *)
(* ================================================================== *)

Module TagFacts.

Import OrderFacts.

Lemma forEach_debug_run {A : Type} (f : A -> string) (l : list A) log :
  Core.forEach (fun x => Core.debug (f x)) l log
  = (Ok tt, log ++ List.map (fun x => Debug (f x)) l).
Proof.
  revert log. induction l as [|x l IH]; intros log; simpl.
  - unfold Core.ret. now rewrite app_nil_r.
  - unfold Core.bind, Core.debug at 1. rewrite IH.
    now rewrite <- app_assoc.
Qed.

Section WithPrefix.
Variable prefixRegex : RegExp.t.

Lemma is_valid_version tag :
  is_valid prefixRegex tag = true <->
  exists v, version_of prefixRegex tag = Some v.
Proof.
  unfold is_valid, version_of. rewrite SemverFacts.valid_truthy.
  destruct (Semver.parse (stripped prefixRegex tag)); simpl.
  - split; eauto.
  - split; [discriminate | intros [v H]; discriminate].
Qed.

Lemma is_valid_false tag :
  is_valid prefixRegex tag = false <->
  Semver.valid (stripped prefixRegex tag) = None.
Proof.
  unfold is_valid. rewrite SemverFacts.valid_truthy. unfold Semver.valid.
  destruct (Semver.parse (stripped prefixRegex tag)); simpl;
    split; congruence.
Qed.

(** On valid tags the comparator of the sort answers [tag_order]. *)
Lemma rcompare_run a b log :
  is_valid prefixRegex a = true -> is_valid prefixRegex b = true ->
  Semver.rcompare (stripped prefixRegex a) (stripped prefixRegex b) log
  = (Ok (tag_order prefixRegex a b), log).
Proof.
  intros Ha Hb.
  apply is_valid_version in Ha as [va Ha], Hb as [vb Hb].
  unfold Semver.rcompare, tag_order. rewrite Ha, Hb.
  now apply SemverFacts.compare_run.
Qed.

Lemma before_not_below a b :
  is_valid prefixRegex a = true -> is_valid prefixRegex b = true ->
  (before prefixRegex a b = true <-> not_below prefixRegex a b).
Proof.
  intros Ha Hb.
  apply is_valid_version in Ha as [va Ha], Hb as [vb Hb].
  unfold before, tag_order, not_below. rewrite Ha, Hb.
  rewrite (cmp_antisym SemverFacts.version_comparator va vb).
  split.
  - intros H. exists va, vb. repeat split.
    destruct (Semver.compareVersions va vb); simpl in *;
      [discriminate | discriminate | discriminate].
  - intros [va' [vb' [[= <-] [[= <-] H]]]].
    destruct (Semver.compareVersions va vb); simpl in *;
      [reflexivity | congruence | reflexivity].
Qed.

Lemma before_total a b :
  is_valid prefixRegex a = true -> is_valid prefixRegex b = true ->
  before prefixRegex a b = false -> before prefixRegex b a = true.
Proof.
  intros Ha Hb.
  apply is_valid_version in Ha as [va Ha], Hb as [vb Hb].
  unfold before, tag_order. rewrite Ha, Hb.
  rewrite (cmp_antisym SemverFacts.version_comparator va vb).
  destruct (Semver.compareVersions va vb); cbv; congruence.
Qed.

Lemma not_below_refl a :
  has_prerelease prefixRegex a = true -> not_below prefixRegex a a.
Proof.
  intros H. apply SemverFacts.prerelease_truthy in H as [v [Hv _]].
  exists v, v. repeat split; auto.
  rewrite (cmp_refl SemverFacts.version_comparator). discriminate.
Qed.

Lemma StronglySorted_suffix {A : Type} (R : A -> A -> Prop) l1 l2 :
  StronglySorted R (l1 ++ l2) -> StronglySorted R l2.
Proof.
  induction l1 as [|x l1 IH]; simpl; [auto|].
  intros H. apply StronglySorted_inv in H as [H _]. auto.
Qed.

(** In a descending list, the first tag that qualifies is not below any
    other that does. *)
Lemma first_of_descending (wanted : Tag -> bool) earlier tag later other :
  StronglySorted (not_below prefixRegex) (earlier ++ tag :: later) ->
  Forall (fun t => wanted t = false) earlier ->
  has_prerelease prefixRegex tag = true ->
  In other (earlier ++ tag :: later) -> wanted other = true ->
  not_below prefixRegex tag other.
Proof.
  intros Hs Hearlier Htag Hin Hother.
  apply StronglySorted_suffix in Hs.
  apply StronglySorted_inv in Hs as [_ Hlater].
  apply in_app_or in Hin as [Hin|[<-|Hin]].
  - rewrite Forall_forall in Hearlier. rewrite (Hearlier _ Hin) in Hother.
    discriminate.
  - now apply not_below_refl.
  - rewrite Forall_forall in Hlater. auto.
Qed.

Lemma not_below_trans a b c :
  not_below prefixRegex a b -> not_below prefixRegex b c ->
  not_below prefixRegex a c.
Proof.
  intros [va [vb [Ha [Hb Hab]]]] [vb' [vc [Hb' [Hc Hbc]]]].
  rewrite Hb in Hb'. injection Hb' as <-.
  exists va, vc. repeat split; auto.
  eapply (not_lt_trans SemverFacts.version_comparator); eauto.
Qed.

Lemma sorted_valid_In tag tags :
  In tag (sorted_valid prefixRegex tags) <->
  In tag tags /\ is_valid prefixRegex tag = true.
Proof.
  unfold sorted_valid. rewrite stable_sort_In. apply filter_In.
Qed.

Lemma sorted_valid_Forall tags :
  Forall (fun tag => is_valid prefixRegex tag = true)
         (filter (is_valid prefixRegex) tags).
Proof. apply Forall_forall. intros tag H. now apply filter_In in H. Qed.

Lemma sorted_valid_locally tags :
  Sorted (goes_before (before prefixRegex)) (sorted_valid prefixRegex tags).
Proof.
  apply stable_sort_sorted
    with (P := fun tag => is_valid prefixRegex tag = true).
  - intros a b. apply before_total.
  - apply sorted_valid_Forall.
Qed.

(** The valid tags come out in descending precedence. *)
Lemma sorted_valid_descending tags :
  StronglySorted (not_below prefixRegex) (sorted_valid prefixRegex tags).
Proof.
  pose proof (sorted_valid_locally tags) as Hs.
  assert (Hall : Forall (fun tag => is_valid prefixRegex tag = true)
                        (sorted_valid prefixRegex tags)).
  { apply Forall_forall. intros tag H. now apply sorted_valid_In in H. }
  induction Hs as [|x l Hs IH Hhd]; [constructor|].
  inversion Hall as [|? ? Hx Hl]; subst.
  specialize (IH Hl). constructor; [exact IH|].
  destruct Hhd as [|y l Hxy]; [constructor|].
  inversion Hl as [|? ? Hy Hl']; subst.
  assert (Hxy' : not_below prefixRegex x y) by now apply before_not_below.
  constructor; [exact Hxy'|].
  apply StronglySorted_inv in IH as [_ Hyl].
  eapply Forall_impl; [|exact Hyl].
  intros z. now apply not_below_trans.
Qed.

(** Its own output is a fixed point of the sort. *)
Lemma sorted_valid_idempotent tags :
  sorted_valid prefixRegex (sorted_valid prefixRegex tags) = sorted_valid prefixRegex tags.
Proof.
  unfold sorted_valid at 1.
  rewrite forallb_filter_id.
  - apply stable_sort_of_sorted, sorted_valid_locally.
  - apply forallb_forall. intros tag H. now apply sorted_valid_In in H.
Qed.

(** [getValidTags] in closed form. *)
Lemma getValidTags_run (listTags : bool -> Core.t (list Tag)) all log tags log1 :
  listTags all log = (Ok tags, log1) ->
  getValidTags listTags prefixRegex all log
  = (Ok (sorted_valid prefixRegex tags),
     log1
       ++ List.map (fun _ => Debug "Found Invalid Tag: [object Object].")
            (filter (fun tag => negb (is_valid prefixRegex tag)) tags)
       ++ List.map (fun tag => Debug ("Found Valid Tag: " ++ name tag ++ "."))
            (sorted_valid prefixRegex tags)).
Proof.
  intros Hlist. unfold getValidTags, Core.bind. rewrite Hlist.
  rewrite forEach_debug_run.
  rewrite (@sort_run _ _ (tag_order prefixRegex)
             (fun tag => is_valid prefixRegex tag = true)).
  - rewrite forEach_debug_run. unfold Core.ret.
    now rewrite <- app_assoc.
  - intros a b Ha Hb log'. now apply rcompare_run.
  - apply sorted_valid_Forall.
Qed.

End WithPrefix.

End TagFacts.

(* ================================================================== *)
(** ** Patterns *)
(* ================================================================== *)

Module RegExpFacts.

Import RegExp.

Lemma list_ascii_app a b :
  list_ascii_of_string (a ++ b)
  = list_ascii_of_string a ++ list_ascii_of_string b.
Proof. induction a as [|c a IH]; simpl; [reflexivity | now rewrite IH]. Qed.

Lemma string_of_list_app a b :
  string_of_list_ascii (a ++ b)
  = (string_of_list_ascii a ++ string_of_list_ascii b)%string.
Proof. induction a as [|c a IH]; simpl; [reflexivity | now rewrite IH]. Qed.

(** *** Callbacks that build a pattern and test it *)

Lemma find_run {A : Type} (f : A -> Core.t bool) (p : A -> bool) l log :
  (forall x log, f x log = (Ok (p x), log)) ->
  Core.find f l log = (Ok (find p l), log).
Proof.
  intros Hf. induction l as [|x l IH]; simpl; [reflexivity|].
  unfold Core.bind. rewrite Hf. destruct (p x); [reflexivity | exact IH].
Qed.



Lemma compile_fine engine pattern n global :
  parse pattern = Fine n ->
  compile engine pattern global
  = Ok (Modelled {| node := n; global := global |}).
Proof. intros H. unfold compile. now rewrite H. Qed.

Lemma compile_malformed engine pattern global :
  parse pattern = Malformed ->
  compile engine pattern global
  = Throw (SyntaxError (complaint engine pattern global)).
Proof. intros H. unfold compile. now rewrite H. Qed.

Lemma create_run engine pattern global log :
  create engine pattern global log = (compile engine pattern global, log).
Proof. reflexivity. Qed.

(** *** Lists: the first element that qualifies *)


Lemma find_filter {A : Type} (p q : A -> bool) l :
  find p (filter q l) = find (fun x => q x && p x) l.
Proof.
  induction l as [|x l IH]; simpl; [reflexivity|].
  destruct (q x); simpl; [|exact IH].
  destruct (p x); [reflexivity | exact IH].
Qed.

Lemma find_first {A : Type} (p : A -> bool) l x :
  find p l = Some x <->
  exists earlier later,
    l = earlier ++ x :: later
    /\ p x = true
    /\ Forall (fun y => p y = false) earlier.
Proof.
  induction l as [|y l IH]; simpl.
  - split; [discriminate|].
    intros [earlier [later [H _]]]. destruct earlier; discriminate.
  - destruct (p y) eqn:Hy.
    + split.
      * intros [= <-]. exists [], l. repeat split; auto.
      * intros [[|z earlier] [later [Hl [Hx Hall]]]].
        -- injection Hl as <- _. reflexivity.
        -- injection Hl as <- _. inversion Hall; congruence.
    + rewrite IH. split.
      * intros [earlier [later [-> [Hx Hall]]]].
        exists (y :: earlier), later. repeat split; auto.
      * intros [[|z earlier] [later [Hl [Hx Hall]]]].
        -- injection Hl as <- _. congruence.
        -- injection Hl as <- ->. inversion Hall; subst. eauto.
Qed.

Lemma find_none_iff {A : Type} (p : A -> bool) l :
  find p l = None <-> Forall (fun y => p y = false) l.
Proof.
  induction l as [|y l IH]; simpl.
  - split; auto.
  - destruct (p y) eqn:Hy.
    + split; [discriminate | intros H; inversion H; congruence].
    + rewrite IH. split; [now constructor | intros H; now inversion H].
Qed.

(** *** The bound on the depth of a repetition is never reached *)

Lemma reaches_refl x : reaches x x.
Proof. exists []. split; [reflexivity | simpl; lia]. Qed.

Lemma reaches_trans x y z : reaches x y -> reaches y z -> reaches x z.
Proof.
  intros [c1 [H1 I1]] [c2 [H2 I2]]. exists (c1 ++ c2). split.
  - now rewrite H1, H2, app_assoc.
  - rewrite length_app. lia.
Qed.

Lemma reaches_length x y :
  reaches x y ->
  List.length (rest y) <= List.length (rest x)
  /\ (index y <> index x -> List.length (rest y) < List.length (rest x)).
Proof.
  intros [consumed [H I]]. rewrite H, length_app. split; [lia|].
  intros Hne. destruct consumed; simpl in *; lia.
Qed.

Lemma one_char_reach p x (c1 c2 : Pos -> option Pos) :
  (forall y, reaches x y -> c1 y = c2 y) ->
  one_char p x c1 = one_char p x c2.
Proof.
  intros H. unfold one_char. destruct (rest x) as [|a s] eqn:E;
    [reflexivity|].
  destruct (p a); [|reflexivity]. apply H.
  exists [a]. simpl. split; [exact E | lia].
Qed.

Lemma repeat_matcher_reach (m : Matcher) :
  (forall x c1 c2, (forall y, reaches x y -> c1 y = c2 y) ->
                   m x c1 = m x c2) ->
  forall depth min max greedy x (c1 c2 : Pos -> option Pos),
    (forall y, reaches x y -> c1 y = c2 y) ->
    repeat_matcher depth m min max greedy x c1
    = repeat_matcher depth m min max greedy x c2.
Proof.
  intros Hm depth. induction depth as [|depth IH];
    intros min max greedy x c1 c2 Hc; simpl.
  - destruct max as [[|k]|]; auto using reaches_refl.
  - assert (Hd : forall y, reaches x y ->
               (if (min =? 0)%nat && (index y =? index x)%nat then None
                else repeat_matcher depth m (Nat.pred min)
                       (option_map Nat.pred max) greedy y c1)
               = (if (min =? 0)%nat && (index y =? index x)%nat then None
                  else repeat_matcher depth m (Nat.pred min)
                         (option_map Nat.pred max) greedy y c2)).
    { intros y Hy. destruct ((min =? 0)%nat && (index y =? index x)%nat);
        [reflexivity|].
      apply IH. intros z Hz. apply Hc. eapply reaches_trans; eauto. }
    pose proof (Hc x (reaches_refl x)) as Hx.
    destruct max as [[|k]|]; auto;
      destruct (negb (min =? 0)%nat); auto;
      destruct greedy; rewrite (Hm _ _ _ Hd), Hx; reflexivity.
Qed.

(** A matcher calls its continuation at or after its own position
    only. *)
Lemma matcher_reach r :
  forall x (c1 c2 : Pos -> option Pos),
    (forall y, reaches x y -> c1 y = c2 y) ->
    matcher r x c1 = matcher r x c2.
Proof.
  induction r as [ | ch | | negated items | a IHa b IHb | a IHa b IHb
                   | min max greedy a IHa | | ];
    intros x c1 c2 Hc; simpl.
  - apply Hc, reaches_refl.
  - now apply one_char_reach.
  - now apply one_char_reach.
  - now apply one_char_reach.
  - apply IHa. intros y Hy. apply IHb. intros z Hz.
    apply Hc. eapply reaches_trans; eauto.
  - rewrite (IHa x c1 c2 Hc), (IHb x c1 c2 Hc). reflexivity.
  - now apply repeat_matcher_reach.
  - destruct (index x =? 0)%nat; [apply Hc, reaches_refl | reflexivity].
  - destruct (rest x); [apply Hc, reaches_refl | reflexivity].
Qed.

(** Any depth above the owed minimum plus the length of the text left
    gives the same repetition: the bound [matcher] passes is enough. *)
Lemma repeat_matcher_depth r : forall d1 d2 min max greedy x c,
  min + List.length (rest x) < d1 ->
  min + List.length (rest x) < d2 ->
  repeat_matcher d1 (matcher r) min max greedy x c
  = repeat_matcher d2 (matcher r) min max greedy x c.
Proof.
  induction d1 as [|d1 IH]; intros d2 min max greedy x c H1 H2; [lia|].
  destruct d2 as [|d2]; [lia|]. simpl.
  assert (Hd : forall y, reaches x y ->
             (if (min =? 0)%nat && (index y =? index x)%nat then None
              else repeat_matcher d1 (matcher r) (Nat.pred min)
                     (option_map Nat.pred max) greedy y c)
             = (if (min =? 0)%nat && (index y =? index x)%nat then None
                else repeat_matcher d2 (matcher r) (Nat.pred min)
                       (option_map Nat.pred max) greedy y c)).
  { intros y Hy. destruct (reaches_length Hy) as [Hle Hlt].
    destruct (Nat.eqb_spec min 0) as [->|Hmin]; simpl.
    - destruct (Nat.eqb_spec (index y) (index x)) as [|Hne];
        [reflexivity|].
      specialize (Hlt Hne). apply IH; simpl in *; lia.
    - apply IH; lia. }
  rewrite (@matcher_reach r x _ _ Hd). reflexivity.
Qed.

(** *** Matching: continuations that agree give the same result *)

Lemma matcher_ext r x (c1 c2 : Pos -> option Pos) :
  (forall y, c1 y = c2 y) -> matcher r x c1 = matcher r x c2.
Proof. intros H. apply matcher_reach. intros y _. apply H. Qed.

Lemma match_all_ext terms :
  forall x (c1 c2 : Pos -> option Pos),
    (forall y, c1 y = c2 y) -> match_all terms x c1 = match_all terms x c2.
Proof.
  induction terms as [|term terms IH]; intros x c1 c2 Hc; simpl.
  - apply Hc.
  - apply matcher_ext. intros y. now apply IH.
Qed.

(** *** Sequences *)

Lemma match_all_app l1 l2 x c :
  match_all (l1 ++ l2) x c = match_all l1 x (fun y => match_all l2 y c).
Proof.
  revert x. induction l1 as [|term l1 IH]; intros x; simpl; [reflexivity|].
  apply matcher_ext. intros y. apply IH.
Qed.

Lemma matcher_fold_seq l : forall a x c,
  matcher (fold_left (fun acc term => Seq term acc) l a) x c
  = match_all (rev l) x (fun y => matcher a y c).
Proof.
  induction l as [|term l IH]; intros a x c; simpl; [reflexivity|].
  rewrite IH, match_all_app. reflexivity.
Qed.

(** A sequence built by the parser matches its terms in order. *)
Lemma matcher_build_seq terms_rev x c :
  matcher (build_seq terms_rev) x c = match_all (rev terms_rev) x c.
Proof.
  unfold build_seq. rewrite matcher_fold_seq.
  apply match_all_ext. reflexivity.
Qed.

(** Literal characters match the text they spell. *)
Lemma match_chars cs : forall x c,
  match_all (List.map Char cs) x c
  = match strip_prefix cs (rest x) with
    | Some r => c {| index := index x + List.length cs; rest := r |}
    | None => None
    end.
Proof.
  induction cs as [|b cs IH]; intros [i s] c; simpl.
  - now rewrite Nat.add_0_r.
  - unfold one_char. simpl. destruct s as [|a s]; [reflexivity|].
    rewrite Ascii.eqb_sym.
    destruct (Ascii.eqb a b); [|reflexivity].
    rewrite IH. simpl. now rewrite Nat.add_succ_r.
Qed.

Lemma strip_prefix_Some cs s r :
  strip_prefix cs s = Some r <-> s = cs ++ r.
Proof.
  revert s. induction cs as [|b cs IH]; intros s; simpl.
  - split; congruence.
  - destruct s as [|a s]; [split; discriminate|].
    destruct (Ascii.eqb_spec a b) as [->|Hne].
    + rewrite IH. split; congruence.
    + split; [discriminate | congruence].
Qed.

(** *** Parsing literal text *)

Lemma steps_app st l1 l2 :
  steps st (l1 ++ l2)
  = match steps st l1 with
    | Fine st' => steps st' l2
    | Malformed => Malformed
    | Beyond => Beyond
    end.
Proof.
  revert st. induction l1 as [|c l1 IH]; intros st; simpl; [reflexivity|].
  destruct (step st c); [apply IH | reflexivity | reflexivity].
Qed.

Lemma step_plain st c :
  mode st = Normal -> plain c = true ->
  step st c = Fine (with_top st (push_term (Char c) (top st))).
Proof.
  intros Hmode Hplain. unfold step. rewrite Hmode.
  destruct c as [[] [] [] [] [] [] [] []];
    try reflexivity; discriminate Hplain.
Qed.

(** Plain characters are pushed as they come. *)
Lemma steps_plain cs : forall st,
  mode st = Normal ->
  forallb plain cs = true ->
  steps st cs
  = Fine (match cs with
          | [] => st
          | _ :: _ =>
              with_top st
                {| alts := alts (top st);
                   terms := rev (List.map Char cs) ++ terms (top st);
                   last := Atom |}
          end).
Proof.
  induction cs as [|c cs IH]; intros st Hmode Hplain; simpl; [reflexivity|].
  simpl in Hplain. apply andb_prop in Hplain as [Hc Hcs].
  rewrite (step_plain st c Hmode Hc).
  rewrite IH by (auto; reflexivity).
  destruct cs as [|c' cs]; [reflexivity|].
  unfold with_top, push_term. simpl. rewrite <- !app_assoc. reflexivity.
Qed.

(** A pattern of plain characters is the word it spells. *)
Lemma parse_plain pattern :
  forallb plain (list_ascii_of_string pattern) = true ->
  parse pattern = Fine (word pattern).
Proof.
  intros Hplain. unfold parse, word.
  rewrite (steps_plain _ initial eq_refl Hplain).
  destruct (list_ascii_of_string pattern) as [|c cs]; [reflexivity|].
  unfold finish, with_top, build_alt. cbn [mode parents top alts terms initial].
  cbn [fold_left]. now rewrite app_nil_r.
Qed.

Lemma matcher_word w x c :
  matcher (word w) x c
  = match strip_prefix (list_ascii_of_string w) (rest x) with
    | Some r =>
        c {| index := index x + List.length (list_ascii_of_string w);
             rest := r |}
    | None => None
    end.
Proof.
  unfold word. rewrite matcher_build_seq, rev_involutive. apply match_chars.
Qed.

(** *** Searching *)

Lemma search_Some n s : forall i,
  (exists found, search n i s = Some found) <->
  exists skipped from,
    s = skipped ++ from
    /\ matches_at n (i + List.length skipped) from = true.
Proof.
  induction s as [|a s IH]; intros i; simpl.
  - destruct (matcher n {| index := i; rest := [] |} (fun y => Some y))
      as [y|] eqn:E.
    + split; [|eauto]. intros _. exists [], []. split; [reflexivity|].
      unfold matches_at. simpl. now rewrite Nat.add_0_r, E.
    + split; [intros [found H]; discriminate|].
      intros [skipped [from [Hs Hm]]].
      symmetry in Hs. apply app_eq_nil in Hs as [-> ->].
      unfold matches_at in Hm. simpl in Hm.
      rewrite Nat.add_0_r, E in Hm. discriminate.
  - destruct (matcher n {| index := i; rest := a :: s |} (fun y => Some y))
      as [y|] eqn:E.
    + split; [|eauto]. intros _. exists [], (a :: s). split; [reflexivity|].
      unfold matches_at. simpl. now rewrite Nat.add_0_r, E.
    + rewrite IH. split.
      * intros [skipped [from [-> Hm]]]. exists (a :: skipped), from.
        split; [reflexivity|]. simpl. now rewrite Nat.add_succ_r.
      * intros [[|b skipped] [from [Hs Hm]]].
        -- simpl in Hs. subst from. unfold matches_at in Hm.
           simpl in Hm. rewrite Nat.add_0_r, E in Hm. discriminate.
        -- injection Hs as <- ->. exists skipped, from.
           split; [reflexivity|]. simpl in Hm.
           now rewrite Nat.add_succ_r in Hm.
Qed.

Lemma test_iff re s :
  test (Modelled re) s = true <->
  exists skipped from,
    list_ascii_of_string s = skipped ++ from
    /\ matches_at (node re) (List.length skipped) from = true.
Proof.
  unfold test.
  pose proof (search_Some (node re) (list_ascii_of_string s) 0) as H.
  simpl in H. rewrite <- H.
  destruct (search (node re) 0 (list_ascii_of_string s)).
  - split; eauto.
  - split; [discriminate | intros [found Hf]; discriminate].
Qed.

(** For a pattern of plain characters, matching is containing. *)
Lemma plain_pattern_substring engine pattern global subject :
  forallb plain (list_ascii_of_string pattern) = true ->
  (pattern_matches engine pattern global subject = true <->
   substring pattern subject).
Proof.
  intros Hplain. unfold pattern_matches, substring.
  rewrite (@compile_fine engine _ _ global (parse_plain _ Hplain)), test_iff.
  simpl. split.
  - intros [skipped [from [Hs Hm]]].
    unfold matches_at in Hm. rewrite matcher_word in Hm. simpl in Hm.
    destruct (strip_prefix (list_ascii_of_string pattern) from) as [r|] eqn:E;
      [|discriminate].
    apply strip_prefix_Some in E. subst from.
    exists (string_of_list_ascii skipped), (string_of_list_ascii r).
    rewrite <- (string_of_list_ascii_of_string subject), Hs.
    rewrite !string_of_list_app, string_of_list_ascii_of_string.
    reflexivity.
  - intros [before [after ->]].
    exists (list_ascii_of_string before),
           (list_ascii_of_string (pattern ++ after)).
    split; [apply list_ascii_app|].
    unfold matches_at. rewrite matcher_word. simpl.
    rewrite list_ascii_app.
    now rewrite (proj2 (strip_prefix_Some _ _ _) eq_refl).
Qed.

(** *** The scope pattern *)

Lemma scope_pattern_parts scope :
  scope_pattern scope = (scope_prefix ++ scope ++ scope_suffix)%string.
Proof. reflexivity. Qed.

Lemma scope_prefix_state :
  steps initial (list_ascii_of_string scope_prefix)
  = Fine {| parents := [];
            top := {| alts := [];
                      terms := [Char "("; alternation commit_types; Bol];
                      last := Atom |};
            mode := Normal |}.
Proof. vm_compute. reflexivity. Qed.

(** For a scope of plain characters the pattern compiles, to the
    sequence: start of text, one of the types, the scope between
    parentheses, a colon, a space, one or more word characters or
    spaces. *)
Lemma parse_scope_pattern scope :
  forallb plain (list_ascii_of_string scope) = true ->
  parse (scope_pattern scope) = Fine (scope_node (list_ascii_of_string scope)).
Proof.
  intros Hplain. unfold parse. rewrite scope_pattern_parts.
  rewrite !list_ascii_app, steps_app, scope_prefix_state, steps_app.
  rewrite (steps_plain _
             {| parents := [];
                top := {| alts := [];
                          terms := [Char "("; alternation commit_types; Bol];
                          last := Atom |};
                mode := Normal |} eq_refl Hplain).
  destruct (list_ascii_of_string scope) as [|c cs]; reflexivity.
Qed.









(** *** The model at work *)

Example remove_examples :
  [ removed "^v" false "v1.2.3"; removed "^v" false "1.2.3-v";
    removed "^release-" false "release-1.2.3"; removed "v" true "v1.v2";
    removed "a*" true "baaac"; removed "a+?" false "aaa";
    removed "(a|ab)(c|bcd)?" false "abcdx"; removed "[0-9]+$" false "x12";
    removed "(" false "x"; removed "a**" false "x" ]
  = [ Some "1.2.3"; Some "1.2.3-v"; Some "1.2.3"; Some "1.2";
      Some "bc"; Some "aa"; Some "x"; Some "x"; None; None ].
Proof. vm_compute. reflexivity. Qed.

End RegExpFacts.

(* ================================================================== *)
(** ** String methods *)
(* ================================================================== *)

Module TextFacts.

Import JsText.

Lemma starts_with_iff needle : forall s,
  starts_with needle s = true <-> exists r, s = (needle ++ r)%string.
Proof.
  induction needle as [|n needle IH]; intros s; simpl.
  - split; eauto.
  - destruct s as [|c s].
    + split; [discriminate | intros [r H]; discriminate].
    + rewrite andb_true_iff, IH. split.
      * intros [Hc [r ->]]. apply Ascii.eqb_eq in Hc. subst. eauto.
      * intros [r [= -> ->]]. split; [apply Ascii.eqb_refl | eauto].
Qed.

Lemma starts_with_app needle r : starts_with needle (needle ++ r) = true.
Proof. apply starts_with_iff. eauto. Qed.

Lemma drop_app needle r : drop (String.length needle) (needle ++ r) = r.
Proof. induction needle as [|n needle IH]; simpl; auto. Qed.

Lemma append_assoc (a b c : string) :
  ((a ++ b) ++ c = a ++ b ++ c)%string.
Proof. induction a as [|x a IH]; simpl; [reflexivity | now rewrite IH]. Qed.

Lemma append_length (a b : string) :
  String.length (a ++ b) = String.length a + String.length b.
Proof. induction a as [|x a IH]; simpl; [reflexivity | now rewrite IH]. Qed.

(** [includes] finds the needle exactly when it lies in the string. *)
Lemma includes_iff needle s :
  includes needle s = true <-> substring needle s.
Proof.
  unfold substring. induction s as [|c s IH]; simpl.
  - rewrite starts_with_iff. split.
    + intros [r H]. exists EmptyString, r. exact H.
    + intros [[|x before] [after H]]; [eauto | discriminate].
  - rewrite orb_true_iff, starts_with_iff, IH. split.
    + intros [[r H]|[before [after ->]]].
      * exists EmptyString, r. exact H.
      * exists (String c before), after. reflexivity.
    + intros [[|x before] [after H]].
      * left. eauto.
      * right. injection H as <- ->. eauto.
Qed.

(** [remove_first] leaves a string without the needle as it is, and
    otherwise takes out the occurrence that starts first. *)
Lemma remove_first_spec needle s :
  (includes needle s = false /\ remove_first needle s = s)
  \/ (exists before after,
        s = (before ++ needle ++ after)%string
        /\ remove_first needle s = (before ++ after)%string
        /\ forall before' after',
             s = (before' ++ needle ++ after')%string ->
             String.length before <= String.length before').
Proof.
  induction s as [|c s IH].
  - simpl. destruct (starts_with needle "") eqn:E.
    + right. apply starts_with_iff in E as [r E].
      exists EmptyString, r. split; [exact E|]. split.
      * destruct needle; [|discriminate]. simpl in E. now subst.
      * intros; simpl; lia.
    + left. auto.
  - cbn [remove_first includes].
    destruct (starts_with needle (String c s)) eqn:E.
    + right. apply starts_with_iff in E as [r E].
      exists EmptyString, r. split; [exact E|]. split.
      * rewrite E. apply drop_app.
      * intros; simpl; lia.
    + destruct IH as [[Hno Hsame]|[before [after [Hs [Hrem Hmin]]]]].
      * left. simpl. now rewrite Hno, Hsame.
      * right. exists (String c before), after.
        split; [simpl; now rewrite Hs|]. split; [simpl; now rewrite Hrem|].
        intros [|x before'] after' H.
        -- simpl in H. rewrite H, starts_with_app in E. discriminate.
        -- injection H as _ H. simpl. apply Hmin in H. lia.
Qed.

End TextFacts.

(* ================================================================== *)
(** ** Selection among sorted tags *)
(* ================================================================== *)

Module SelectionFacts.

Import OrderFacts.

(** Tied elements keep their order through the insertion sort. *)
Section Ties.
Variable A : Type.
Variable before : A -> A -> bool.
Variable tied : A -> bool.
Hypothesis tied_before :
  forall x y, tied x = true -> tied y = true -> before x y = true.

Lemma filter_insert_before x l :
  filter tied (insert_before before x l) = filter tied (x :: l).
Proof.
  induction l as [|y l IH]; [reflexivity|].
  cbn [insert_before]. destruct (before x y) eqn:Hxy; [reflexivity|].
  cbn [filter] in *. rewrite IH.
  destruct (tied x) eqn:Hx, (tied y) eqn:Hy; try reflexivity.
  rewrite (tied_before Hx Hy) in Hxy. discriminate.
Qed.

Lemma filter_stable_sort l :
  filter tied (stable_sort before l) = filter tied l.
Proof.
  induction l as [|x l IH]; [reflexivity|].
  cbn [stable_sort]. rewrite filter_insert_before. cbn [filter].
  now rewrite IH.
Qed.

End Ties.

Lemma filter_filter_implied {A : Type} (p q : A -> bool) l :
  (forall x, p x = true -> q x = true) ->
  filter p (filter q l) = filter p l.
Proof.
  intros H. induction l as [|x l IH]; [reflexivity|]. cbn [filter].
  destruct (q x) eqn:Hq; cbn [filter]; rewrite IH; [reflexivity|].
  destruct (p x) eqn:Hp; [|reflexivity].
  rewrite (H x Hp) in Hq. discriminate.
Qed.

Lemma map_const_repeat {A B : Type} (b : B) (l : list A) :
  List.map (fun _ => b) l = repeat b (List.length l).
Proof. induction l; simpl; congruence. Qed.

Lemma filter_negb_length {A : Type} (p : A -> bool) l :
  List.length (filter (fun x => negb (p x)) l)
  = List.length l - List.length (filter p l).
Proof.
  induction l as [|x l IH]; [reflexivity|]. cbn [filter].
  pose proof (filter_length_le p l) as Hle.
  destruct (p x); cbn [negb List.length]; rewrite ?IH; lia.
Qed.

Section WithPrefix.
Variable prefixRegex : RegExp.t.

Lemma same_precedence_valid v tag :
  same_precedence prefixRegex v tag = true ->
  is_valid prefixRegex tag = true.
Proof.
  unfold same_precedence. intros H. apply TagFacts.is_valid_version.
  destruct (version_of prefixRegex tag) as [vt|]; [eauto | discriminate].
Qed.

Lemma same_precedence_before v a b :
  same_precedence prefixRegex v a = true ->
  same_precedence prefixRegex v b = true ->
  before prefixRegex a b = true.
Proof.
  unfold same_precedence, before, tag_order.
  destruct (version_of prefixRegex a) as [va|]; [|discriminate].
  destruct (version_of prefixRegex b) as [vb|]; [|discriminate].
  destruct (Semver.compareVersions va v) eqn:Ha; try discriminate.
  destruct (Semver.compareVersions vb v) eqn:Hb; try discriminate.
  intros _ _.
  rewrite (cmp_eq_l SemverFacts.version_comparator _ _ va Hb).
  rewrite (cmp_antisym SemverFacts.version_comparator), Ha. reflexivity.
Qed.

Lemma getLatestTag_find tags tagPrefix :
  getLatestTag tags prefixRegex tagPrefix
  = match find (fun t => negb (has_prerelease prefixRegex t)) tags with
    | Some tag => tag
    | None => synthetic_tag tagPrefix
    end.
Proof. reflexivity. Qed.

Lemma has_prerelease_valid tag :
  has_prerelease prefixRegex tag = true -> is_valid prefixRegex tag = true.
Proof.
  intros H. apply SemverFacts.prerelease_truthy in H as [v [Hv _]].
  apply TagFacts.is_valid_version. eauto.
Qed.

Lemma invalid_no_prerelease tag :
  Semver.valid (stripped prefixRegex tag) = None ->
  has_prerelease prefixRegex tag = false.
Proof.
  intros H. apply TagFacts.is_valid_false in H.
  destruct (has_prerelease prefixRegex tag) eqn:E; [|reflexivity].
  apply has_prerelease_valid in E. congruence.
Qed.

Lemma not_below_valid a :
  is_valid prefixRegex a = true -> not_below prefixRegex a a.
Proof.
  intros H. apply TagFacts.is_valid_version in H as [v Hv].
  exists v, v. repeat split; auto.
  rewrite (cmp_refl SemverFacts.version_comparator). discriminate.
Qed.

(** In a descending list of valid tags, the first tag that qualifies is
    not below any other that does. *)
Lemma first_qualified (wanted : Tag -> bool) earlier tag later other :
  StronglySorted (not_below prefixRegex) (earlier ++ tag :: later) ->
  Forall (fun t => wanted t = false) earlier ->
  is_valid prefixRegex tag = true ->
  In other (earlier ++ tag :: later) -> wanted other = true ->
  not_below prefixRegex tag other.
Proof.
  intros Hs Hearlier Htag Hin Hother.
  apply TagFacts.StronglySorted_suffix in Hs.
  apply StronglySorted_inv in Hs as [_ Hlater].
  apply in_app_or in Hin as [Hin|[<-|Hin]].
  - rewrite Forall_forall in Hearlier. rewrite (Hearlier _ Hin) in Hother.
    discriminate.
  - now apply not_below_valid.
  - rewrite Forall_forall in Hlater. auto.
Qed.

End WithPrefix.

End SelectionFacts.

(* ================================================================== *)
(** ** The sorted list does not depend on the order of the input *)
(* ================================================================== *)

Module ArrangementFacts.

Lemma filter_perm {A : Type} (p : A -> bool) l1 l2 :
  Permutation l1 l2 -> Permutation (filter p l1) (filter p l2).
Proof.
  induction 1 as [|x l1 l2 _ IH|x y l|l1 l2 l3 _ IH1 _ IH2]; cbn [filter].
  - constructor.
  - destruct (p x); [now constructor | exact IH].
  - destruct (p x), (p y); try reflexivity. apply perm_swap.
  - now transitivity (filter p l2).
Qed.

(** Two descending arrangements of the same elements are equal when
    elements that are each not below the other are equal. *)
Lemma descending_unique {A : Type} (R : A -> A -> Prop) l1 : forall l2,
  (forall a b, In a l1 -> In b l1 -> R a b -> R b a -> a = b) ->
  StronglySorted R l1 -> StronglySorted R l2 -> Permutation l1 l2 ->
  l1 = l2.
Proof.
  induction l1 as [|x l1 IH]; intros l2 Htie H1 H2 Hperm.
  - apply Permutation_nil in Hperm. now subst.
  - destruct l2 as [|y l2].
    { symmetry in Hperm. apply Permutation_nil in Hperm. discriminate. }
    apply StronglySorted_inv in H1 as [H1 Hx].
    apply StronglySorted_inv in H2 as [H2 Hy].
    rewrite Forall_forall in Hx, Hy.
    assert (Hxy : x = y).
    { assert (Hin_x : In x (y :: l2)).
      { apply (Permutation_in _ Hperm). now left. }
      assert (Hin_y : In y (x :: l1)).
      { apply (Permutation_in _ (Permutation_sym Hperm)). now left. }
      destruct Hin_x as [->|Hin_x]; [reflexivity|].
      destruct Hin_y as [->|Hin_y]; [reflexivity|].
      apply Htie; [now left | now right | now apply Hx | now apply Hy]. }
    subst y. f_equal. apply IH; auto.
    + intros a b Ha Hb. apply Htie; now right.
    + now apply Permutation_cons_inv in Hperm.
Qed.

Lemma mutual_not_below prefixRegex a b :
  not_below prefixRegex a b -> not_below prefixRegex b a ->
  tag_order prefixRegex a b = 0%Z.
Proof.
  intros [va [vb [Ha [Hb Hab]]]] [vb' [va' [Hb' [Ha' Hba]]]].
  rewrite Hb in Hb'. injection Hb' as <-.
  rewrite Ha in Ha'. injection Ha' as <-.
  unfold tag_order. rewrite Ha, Hb.
  rewrite (cmp_antisym SemverFacts.version_comparator) in Hab.
  destruct (Semver.compareVersions vb va); cbn in *; congruence.
Qed.

End ArrangementFacts.

(* ================================================================== *)
(** ** Callbacks that do not log *)
(* ================================================================== *)

Module ScopeFacts.

Section Silent.
Variable A : Type.
Variable f : A -> Core.t bool.

(** The callback leaves the log as it is, and its outcome does not
    depend on the log. *)
Hypothesis silent : forall x log, f x log = (fst (f x []), log).

Lemma some_silent l log :
  Core.some f l log = (fst (Core.some f l []), log).
Proof.
  induction l as [|x l IH]; [reflexivity|].
  cbn [Core.some]. unfold Core.bind.
  rewrite (silent x log), (silent x []).
  destruct (fst (f x [])) as [[|]|e]; try reflexivity. exact IH.
Qed.

Lemma filter_silent l : forall log,
  Core.filter f l log = (fst (Core.filter f l []), log).
Proof.
  induction l as [|x l IH]; intros log; [reflexivity|].
  cbn [Core.filter]. unfold Core.bind.
  rewrite (silent x log), (silent x []).
  destruct (fst (f x [])) as [keep|e]; [|reflexivity].
  rewrite (IH log), (IH []).
  destruct (fst (Core.filter f l [])); reflexivity.
Qed.

(** What the callback accepts. *)
Lemma filter_kept l : forall log out log',
  Core.filter f l log = (Ok out, log') ->
  log' = log
  /\ out = filter (fun x => match fst (f x []) with
                            | Ok true => true
                            | _ => false
                            end) l.
Proof.
  induction l as [|x l IH]; intros log out log'.
  - intros [= <- <-]. auto.
  - cbn [Core.filter filter]. unfold Core.bind. rewrite (silent x log).
    destruct (fst (f x [])) as [keep|e]; [|discriminate].
    destruct (Core.filter f l log) as [[rest|e] log1] eqn:Hl;
      [|discriminate].
    destruct (IH _ _ _ Hl) as [-> ->].
    unfold Core.ret. intros [= <- <-]. split; [reflexivity|].
    now destruct keep.
Qed.

End Silent.

Lemma filter_all {A : Type} (f : A -> Core.t bool) l log :
  (forall x, In x l -> forall log, f x log = (Ok true, log)) ->
  Core.filter f l log = (Ok l, log).
Proof.
  induction l as [|x l IH]; intros Hf; [reflexivity|].
  cbn [Core.filter]. unfold Core.bind. rewrite Hf by now left.
  rewrite IH; [reflexivity|]. intros y Hy. apply Hf. now right.
Qed.

Lemma some_app {A : Type} (f : A -> Core.t bool) (p : A -> bool) l1 l2 log :
  (forall x, In x l1 -> forall log, f x log = (Ok (p x), log)) ->
  Core.some f (l1 ++ l2) log
  = if existsb p l1 then (Ok true, log) else Core.some f l2 log.
Proof.
  induction l1 as [|x l1 IH]; intros Hf; [reflexivity|].
  cbn [Core.some app existsb]. unfold Core.bind. rewrite Hf by now left.
  destruct (p x); [reflexivity|]. apply IH. intros y Hy. apply Hf. now right.
Qed.

Lemma filter_none {A : Type} (l : list A) log :
  Core.filter (fun _ => Core.ret false) l log = (Ok [], log).
Proof.
  induction l as [|x l IH]; [reflexivity|].
  cbn [Core.filter]. unfold Core.bind, Core.ret at 1.
  now rewrite IH.
Qed.

(** *** The callback of [getScopedCommits] *)

Section WithEngine.
Variable engine : RegExp.Engine.

Lemma getScopedCommits_filter commits scopes :
  getScopedCommits engine commits scopes
  = Core.filter (fun commit => Core.some (scope_test engine commit) scopes)
                commits.
Proof. reflexivity. Qed.

Lemma scope_test_silent commit scope log :
  scope_test engine commit scope log
  = (fst (scope_test engine commit scope []), log).
Proof.
  unfold scope_test, Core.bind, RegExp.create.
  destruct (RegExp.compile engine (scope_pattern scope) true);
    reflexivity.
Qed.

Lemma scope_test_run commit scope log :
  well_formed engine (scope_pattern scope) true ->
  scope_test engine commit scope log
  = (Ok (pattern_matches engine (scope_pattern scope) true (message commit)),
     log).
Proof.
  intros [re Hre]. unfold scope_test, Core.bind, RegExp.create.
  unfold pattern_matches. now rewrite Hre.
Qed.

Lemma scope_test_throw commit scope e log :
  RegExp.compile engine (scope_pattern scope) true = Throw e ->
  scope_test engine commit scope log = (Throw e, log).
Proof.
  intros H. unfold scope_test, Core.bind, RegExp.create. now rewrite H.
Qed.

End WithEngine.

End ScopeFacts.

(* ================================================================== *)
(** ** Splitting at a separator *)
(* ================================================================== *)

Module SplitFacts.

Lemma split_app sep a b :
  Js.split sep (a ++ String sep b) = Js.split sep a ++ Js.split sep b.
Proof.
  induction a as [|c a IH]; cbn [Js.split String.append].
  - now rewrite Ascii.eqb_refl.
  - destruct (Ascii.eqb c sep); [now rewrite IH|].
    rewrite IH. pose proof (JsFacts.split_not_nil sep a) as Hne.
    destruct (Js.split sep a); [congruence | reflexivity].
Qed.

(** A piece holds characters of the string only, and never the
    separator. *)
Lemma split_chars sep s : forall p c,
  In p (Js.split sep s) -> In c (list_ascii_of_string p) ->
  In c (list_ascii_of_string s) /\ c <> sep.
Proof.
  induction s as [|a s IH]; intros p c; cbn [Js.split].
  - intros [<-|[]] [].
  - destruct (Ascii.eqb_spec a sep) as [->|Hne].
    + intros [<-|Hp]; [intros []|]. intros Hc.
      destruct (IH _ _ Hp Hc). split; [now right | assumption].
    + pose proof (JsFacts.split_not_nil sep s) as Hnil.
      destruct (Js.split sep s) as [|q qs]; [congruence|].
      intros [<-|Hp].
      * intros [<-|Hc]; [split; [now left | assumption]|].
        destruct (IH q c (or_introl eq_refl) Hc).
        split; [now right | assumption].
      * intros Hc. destruct (IH p c (or_intror Hp) Hc).
        split; [now right | assumption].
Qed.

Lemma split_without sep s :
  ~ In sep (list_ascii_of_string s) -> Js.split sep s = [s].
Proof.
  induction s as [|a s IH]; cbn [Js.split list_ascii_of_string];
    [reflexivity|].
  intros Hno. destruct (Ascii.eqb_spec a sep) as [->|Hne].
  - exfalso. apply Hno. now left.
  - rewrite IH; [reflexivity|]. intros H. apply Hno. now right.
Qed.

Lemma chars_app a b :
  list_ascii_of_string (a ++ b)
  = list_ascii_of_string a ++ list_ascii_of_string b.
Proof. induction a as [|c a IH]; simpl; [reflexivity | now rewrite IH]. Qed.

End SplitFacts.

(* ================================================================== *)
(** ** Array indices and the order of enumeration *)
(* ================================================================== *)

Module TableFacts.

Import Obj.

Local Open Scope N_scope.

Lemma pow10_succ n : 10 ^ N.of_nat (S n) = 10 * 10 ^ N.of_nat n.
Proof. rewrite Nat2N.inj_succ. apply N.pow_succ_r'. Qed.

Lemma pow10_pos n : 0 < 10 ^ N.of_nat n.
Proof. apply N.neq_0_lt_0, N.pow_nonzero. discriminate. Qed.

Lemma decimal_value_acc s : forall acc,
  Js.decimal_value acc s
  = acc * 10 ^ N.of_nat (String.length s) + Js.decimal_value 0 s.
Proof.
  induction s as [|c s IH]; intros acc.
  - cbn [Js.decimal_value String.length]. change (10 ^ N.of_nat 0) with 1. lia.
  - cbn [Js.decimal_value String.length].
    rewrite (IH (10 * acc + Js.digit_value c)), (IH (10 * 0 + Js.digit_value c)).
    rewrite pow10_succ. lia.
Qed.

Lemma digit_value_bound c : Js.is_digit c = true -> Js.digit_value c <= 9.
Proof.
  unfold Js.is_digit, Js.digit_value. intros H.
  apply andb_prop in H as [H1 H2].
  apply N.leb_le in H1, H2. lia.
Qed.

Lemma digit_value_inj c1 c2 :
  Js.is_digit c1 = true -> Js.is_digit c2 = true ->
  Js.digit_value c1 = Js.digit_value c2 -> c1 = c2.
Proof.
  unfold Js.is_digit, Js.digit_value. intros H1 H2 E.
  apply andb_prop in H1 as [H1 _], H2 as [H2 _].
  apply N.leb_le in H1, H2.
  rewrite <- (ascii_N_embedding c1), <- (ascii_N_embedding c2).
  f_equal. lia.
Qed.

Lemma decimal_value_bound s :
  Js.all_chars Js.is_digit s = true ->
  Js.decimal_value 0 s < 10 ^ N.of_nat (String.length s).
Proof.
  induction s as [|c s IH]; intros H.
  - cbn. lia.
  - cbn [Js.all_chars] in H. apply andb_prop in H as [Hc Hs].
    cbn [Js.decimal_value String.length].
    rewrite decimal_value_acc, pow10_succ.
    specialize (IH Hs). apply digit_value_bound in Hc. nia.
Qed.

(** Digit strings of one length with one value are equal. *)
Lemma decimal_value_inj s : forall t,
  Js.all_chars Js.is_digit s = true -> Js.all_chars Js.is_digit t = true ->
  String.length s = String.length t ->
  Js.decimal_value 0 s = Js.decimal_value 0 t -> s = t.
Proof.
  induction s as [|c s IH]; intros [|d t] Hs Ht Hlen Hval;
    try discriminate; [reflexivity|].
  cbn [Js.all_chars] in Hs, Ht.
  apply andb_prop in Hs as [Hc Hs], Ht as [Hd Ht].
  cbn [String.length] in Hlen. injection Hlen as Hlen.
  cbn [Js.decimal_value] in Hval.
  rewrite (decimal_value_acc s), (decimal_value_acc t), <- Hlen in Hval.
  pose proof (decimal_value_bound s Hs) as Bs.
  pose proof (decimal_value_bound t Ht) as Bt. rewrite <- Hlen in Bt.
  assert (Hdig : Js.digit_value c = Js.digit_value d) by nia.
  rewrite (digit_value_inj c d Hc Hd Hdig).
  f_equal. apply IH; auto. nia.
Qed.

Lemma canonical_numeral_digits s :
  Js.canonical_numeral s = true ->
  Js.all_chars Js.is_digit s = true
  /\ (s = "0"%string
      \/ 10 ^ N.of_nat (Nat.pred (String.length s)) <= Js.decimal_value 0 s).
Proof.
  destruct s as [|c [|d s]]; cbn [Js.canonical_numeral]; [discriminate| |].
  - intros Hc. split; [cbn; now rewrite Hc|].
    destruct (Ascii.eqb_spec c "0") as [->|Hne]; [now left | right].
    cbn [String.length Nat.pred Js.decimal_value].
    change (10 ^ N.of_nat 0) with 1.
    assert (Js.digit_value c <> 0).
    { intros E. apply Hne. apply digit_value_inj; auto. }
    lia.
  - intros H. apply andb_prop in H as [H Hs]. apply andb_prop in H as [Hc Hz].
    split; [cbn [Js.all_chars]; now rewrite Hc|]. right.
    change (Js.decimal_value 0 (String c (String d s)))
      with (Js.decimal_value (Js.digit_value c) (String d s)).
    rewrite decimal_value_acc.
    assert (Js.digit_value c <> 0).
    { intros E. apply negb_true_iff in Hz.
      destruct (Ascii.eqb_spec c "0") as [|Hne]; [discriminate|].
      apply Hne. apply digit_value_inj; auto. }
    change (Nat.pred (String.length (String c (String d s))))
      with (String.length (String d s)).
    pose proof (pow10_pos (String.length (String d s))) as Hpos.
    set (P := 10 ^ N.of_nat (String.length (String d s))) in *.
    nia.
Qed.

Lemma canonical_numeral_inj s t :
  Js.canonical_numeral s = true -> Js.canonical_numeral t = true ->
  Js.decimal_value 0 s = Js.decimal_value 0 t -> s = t.
Proof.
  intros Hs Ht Hval.
  destruct (canonical_numeral_digits s Hs) as [Ds Ls].
  destruct (canonical_numeral_digits t Ht) as [Dt Lt].
  pose proof (decimal_value_bound s Ds) as Bs.
  pose proof (decimal_value_bound t Dt) as Bt.
  assert (Hmono : forall a b : nat, (a < b)%nat ->
                    10 ^ N.of_nat a <= 10 ^ N.of_nat (Nat.pred b)).
  { intros a b Hab. apply N.pow_le_mono_r; lia. }
  assert (Hne : forall u, Js.canonical_numeral u = true ->
                          (0 < String.length u)%nat).
  { intros [|? ?]; cbn; [discriminate | lia]. }
  pose proof (Hne s Hs). pose proof (Hne t Ht).
  assert (Hzero : forall u, Js.canonical_numeral u = true ->
                    Js.decimal_value 0 u = 0 -> u = "0"%string).
  { intros u Hu Hv. destruct (canonical_numeral_digits u Hu) as [_ [E|L]];
      [exact E|].
    pose proof (pow10_pos (Nat.pred (String.length u))). lia. }
  destruct Ls as [->|Ls].
  { symmetry. apply Hzero; [exact Ht | now rewrite <- Hval]. }
  destruct Lt as [->|Lt].
  { apply Hzero; [exact Hs | exact Hval]. }
  apply decimal_value_inj; auto.
  destruct (Nat.lt_trichotomy (String.length s) (String.length t))
    as [Hlt|[E|Hgt]]; [|exact E|].
  - pose proof (Hmono _ _ Hlt). lia.
  - pose proof (Hmono _ _ Hgt). lia.
Qed.

(** A number is the index of one key only. *)
Lemma array_index_inj k1 k2 n :
  array_index k1 = Some n -> array_index k2 = Some n -> k1 = k2.
Proof.
  unfold array_index.
  destruct (Js.canonical_numeral k1) eqn:H1; [|discriminate].
  destruct (Js.canonical_numeral k2) eqn:H2; [|discriminate].
  destruct (Js.decimal_value 0 k1 <? 4294967295); [|discriminate].
  destruct (Js.decimal_value 0 k2 <? 4294967295); [|discriminate].
  intros [= E1] [= E2]. apply canonical_numeral_inj; auto. congruence.
Qed.

Lemma flat_map_agree {A B : Type} (f g : A -> list B) l :
  (forall x, In x l -> f x = g x) -> flat_map f l = flat_map g l.
Proof.
  induction l as [|x l IH]; intros H; [reflexivity|].
  cbn [flat_map]. rewrite H by now left.
  f_equal. apply IH. intros y Hy. apply H. now right.
Qed.

(** *** Objects in the order of enumeration *)

Section Canonical.
Variable V : Type.
Implicit Types (o : Obj.t V) (k : string) (v : V).

Lemma insert_index_last n k v o :
  Forall (fun k' => exists n', array_index k' = Some n' /\ n' < n) (keys o) ->
  insert_index n k v o = o ++ [(k, v)].
Proof.
  induction o as [|[k' v'] o IH]; cbn [insert_index keys List.map fst app];
    intros H; [reflexivity|].
  inversion H as [|? ? [n' [Hk' Hlt]] Hrest]; subst.
  rewrite Hk'. apply N.ltb_lt in Hlt. rewrite Hlt.
  now rewrite (IH Hrest).
Qed.

Lemma sorted_append k v o :
  array_index k = None ->
  StronglySorted enum_before (keys o) ->
  StronglySorted enum_before (keys (o ++ [(k, v)])).
Proof.
  intros Hk. induction o as [|[k' v'] o IH]; cbn [keys List.map fst app].
  - intros _. repeat constructor.
  - intros Hs. apply StronglySorted_inv in Hs as [Hs Hall].
    constructor; [now apply IH|].
    unfold keys. rewrite map_app. apply Forall_app. split; [exact Hall|].
    constructor; [|constructor].
    unfold enum_before. cbn [List.map fst]. rewrite Hk.
    now destruct (array_index k').
Qed.

Lemma sorted_insert_index n k v o :
  array_index k = Some n -> ~ In k (keys o) ->
  StronglySorted enum_before (keys o) ->
  StronglySorted enum_before (keys (insert_index n k v o)).
Proof.
  intros Hk. induction o as [|[k' v'] o IH];
    cbn [insert_index keys List.map fst]; intros Hnotin Hs.
  - repeat constructor.
  - pose proof Hs as Hs0.
    apply StronglySorted_inv in Hs as [Hs Hall].
    assert (Hne : k <> k') by (intros ->; apply Hnotin; now left).
    assert (Hnotin' : ~ In k (keys o)) by (intros H; apply Hnotin; now right).
    destruct (array_index k') as [n'|] eqn:Hk'.
    + destruct (n' <? n) eqn:Hlt; cbn [List.map fst].
      * constructor; [now apply IH|].
        eapply Permutation_Forall;
          [symmetry; apply ObjFacts.keys_insert_index|].
        constructor; [|exact Hall].
        unfold enum_before. rewrite Hk', Hk. now apply N.ltb_lt.
      * apply N.ltb_ge in Hlt.
        assert (Hlt' : n < n').
        { apply N.le_neq. split; [exact Hlt|]. intros ->.
          apply Hne. now apply array_index_inj with (n := n'). }
        constructor; [exact Hs0|]. constructor.
        -- unfold enum_before. now rewrite Hk, Hk'.
        -- eapply Forall_impl; [|exact Hall].
           intros k2. unfold enum_before. rewrite Hk, Hk'.
           destruct (array_index k2); [lia | trivial].
    + cbn [List.map fst]. constructor; [exact Hs0|]. constructor.
      * unfold enum_before. now rewrite Hk, Hk'.
      * eapply Forall_impl; [|exact Hall].
        intros k2. unfold enum_before. rewrite Hk, Hk'.
        destruct (array_index k2); [tauto | trivial].
Qed.

Lemma canonical_set k v o : canonical o -> canonical (set k v o).
Proof.
  intros [Hnd Hs]. split; [now apply ObjFacts.NoDup_keys_set|].
  unfold set. destruct (get k o) eqn:Hget.
  - now rewrite ObjFacts.keys_replace.
  - apply ObjFacts.get_None_keys in Hget.
    destruct (array_index k) as [n|] eqn:Hk.
    + now apply sorted_insert_index.
    + now apply sorted_append.
Qed.

Lemma canonical_spread (src target : Obj.t V) :
  canonical target -> canonical (spread src target).
Proof.
  unfold spread. revert target.
  induction src as [|[k v] src IH]; cbn [fold_left fst snd]; intros target H;
    [exact H|].
  apply IH. now apply canonical_set.
Qed.

Lemma canonical_literal (props : list (string * V)) :
  canonical (literal props).
Proof. apply canonical_spread. split; constructor. Qed.

Lemma canonical_app_inv (o1 : Obj.t V) k v (o2 : Obj.t V) :
  canonical (o1 ++ (k, v) :: o2) ->
  get k o1 = None
  /\ match array_index k with
     | Some n =>
         Forall (fun k' => exists n', array_index k' = Some n' /\ n' < n)
                (keys o1)
     | None => True
     end.
Proof.
  unfold canonical, keys. rewrite map_app. cbn [List.map fst].
  intros [Hnd Hs]. split.
  - apply ObjFacts.get_None_keys. apply NoDup_remove_2 in Hnd.
    intros H. apply Hnd. apply in_or_app. now left.
  - destruct (array_index k) as [n|] eqn:Hk; [|trivial].
    induction o1 as [|[k' v'] o1 IH]; [constructor|].
    cbn [List.map fst app] in *.
    apply StronglySorted_inv in Hs as [Hs Hall].
    inversion Hnd as [|? ? _ Hnd']; subst.
    constructor; [|now apply IH].
    rewrite Forall_forall in Hall.
    assert (Hin : In k (List.map fst o1 ++ k :: List.map fst o2))
      by (apply in_or_app; right; now left).
    specialize (Hall k Hin).
    unfold enum_before in Hall. rewrite Hk in Hall.
    destruct (array_index k') as [n'|]; [eauto | contradiction].
Qed.

Lemma fold_set_canonical (o2 : Obj.t V) : forall o1 : Obj.t V,
  canonical (o1 ++ o2) ->
  fold_left (fun acc p => set (fst p) (snd p) acc) o2 o1 = o1 ++ o2.
Proof.
  induction o2 as [|[k v] o2 IH]; intros o1 Hc; cbn [fold_left fst snd].
  - now rewrite app_nil_r.
  - destruct (canonical_app_inv _ _ _ _ Hc) as [Hget Hidx].
    assert (Hset : set k v o1 = o1 ++ [(k, v)]).
    { unfold set. rewrite Hget.
      destruct (array_index k) as [n|]; [|reflexivity].
      now apply insert_index_last. }
    rewrite Hset, IH; rewrite <- app_assoc; [reflexivity | exact Hc].
Qed.

(** A copy of an object enumerates as the object does. *)
Lemma spread_canonical o : canonical o -> spread o [] = o.
Proof. intros H. unfold spread. now rewrite fold_set_canonical. Qed.

Lemma replace_replace k v1 v2 o :
  replace k v2 (replace k v1 o) = replace k v2 o.
Proof.
  induction o as [|[k' v'] o IH]; cbn [replace]; [reflexivity|].
  destruct (String.eqb k k') eqn:E; cbn [replace]; rewrite E;
    [reflexivity | now rewrite IH].
Qed.

Lemma replace_insert_index n k v1 v2 o :
  get k o = None ->
  replace k v2 (insert_index n k v1 o) = insert_index n k v2 o.
Proof.
  induction o as [|[k' v'] o IH]; cbn [insert_index replace get];
    intros Hget.
  - now rewrite String.eqb_refl.
  - destruct (String.eqb k k') eqn:E; [discriminate|].
    destruct (array_index k') as [n'|].
    + destruct (n' <? n); cbn [replace].
      * rewrite E. now rewrite (IH Hget).
      * now rewrite String.eqb_refl.
    + cbn [replace]. now rewrite String.eqb_refl.
Qed.

Lemma replace_app_last k v1 v2 o :
  get k o = None ->
  replace k v2 (o ++ [(k, v1)]) = o ++ [(k, v2)].
Proof.
  induction o as [|[k' v'] o IH]; cbn [app replace get]; intros Hget.
  - now rewrite String.eqb_refl.
  - destruct (String.eqb k k') eqn:E; [discriminate|].
    now rewrite (IH Hget).
Qed.

(** Of two assignments to one key in a row, the second is what counts. *)
Lemma set_set k v1 v2 o : set k v2 (set k v1 o) = set k v2 o.
Proof.
  unfold set at 1. rewrite ObjFacts.get_set, String.eqb_refl.
  unfold set. destruct (get k o) eqn:Hget.
  - apply replace_replace.
  - destruct (array_index k).
    + now apply replace_insert_index.
    + now apply replace_app_last.
Qed.

Lemma keys_set_known k v o : In k (keys o) -> keys (set k v o) = keys o.
Proof.
  intros Hin. unfold set. destruct (get k o) eqn:Hget.
  - apply ObjFacts.keys_replace.
  - apply ObjFacts.get_None_keys in Hget. contradiction.
Qed.

Lemma keys_set_new k v o :
  ~ In k (keys o) -> array_index k = None ->
  keys (set k v o) = keys o ++ [k].
Proof.
  intros Hnotin Hk. apply ObjFacts.get_None_keys in Hnotin.
  unfold set. rewrite Hnotin, Hk. unfold keys. now rewrite map_app.
Qed.

Lemma values_keys o :
  NoDup (keys o) ->
  values o
  = flat_map (fun k => match get k o with Some v => [v] | None => [] end)
             (keys o).
Proof.
  induction o as [|[k v] o IH]; cbn [values keys List.map fst snd flat_map];
    intros Hnd; [reflexivity|].
  inversion Hnd as [|? ? Hnotin Hnd']; subst.
  cbn [get]. rewrite String.eqb_refl. cbn [app]. f_equal.
  fold (values o). rewrite (IH Hnd'). apply flat_map_agree.
  intros k' Hk'. cbn [get].
  destruct (String.eqb_spec k' k) as [->|]; [contradiction | reflexivity].
Qed.

End Canonical.

End TableFacts.

(* ================================================================== *)
(** ** The merged table, key by key *)
(* ================================================================== *)

Module MergeFacts.

Lemma new_keys_spec k ks : forall seen,
  In k (new_keys seen ks) -> In k ks /\ ~ In k seen.
Proof.
  induction ks as [|k' ks IH]; intros seen; cbn [new_keys]; [intros []|].
  destruct (existsb (String.eqb k') seen) eqn:E.
  - intros H. destruct (IH _ H). split; [now right | assumption].
  - intros [<-|H].
    + split; [now left|]. intros Hin.
      assert (existsb (String.eqb k') seen = true).
      { apply existsb_exists. exists k'. split; [exact Hin|].
        apply String.eqb_refl. }
      congruence.
    + destruct (IH _ H) as [H1 H2]. split; [now right|].
      intros Hin. apply H2. apply in_or_app. now left.
Qed.

Lemma last_writer_type k rules r :
  last_writer k rules = Some r -> type r = k /\ In r rules.
Proof.
  induction rules as [|r' rules IH]; cbn [last_writer]; [discriminate|].
  destruct (last_writer k rules) as [later|].
  - intros [= <-]. destruct (IH eq_refl). split; [assumption | now right].
  - destruct (String.eqb_spec (type r') k) as [E|]; [|discriminate].
    intros [= <-]. split; [exact E | now left].
Qed.

Lemma last_writer_In k rules r :
  In r rules -> type r = k -> exists r', last_writer k rules = Some r'.
Proof.
  induction rules as [|r' rules IH]; cbn [last_writer]; [intros []|].
  intros [->|Hin] Hk.
  - destruct (last_writer k rules); [eauto|].
    rewrite Hk, String.eqb_refl. eauto.
  - destruct (IH Hin Hk) as [r'' ->]. eauto.
Qed.

Section WithDefaults.
Variable defaultsLiteral : list (string * Rule).

Lemma canonical_defaults : canonical (defaultChangelogRules defaultsLiteral).
Proof. apply TableFacts.canonical_literal. Qed.

Lemma fold_copy (rules : list Rule) : forall acc : Obj.t Rule,
  canonical acc ->
  fold_left (fun acc curr => Obj.set (type curr) curr (Obj.spread acc []))
            rules acc
  = fold_left (fun acc curr => Obj.set (type curr) curr acc) rules acc
  /\ canonical
       (fold_left (fun acc curr => Obj.set (type curr) curr acc) rules acc).
Proof.
  induction rules as [|r rules IH]; intros acc Hc; cbn [fold_left].
  - split; [reflexivity | exact Hc].
  - rewrite (TableFacts.spread_canonical Hc).
    apply IH. now apply TableFacts.canonical_set.
Qed.

(** The table without the copies. *)
Lemma mergedRules_fold rules :
  mergedRules defaultsLiteral rules
  = fold_left (fun acc curr => Obj.set (type curr) curr acc) rules
              (defaultChangelogRules defaultsLiteral).
Proof.
  unfold mergedRules.
  rewrite (TableFacts.spread_canonical canonical_defaults).
  apply fold_copy, canonical_defaults.
Qed.

Lemma canonical_mergedRules rules :
  canonical (mergedRules defaultsLiteral rules).
Proof. rewrite mergedRules_fold. apply fold_copy, canonical_defaults. Qed.

Lemma keys_fold (rules : list Rule) : forall acc : Obj.t Rule,
  (forall r, In r rules ->
             In (type r) (Obj.keys acc) \/ Obj.array_index (type r) = None) ->
  Obj.keys (fold_left (fun acc curr => Obj.set (type curr) curr acc) rules acc)
  = Obj.keys acc ++ new_keys (Obj.keys acc) (List.map type rules).
Proof.
  induction rules as [|r rules IH]; intros acc H;
    cbn [fold_left List.map new_keys].
  - now rewrite app_nil_r.
  - destruct (existsb (String.eqb (type r)) (Obj.keys acc)) eqn:E.
    + apply existsb_exists in E as [k [Hin Hk]].
      apply String.eqb_eq in Hk. subst k.
      rewrite IH; rewrite (@TableFacts.keys_set_known _ _ _ _ Hin);
        [reflexivity|].
      intros r' Hr'. apply H. now right.
    + assert (Hnotin : ~ In (type r) (Obj.keys acc)).
      { intros Hin.
        assert (existsb (String.eqb (type r)) (Obj.keys acc) = true).
        { apply existsb_exists. exists (type r). split; [exact Hin|].
          apply String.eqb_refl. }
        congruence. }
      assert (Hk : Obj.array_index (type r) = None).
      { destruct (H r (or_introl eq_refl)); [contradiction | assumption]. }
      rewrite IH; rewrite (@TableFacts.keys_set_new _ _ _ _ Hnotin Hk).
      * now rewrite <- app_assoc.
      * intros r' Hr'. destruct (H r' (or_intror Hr')) as [Hin|Hidx];
          [left; apply in_or_app; now left | now right].
Qed.

(** The values of the merged table, key by key. *)
Lemma values_mergedRules rules :
  Obj.values (mergedRules defaultsLiteral rules)
  = flat_map
      (fun k =>
         match last_writer k rules with
         | Some r => [r]
         | None =>
             match Obj.get k (defaultChangelogRules defaultsLiteral) with
             | Some d => [d]
             | None => []
             end
         end)
      (Obj.keys (mergedRules defaultsLiteral rules)).
Proof.
  rewrite TableFacts.values_keys by apply NoDup_mergedRules.
  apply TableFacts.flat_map_agree. intros k _.
  rewrite get_mergedRules. now destruct (last_writer k rules).
Qed.

Lemma defaults_entries rules (l : Obj.t Rule) :
  incl l (defaultChangelogRules defaultsLiteral) ->
  flat_map
    (fun k =>
       match last_writer k rules with
       | Some r => [r]
       | None =>
           match Obj.get k (defaultChangelogRules defaultsLiteral) with
           | Some d => [d]
           | None => []
           end
       end)
    (Obj.keys l)
  = List.map (fun entry => match last_writer (fst entry) rules with
                           | Some r => r
                           | None => snd entry
                           end) l.
Proof.
  induction l as [|[k d] l IH]; intros Hincl; [reflexivity|].
  cbn [Obj.keys List.map flat_map fst snd].
  fold (Obj.keys l). rewrite IH by (intros e He; apply Hincl; now right).
  rewrite (@ObjFacts.get_Some_In _ k d _ (NoDup_defaultChangelogRules _))
    by (apply Hincl; now left).
  now destruct (last_writer k rules).
Qed.

End WithDefaults.

Lemma variants_fold (defaultsLiteral : list (string * Rule))
      (rules : list string) : forall acc : Obj.t Rule,
  fold_left (fun acc curr => Obj.set (type curr) curr acc)
            (flat_map (variants defaultsLiteral) rules) acc
  = fold_left (fun acc curr => Obj.set (type curr) curr acc)
              (List.map (literal_variant defaultsLiteral) rules) acc.
Proof.
  induction rules as [|rule rules IH]; intros acc; [reflexivity|].
  cbn [flat_map variants app List.map fold_left].
  cbn [type major_variant literal_variant].
  now rewrite TableFacts.set_set, IH.
Qed.

Lemma variants_not_breaking (defaultsLiteral : list (string * Rule))
      (rules : list string) :
  filter not_breaking (flat_map (variants defaultsLiteral) rules)
  = List.map (literal_variant defaultsLiteral) rules.
Proof.
  induction rules as [|rule rules IH]; [reflexivity|].
  cbn [flat_map variants app filter List.map]. unfold not_breaking at 1 2.
  cbn [breaking major_variant literal_variant]. now rewrite IH.
Qed.

Lemma NoDup_map_filter {A B : Type} (f : A -> B) (p : A -> bool) l :
  NoDup (List.map f l) -> NoDup (List.map f (filter p l)).
Proof.
  induction l as [|x l IH]; cbn [List.map filter]; [auto|].
  intros H. inversion H as [|? ? Hnotin Hnd]; subst.
  destruct (p x); cbn [List.map]; [|auto].
  constructor; [|auto].
  intros Hin. apply Hnotin. apply in_map_iff in Hin as [y [E Hy]].
  apply filter_In in Hy as [Hy _]. rewrite <- E. now apply in_map.
Qed.

End MergeFacts.


(* ################################################################## *)
(** * Part III: the properties of the specification *)
(* ################################################################## *)

(* ================================================================== *)
(** ** Release-rule expander *)
(* ================================================================== *)

(** Two runs of the expander under the sample configuration: a rule
    without section whose type has no default, and a rule with an unknown
    release. *)
Example mapCustomReleaseRules_build_patch :
  mapCustomReleaseRules Sample.DEFAULT_RELEASE_TYPES Sample.defaultsLiteral
    "build:patch" []
  = (Ok [ {| type := "build"; release := Some "major";
             section := None; breaking := Some true |};
          {| type := "build"; release := Some "patch";
             section := None; breaking := Some false |} ],
     [ Debug "build:patch doesn't mention the section for the changelog.";
       Debug "The commits matching this rule won't be included in the changelog." ]).
Proof. reflexivity. Qed.

Example mapCustomReleaseRules_unknown_release :
  mapCustomReleaseRules Sample.DEFAULT_RELEASE_TYPES Sample.defaultsLiteral
    "build:notarealtype" []
  = (Ok [],
     [ Debug "build:notarealtype doesn't mention the section for the changelog.";
       Debug "The commits matching this rule won't be included in the changelog.";
       Warning "notarealtype is not a valid release type." ]).
Proof. reflexivity. Qed.

(** C1, as stated, fails on a rule whose third part is present but empty.
    With the sample table, ["feat:minor:"] is accepted and its third part
    is the empty string; the claim makes that string the section of both
    rules, while the code falls back to the default section of [feat]. *)
Lemma mapCustomReleaseRules_empty_third_part :
  accepted Sample.DEFAULT_RELEASE_TYPES "feat:minor:" = true
  /\ nth_error (rule_parts "feat:minor:") 2 = Some ""
  /\ fst (mapCustomReleaseRules Sample.DEFAULT_RELEASE_TYPES
            Sample.defaultsLiteral "feat:minor:" [])
     = Ok [ {| type := "feat"; release := Some "major";
               section := Some "Features"; breaking := Some true |};
            {| type := "feat"; release := Some "minor";
               section := Some "Features"; breaking := Some false |} ]
  /\ fst (mapCustomReleaseRules Sample.DEFAULT_RELEASE_TYPES
            Sample.defaultsLiteral "feat:minor:" [])
     <> Ok (flat_map (variants_as_given Sample.defaultsLiteral)
              (filter (accepted Sample.DEFAULT_RELEASE_TYPES)
                      (Js.split "," "feat:minor:"))).
Proof.
  repeat split; try reflexivity.
  vm_compute. discriminate.
Qed.

(** C1, in the form that holds: for every input string,
    [mapCustomReleaseRules] returns the concatenation, in input order, of
    the expansions of the accepted rules (at least two colon-separated
    parts, release in the allowed list). Each accepted rule expands to
    exactly two rules of the same type and section: first release
    ["major"] with [breaking: true], then the rule's own release with
    [breaking: false]. The section is the third part when it is present
    and not empty, and otherwise the section of the default table looked
    up by the lowercased type. *)
Theorem mapCustomReleaseRules_expands_accepted_rules :
  forall (types : list string) (defaults : list (string * Rule))
         (s : string) (log : list Diagnostic),
  exists log',
    mapCustomReleaseRules types defaults s log
    = (Ok (flat_map (variants defaults)
             (filter (accepted types) (Js.split "," s))), log')
    /\ forall rule, accepted types rule = true ->
       exists ty rel,
         nth_error (rule_parts rule) 0 = Some ty
         /\ nth_error (rule_parts rule) 1 = Some rel
         /\ In rel types
         /\ let sec :=
              match nth_error (rule_parts rule) 2 with
              | Some third =>
                  if String.eqb third "" then default_section defaults ty
                  else Some third
              | None => default_section defaults ty
              end in
            variants defaults rule
            = [ {| type := ty; release := Some "major";
                   section := sec; breaking := Some true |};
                {| type := ty; release := Some rel;
                   section := sec; breaking := Some false |} ].
Proof.
  intros types defaults s log.
  eexists. split; [apply mapCustomReleaseRules_run|].
  intros rule Hacc.
  destruct (accepted_parts _ _ Hacc) as [rel [H0 [H1 Hin]]].
  exists (rule_type rule), rel. repeat split; auto.
  unfold variants, major_variant, literal_variant, rule_section.
  rewrite H1.
  destruct (nth_error (rule_parts rule) 2) as [[|c third]|]; reflexivity.
Qed.

(** The expansion of ["build:patch,feat:minor:New"] under the sample
    configuration. *)
Lemma mapCustomReleaseRules_expands_accepted_rules_witness :
  exists ty rel,
    nth_error (rule_parts "build:patch") 0 = Some ty
    /\ nth_error (rule_parts "build:patch") 1 = Some rel
    /\ In rel Sample.DEFAULT_RELEASE_TYPES
    /\ variants Sample.defaultsLiteral "build:patch"
       = [ {| type := ty; release := Some "major";
              section := default_section Sample.defaultsLiteral ty;
              breaking := Some true |};
           {| type := ty; release := Some rel;
              section := default_section Sample.defaultsLiteral ty;
              breaking := Some false |} ].
Proof.
  destruct (mapCustomReleaseRules_expands_accepted_rules
              Sample.DEFAULT_RELEASE_TYPES Sample.defaultsLiteral
              "build:patch,feat:minor:New" []) as [log' [_ H]].
  exact (H "build:patch" eq_refl).
Defined.

(** C3: the guard of the two debug messages compares the length of the
    rule string with 3, not the number of its parts. The rule ["a:b"] has
    exactly two parts and no section, yet whatever the configuration no
    debug diagnostic is emitted for it; and ["feat:minor:New"], which
    names its section, is told it "doesn't mention the section". *)
Theorem mapCustomReleaseRules_debug_guard_on_string_length :
  forall (types : list string) (defaults : list (string * Rule))
         (log : list Diagnostic),
    List.length (rule_parts "a:b") = 2
    /\ (exists out diags,
          mapCustomReleaseRules types defaults "a:b" log
          = (Ok out, log ++ diags)
          /\ forall msg, ~ In (Debug msg) diags)
    /\ List.length (rule_parts "feat:minor:New") = 3
    /\ (exists out diags,
          mapCustomReleaseRules types defaults "feat:minor:New" log
          = (Ok out, log ++ diags)
          /\ In (Debug
                   "feat:minor:New doesn't mention the section for the changelog.")
                diags).
Proof.
  intros types defaults log. split; [reflexivity|]. split; [|split].
  - rewrite mapCustomReleaseRules_run. do 2 eexists. split; [reflexivity|].
    intros msg. cbn [Js.split flat_map Ascii.eqb Bool.eqb].
    unfold rule_diagnostics. cbn -[Js.includes].
    destruct (Js.includes types (Some "b")); cbn; intuition discriminate.
  - reflexivity.
  - rewrite mapCustomReleaseRules_run. do 2 eexists. split; [reflexivity|].
    cbn [Js.split flat_map Ascii.eqb Bool.eqb].
    unfold rule_diagnostics. cbn -[Js.includes Obj.lookup Js.toLowerCase].
    now left.
Qed.

(** C4: [mapCustomReleaseRules] never throws. It rejects exactly the rules
    with fewer than two colon-separated parts and the rules whose release
    is not in the allowed list; it emits one warning for each rejected
    rule, in input order, and none for an accepted rule; the output holds
    the expansions of the accepted rules only, so the rules that follow a
    rejected one are still processed. *)
Theorem mapCustomReleaseRules_rejects_and_continues :
  forall (types : list string) (defaults : list (string * Rule))
         (s : string) (log : list Diagnostic),
  exists out diags,
    mapCustomReleaseRules types defaults s log = (Ok out, log ++ diags)
    /\ out = flat_map (variants defaults)
               (filter (accepted types) (Js.split "," s))
    /\ filter is_warning diags
       = List.map rejection_warning
           (filter (fun rule => negb (accepted types rule))
                   (Js.split "," s))
    /\ (forall rule,
          accepted types rule = false <->
          (List.length (rule_parts rule) < 2
           \/ Js.includes types (nth_error (rule_parts rule) 1) = false))
    /\ (forall rule,
          In rule (Js.split "," s) -> accepted types rule = false ->
          In (rejection_warning rule) diags)
    /\ (forall r,
          In r out ->
          exists rule,
            In rule (Js.split "," s) /\ accepted types rule = true
            /\ In r (variants defaults rule)).
Proof.
  intros types defaults s log. do 2 eexists.
  split; [apply mapCustomReleaseRules_run|].
  split; [reflexivity|].
  split; [apply warnings_of_rules|].
  split; [apply rejected_iff|].
  split.
  - intros rule Hin Hrej.
    assert (Hw : In (rejection_warning rule)
                    (filter is_warning
                       (flat_map (rule_diagnostics types defaults)
                                 (Js.split "," s)))).
    { rewrite warnings_of_rules. apply in_map, filter_In.
      now rewrite Hrej. }
    now apply filter_In in Hw.
  - intros r Hin. apply in_flat_map in Hin as [rule [Hrule Hr]].
    apply filter_In in Hrule as [Hrule Hacc]. eauto.
Qed.

(** Under the sample configuration, ["x,build:notarealtype,fix:minor"]
    gives one warning for each of the first two rules and the expansion
    of the third. *)
Lemma mapCustomReleaseRules_rejects_and_continues_witness :
  exists out diags,
    mapCustomReleaseRules Sample.DEFAULT_RELEASE_TYPES Sample.defaultsLiteral
      "x,build:notarealtype,fix:minor" [] = (Ok out, [] ++ diags)
    /\ List.map type out = ["fix"; "fix"]
    /\ In (Warning "x is not a valid custom release definition.") diags
    /\ In (Warning "notarealtype is not a valid release type.") diags.
Proof.
  destruct (mapCustomReleaseRules_rejects_and_continues
              Sample.DEFAULT_RELEASE_TYPES Sample.defaultsLiteral
              "x,build:notarealtype,fix:minor" [])
    as [out [diags [Hrun [Hout [_ [_ [Hwarn _]]]]]]].
  exists out, diags. split; [exact Hrun|].
  split; [rewrite Hout; reflexivity|].
  split.
  - exact (Hwarn "x" (or_introl eq_refl) eq_refl).
  - exact (Hwarn "build:notarealtype" (or_intror (or_introl eq_refl)) eq_refl).
Defined.

(* ================================================================== *)
(** ** Rule merger *)
(* ================================================================== *)

(** Under the sample configuration, a custom rule for [docs] without
    section takes the place of the default entry in the table and is then
    dropped from the output, so no rule of type [docs] is left. *)
Example mergeWithDefaultChangelogRules_prunes_docs :
  mergeWithDefaultChangelogRules Sample.defaultsLiteral
    [ {| type := "docs"; release := Some "minor";
         section := None; breaking := Some false |} ]
  = [ {| type := "feat"; release := Some "minor";
         section := Some "Features"; breaking := None |};
      {| type := "fix"; release := Some "patch";
         section := Some "Bug Fixes"; breaking := None |} ].
Proof. reflexivity. Qed.

(** C2: the merged table starts from the default table and, for every
    key, holds the last rule of the argument with that [type] when there
    is one and the default entry otherwise. Of the two variants of one
    custom rule the literal one, emitted second, is the entry of the
    rule's type; after the expander, the entry of every type a custom
    rule names is the literal variant (with [breaking: false]) of the last
    accepted rule of that type, never a breaking variant. The returned
    list holds exactly the entries of the table whose section is
    truthy: the table binds each key once, and the list is its values
    filtered on the section. *)
Theorem mergeWithDefaultChangelogRules_last_writer_wins :
  forall (types : list string) (defaults : list (string * Rule)),
    (forall rules k,
        Obj.get k (mergedRules defaults rules)
        = match last_writer k rules with
          | Some r => Some r
          | None => Obj.get k (defaultChangelogRules defaults)
          end)
    /\ (forall rules rule,
          Obj.get (rule_type rule)
                  (mergedRules defaults (rules ++ variants defaults rule))
          = Some (literal_variant defaults rule))
    /\ (forall s log,
        exists out log',
          mapCustomReleaseRules types defaults s log = (Ok out, log')
          /\ forall rule,
               In rule (Js.split "," s) -> accepted types rule = true ->
               exists last,
                 last_rule_of_type (rule_type rule)
                   (filter (accepted types) (Js.split "," s)) = Some last
                 /\ Obj.get (rule_type rule) (mergedRules defaults out)
                    = Some (literal_variant defaults last)
                 /\ breaking (literal_variant defaults last) = Some false
                 /\ forall any,
                      Obj.get (rule_type rule) (mergedRules defaults out)
                      <> Some (major_variant defaults any))
    /\ (forall rules r,
          In r (mergeWithDefaultChangelogRules defaults rules) <->
          (exists k, Obj.get k (mergedRules defaults rules) = Some r)
          /\ Js.truthy (section r) = true)
    /\ (forall rules,
          NoDup (Obj.keys (mergedRules defaults rules))
          /\ mergeWithDefaultChangelogRules defaults rules
             = filter (fun r => Js.truthy (section r))
                      (Obj.values (mergedRules defaults rules))).
Proof.
  intros types defaults. split; [|split; [|split; [|split]]].
  - intros rules k. apply get_mergedRules.
  - intros rules rule. rewrite get_mergedRules, last_writer_app.
    unfold variants. simpl. now rewrite String.eqb_refl.
  - intros s log. do 2 eexists.
    split; [apply mapCustomReleaseRules_run|].
    intros rule Hin Hacc.
    destruct (@last_rule_of_type_exists
                (filter (accepted types) (Js.split "," s)) rule)
      as [last Hlast].
    { apply filter_In. auto. }
    exists last. split; [exact Hlast|].
    assert (Hget : Obj.get (rule_type rule)
                     (mergedRules defaults
                        (flat_map (variants defaults)
                           (filter (accepted types) (Js.split "," s))))
                   = Some (literal_variant defaults last)).
    { now rewrite get_mergedRules, last_writer_variants, Hlast. }
    split; [exact Hget|]. split; [reflexivity|].
    intros any. rewrite Hget. discriminate.
  - intros rules r. apply In_mergeWithDefaultChangelogRules.
  - intros rules. split; [apply NoDup_mergedRules | reflexivity].
Qed.

(** Under the sample configuration, ["fix:minor:Fixes,fix:patch"] leaves
    for [fix] the literal variant of the second rule. *)
Lemma mergeWithDefaultChangelogRules_last_writer_wins_witness :
  exists out,
    fst (mapCustomReleaseRules Sample.DEFAULT_RELEASE_TYPES
           Sample.defaultsLiteral "fix:minor:Fixes,fix:patch" []) = Ok out
    /\ Obj.get "fix" (mergedRules Sample.defaultsLiteral out)
       = Some {| type := "fix"; release := Some "patch";
                 section := Some "Bug Fixes"; breaking := Some false |}.
Proof.
  destruct (mergeWithDefaultChangelogRules_last_writer_wins
              Sample.DEFAULT_RELEASE_TYPES Sample.defaultsLiteral)
    as [_ [_ [H _]]].
  destruct (H "fix:minor:Fixes,fix:patch" []) as [out [log' [Hrun Hlast]]].
  exists out. split; [now rewrite Hrun|].
  destruct (Hlast "fix:minor:Fixes" (or_introl eq_refl) eq_refl)
    as [last [Hl [Hget _]]].
  injection Hl as <-. exact Hget.
Defined.

(** C10, as stated, fails in two ways. A custom rule whose type differs
    from a default key in letter case only does not protect the default
    entry from another custom rule that has the key itself as its type:
    under the sample table, ["docs:patch:Custom,Docs:minor"] holds the
    accepted rule ["Docs:minor"], yet the default entry of [docs] is not
    in the output. And the entry of such a custom rule is itself replaced
    by a later accepted rule of the same type: for
    ["Docs:minor:A,Docs:patch:B"] the entry of ["Docs:minor:A"] is not in
    the output. In both cases the sections concerned are truthy. *)
Lemma mergeWithDefaultChangelogRules_case_variant_entries_replaced :
  (exists out,
      fst (mapCustomReleaseRules Sample.DEFAULT_RELEASE_TYPES
             Sample.defaultsLiteral "docs:patch:Custom,Docs:minor" [])
      = Ok out
      /\ accepted Sample.DEFAULT_RELEASE_TYPES "Docs:minor" = true
      /\ rule_type "Docs:minor" <> "docs"
      /\ Js.toLowerCase (rule_type "Docs:minor") = "docs"
      /\ Obj.get "docs" (defaultChangelogRules Sample.defaultsLiteral)
         = Some {| type := "docs"; release := None;
                   section := Some "Documentation"; breaking := None |}
      /\ Js.truthy
           (section (literal_variant Sample.defaultsLiteral "Docs:minor"))
         = true
      /\ ~ In {| type := "docs"; release := None;
                 section := Some "Documentation"; breaking := None |}
              (mergeWithDefaultChangelogRules Sample.defaultsLiteral out))
  /\ (exists out,
        fst (mapCustomReleaseRules Sample.DEFAULT_RELEASE_TYPES
               Sample.defaultsLiteral "Docs:minor:A,Docs:patch:B" [])
        = Ok out
        /\ accepted Sample.DEFAULT_RELEASE_TYPES "Docs:minor:A" = true
        /\ rule_type "Docs:minor:A" <> "docs"
        /\ Js.toLowerCase (rule_type "Docs:minor:A") = "docs"
        /\ literal_variant Sample.defaultsLiteral "Docs:minor:A"
           = {| type := "Docs"; release := Some "minor";
                section := Some "A"; breaking := Some false |}
        /\ In {| type := "docs"; release := None;
                 section := Some "Documentation"; breaking := None |}
              (mergeWithDefaultChangelogRules Sample.defaultsLiteral out)
        /\ ~ In {| type := "Docs"; release := Some "minor";
                   section := Some "A"; breaking := Some false |}
                (mergeWithDefaultChangelogRules Sample.defaultsLiteral out)).
Proof.
  split; eexists; (split; [vm_compute; reflexivity|]);
    repeat split; try reflexivity; try discriminate.
  - vm_compute. intros H.
    repeat (destruct H as [H|H]; [discriminate H|]). exact H.
  - vm_compute. tauto.
  - vm_compute. intros H.
    repeat (destruct H as [H|H]; [discriminate H|]). exact H.
Qed.

(** C10, in the form that holds: the key of the merge is the type as
    written, while the default section is found through the lowercased
    type. Let [k] be a key of the default table with entry [d], let no
    accepted custom rule have the type [k] itself, and let [rule] be the
    last accepted custom rule of a type [ty] that differs from [k] and
    whose lowercase form is [k]. Then the merged table still
    binds [k] to [d], binds [ty] to the literal variant of [rule], whose
    section is the non-empty third part of [rule] or else the section of
    [d]; and the output holds [d] when its section is truthy and the
    literal variant when its section is truthy. *)
Theorem mergeWithDefaultChangelogRules_key_case_sensitive :
  forall (types : list string) (defaults : list (string * Rule))
         (s : string) (log : list Diagnostic)
         (k ty rule : string) (d : Rule),
    Obj.get k (defaultChangelogRules defaults) = Some d ->
    Js.toLowerCase ty = k ->
    ty <> k ->
    last_rule_of_type k (filter (accepted types) (Js.split "," s)) = None ->
    last_rule_of_type ty (filter (accepted types) (Js.split "," s))
    = Some rule ->
    exists out log',
      mapCustomReleaseRules types defaults s log = (Ok out, log')
      /\ Obj.get k (mergedRules defaults out) = Some d
      /\ Obj.get ty (mergedRules defaults out)
         = Some (literal_variant defaults rule)
      /\ type (literal_variant defaults rule) = ty
      /\ default_section defaults ty = section d
      /\ section (literal_variant defaults rule)
         = match nth_error (rule_parts rule) 2 with
           | Some third =>
               if String.eqb third "" then section d else Some third
           | None => section d
           end
      /\ (Js.truthy (section d) = true ->
          In d (mergeWithDefaultChangelogRules defaults out))
      /\ (Js.truthy (section (literal_variant defaults rule)) = true ->
          In (literal_variant defaults rule)
             (mergeWithDefaultChangelogRules defaults out)).
Proof.
  intros types defaults s log k ty rule d Hd Hlow Hne Hnone Hlast.
  do 2 eexists. split; [apply mapCustomReleaseRules_run|].
  set (out := flat_map (variants defaults)
                (filter (accepted types) (Js.split "," s))).
  assert (Hk : Obj.get k (mergedRules defaults out) = Some d).
  { unfold out. now rewrite get_mergedRules, last_writer_variants, Hnone. }
  assert (Hty : Obj.get ty (mergedRules defaults out)
                = Some (literal_variant defaults rule)).
  { unfold out. now rewrite get_mergedRules, last_writer_variants, Hlast. }
  destruct (last_rule_of_type_In _ _ Hlast) as [_ Htype].
  assert (Hsec : default_section defaults ty = section d).
  { unfold default_section, Obj.lookup. now rewrite Hlow, Hd. }
  repeat split; auto.
  - unfold literal_variant, rule_section. cbn [section].
    rewrite Htype, Hsec.
    destruct (nth_error (rule_parts rule) 2) as [[|c third]|]; reflexivity.
  - intros Ht. apply In_mergeWithDefaultChangelogRules. eauto.
  - intros Ht. apply In_mergeWithDefaultChangelogRules. eauto.
Qed.

(** Under the sample configuration, the custom rule ["Docs:minor"] leaves
    the default entry of [docs] in the output next to its own. *)
Lemma mergeWithDefaultChangelogRules_key_case_sensitive_witness :
  exists out,
    fst (mapCustomReleaseRules Sample.DEFAULT_RELEASE_TYPES
           Sample.defaultsLiteral "Docs:minor" []) = Ok out
    /\ In {| type := "docs"; release := None;
             section := Some "Documentation"; breaking := None |}
          (mergeWithDefaultChangelogRules Sample.defaultsLiteral out)
    /\ In {| type := "Docs"; release := Some "minor";
             section := Some "Documentation"; breaking := Some false |}
          (mergeWithDefaultChangelogRules Sample.defaultsLiteral out).
Proof.
  destruct (@mergeWithDefaultChangelogRules_key_case_sensitive
              Sample.DEFAULT_RELEASE_TYPES Sample.defaultsLiteral
              "Docs:minor" [] "docs" "Docs" "Docs:minor"
              {| type := "docs"; release := None;
                 section := Some "Documentation"; breaking := None |}
              eq_refl eq_refl
              ltac:(discriminate) eq_refl eq_refl)
    as [out [log' [Hrun [_ [_ [_ [_ [_ [Hd Hc]]]]]]]]].
  exists out. split; [now rewrite Hrun|].
  split; [exact (Hd eq_refl) | exact (Hc eq_refl)].
Defined.

(* ================================================================== *)
(** ** Tag filter, sorter and selector *)
(* ================================================================== *)

(** The sample prefix pattern is what the constructor gives for ["^v"],
    and it strips a leading [v]. *)
Example sample_prefixRegex :
  (forall engine, RegExp.compile engine "^v" false = Ok Sample.prefixRegex)
  /\ stripped Sample.prefixRegex (Sample.tag "v1.2.3") = "1.2.3"
  /\ stripped Sample.prefixRegex (Sample.tag "1.2.3") = "1.2.3".
Proof. repeat split. Qed.

(** C5: [getLatestTag] returns the first tag of the list whose stripped
    name has no prerelease component, and the synthetic tag
    [{name: tagPrefix + "0.0.0", commit: {sha: "HEAD"}}] when every tag
    has one, in particular for the empty list; so it always returns a
    tag. *)
Theorem getLatestTag_first_stable_or_synthetic :
  forall (tags : list Tag) (prefixRegex : RegExp.t) (tagPrefix : string),
    (forall earlier tag later,
        tags = earlier ++ tag :: later ->
        Forall (fun t => has_prerelease prefixRegex t = true) earlier ->
        has_prerelease prefixRegex tag = false ->
        getLatestTag tags prefixRegex tagPrefix = tag)
    /\ (Forall (fun t => has_prerelease prefixRegex t = true) tags ->
        getLatestTag tags prefixRegex tagPrefix
        = {| name := tagPrefix ++ "0.0.0"; commit := {| sha := "HEAD" |} |})
    /\ getLatestTag [] prefixRegex tagPrefix
       = {| name := tagPrefix ++ "0.0.0"; commit := {| sha := "HEAD" |} |}
    /\ ((In (getLatestTag tags prefixRegex tagPrefix) tags
         /\ has_prerelease prefixRegex
              (getLatestTag tags prefixRegex tagPrefix) = false)
        \/ (getLatestTag tags prefixRegex tagPrefix = synthetic_tag tagPrefix
            /\ Forall (fun t => has_prerelease prefixRegex t = true) tags)).
Proof.
  intros tags prefixRegex tagPrefix. unfold getLatestTag.
  fold (has_prerelease prefixRegex). repeat split.
  - intros earlier tag later -> Hall Htag.
    induction earlier as [|x earlier IH]; simpl.
    + unfold has_prerelease in Htag. now rewrite Htag.
    + inversion Hall as [|? ? Hx Hall']; subst.
      unfold has_prerelease in Hx. rewrite Hx. simpl. now apply IH.
  - intros Hall. induction Hall as [|x l Hx Hall IH]; simpl; [reflexivity|].
    unfold has_prerelease in Hx. now rewrite Hx.
  - induction tags as [|x tags IH]; simpl.
    + right. split; [reflexivity | constructor].
    + destruct (Js.truthy_object (Semver.prerelease (stripped prefixRegex x)))
        eqn:Hx; simpl.
      * destruct IH as [[Hin Hno]|[Hsyn Hall]].
        -- left. split; [now right | exact Hno].
        -- right. split; [exact Hsyn | now constructor].
      * left. split; [now left | exact Hx].
Qed.

(** On a list whose first stable tag is the third, the third is
    returned; on a list of prereleases, the synthetic tag. *)
Lemma getLatestTag_first_stable_or_synthetic_witness :
  getLatestTag
    [Sample.tag "v2.0.0-rc.1"; Sample.tag "v2.0.0-beta.1";
     Sample.tag "v1.0.0"; Sample.tag "v0.9.0"]
    Sample.prefixRegex "v"
  = Sample.tag "v1.0.0"
  /\ getLatestTag [Sample.tag "v2.0.0-rc.1"] Sample.prefixRegex "v"
     = {| name := "v0.0.0"; commit := {| sha := "HEAD" |} |}.
Proof.
  split.
  - apply (proj1 (getLatestTag_first_stable_or_synthetic
                    [Sample.tag "v2.0.0-rc.1"; Sample.tag "v2.0.0-beta.1";
                     Sample.tag "v1.0.0"; Sample.tag "v0.9.0"]
                    Sample.prefixRegex "v")
                 [Sample.tag "v2.0.0-rc.1"; Sample.tag "v2.0.0-beta.1"]
                 (Sample.tag "v1.0.0") [Sample.tag "v0.9.0"]).
    + reflexivity.
    + repeat constructor.
    + reflexivity.
  - apply (proj1 (proj2 (getLatestTag_first_stable_or_synthetic
                           [Sample.tag "v2.0.0-rc.1"]
                           Sample.prefixRegex "v"))).
    repeat constructor.
Defined.

(** C7: whatever list the host returns, [getValidTags] returns a
    rearrangement of the tags whose stripped name is valid semver; a tag
    whose stripped name is not valid is in no position of the output; and
    the output is in descending precedence: no tag is followed, at any
    distance, by a tag of higher precedence. Precedence goes by major,
    then minor, then patch; a prerelease is below its release; two
    prereleases of one version go by their identifiers; versions that
    differ in build identifiers only have the same precedence. *)
Theorem getValidTags_excludes_invalid_and_sorts :
  forall (listTags : bool -> Core.t (list Tag)) (prefixRegex : RegExp.t)
         (shouldFetchAllTags : bool) (log log1 : list Diagnostic)
         (tags : list Tag),
    listTags shouldFetchAllTags log = (Ok tags, log1) ->
    exists out log2,
      getValidTags listTags prefixRegex shouldFetchAllTags log
      = (Ok out, log2)
      /\ Permutation out (filter (is_valid prefixRegex) tags)
      /\ (forall tag,
            In tag out <-> In tag tags /\ is_valid prefixRegex tag = true)
      /\ (forall tag,
            Semver.valid (stripped prefixRegex tag) = None -> ~ In tag out)
      /\ StronglySorted (not_below prefixRegex) out
      /\ (forall a b : Semver.SemVer,
            ((Semver.major a < Semver.major b
              \/ (Semver.major a = Semver.major b
                  /\ (Semver.minor a < Semver.minor b
                      \/ (Semver.minor a = Semver.minor b
                          /\ Semver.patch a < Semver.patch b))))%N ->
             Semver.compareVersions a b = Lt)
            /\ (Semver.major a = Semver.major b ->
                Semver.minor a = Semver.minor b ->
                Semver.patch a = Semver.patch b ->
                (Semver.pre a <> [] -> Semver.pre b = [] ->
                 Semver.compareVersions a b = Lt)
                /\ (Semver.pre a <> [] -> Semver.pre b <> [] ->
                    Semver.compareVersions a b
                    = Semver.compareIdentifierLists
                        (Semver.pre a) (Semver.pre b))
                /\ (Semver.pre a = Semver.pre b ->
                    Semver.compareVersions a b = Eq))).
Proof.
  intros listTags prefixRegex all log log1 tags Hlist.
  do 2 eexists. split; [eapply TagFacts.getValidTags_run; exact Hlist|].
  split; [apply OrderFacts.stable_sort_perm|].
  split; [intros tag; apply TagFacts.sorted_valid_In|].
  split.
  - intros tag Hnone Hin. apply TagFacts.sorted_valid_In in Hin as [_ Hv].
    apply TagFacts.is_valid_false in Hnone. congruence.
  - split; [apply TagFacts.sorted_valid_descending|].
    intros a b. split; [apply SemverFacts.compareVersions_main|].
    intros H1 H2 H3. repeat split.
    + now apply SemverFacts.compareVersions_prerelease_below.
    + now apply SemverFacts.compareVersions_prerelease_ids.
    + now apply SemverFacts.compareVersions_build_ignored.
Qed.

(** A host list with an invalid name in the middle. *)
Lemma getValidTags_excludes_invalid_and_sorts_witness :
  exists out,
    fst (getValidTags
           (fun _ => Core.ret
              [Sample.tag "v1.0.0"; Sample.tag "v2.0.0-beta.1";
               Sample.tag "latest"; Sample.tag "v2.0.0";
               Sample.tag "v2.0.0-beta.2"])
           Sample.prefixRegex true []) = Ok out
    /\ ~ In (Sample.tag "latest") out
    /\ StronglySorted (not_below Sample.prefixRegex) out.
Proof.
  destruct (@getValidTags_excludes_invalid_and_sorts
              (fun _ => Core.ret
                 [Sample.tag "v1.0.0"; Sample.tag "v2.0.0-beta.1";
                  Sample.tag "latest"; Sample.tag "v2.0.0";
                  Sample.tag "v2.0.0-beta.2"])
              Sample.prefixRegex true [] []
              [Sample.tag "v1.0.0"; Sample.tag "v2.0.0-beta.1";
               Sample.tag "latest"; Sample.tag "v2.0.0";
               Sample.tag "v2.0.0-beta.2"]
              eq_refl)
    as [out [log2 [Hrun [_ [_ [Hinvalid [Hsorted _]]]]]]].
  exists out. split; [now rewrite Hrun|].
  split; [apply Hinvalid; reflexivity | exact Hsorted].
Defined.

(** What the sort gives on that list. *)
Example getValidTags_sample :
  fst (getValidTags
         (fun _ => Core.ret
            [Sample.tag "v1.0.0"; Sample.tag "v2.0.0-beta.1";
             Sample.tag "latest"; Sample.tag "v2.0.0";
             Sample.tag "v2.0.0-beta.2"])
         Sample.prefixRegex true [])
  = Ok [Sample.tag "v2.0.0"; Sample.tag "v2.0.0-beta.2";
        Sample.tag "v2.0.0-beta.1"; Sample.tag "v1.0.0"].
Proof. vm_compute. reflexivity. Qed.

(** C8, as stated, fails when two tags have the same precedence: the tags
    [1.0.0+a] and [1.0.0+b] differ in build identifiers only, both are
    valid, the output holds both, and neither is strictly above the
    other. *)
Lemma getValidTags_order_not_strict :
  fst (getValidTags
         (fun _ => Core.ret [Sample.tag "1.0.0+a"; Sample.tag "1.0.0+b"])
         Sample.prefixRegex true [])
  = Ok [Sample.tag "1.0.0+a"; Sample.tag "1.0.0+b"]
  /\ ~ StronglySorted (strictly_above Sample.prefixRegex)
         [Sample.tag "1.0.0+a"; Sample.tag "1.0.0+b"].
Proof.
  split; [vm_compute; reflexivity|].
  intros H. apply StronglySorted_inv in H as [_ H].
  apply Forall_inv in H. destruct H as [va [vb [Ha [Hb Hgt]]]].
  vm_compute in Ha, Hb. injection Ha as <-. injection Hb as <-.
  vm_compute in Hgt. discriminate.
Qed.

(** C8, in the form that holds: the tag sort is idempotent: fed its own
    output, [getValidTags] returns it unchanged. The order of the output
    is non-increasing by precedence: no tag is followed by a tag of higher
    precedence, and a prerelease is below the release of the same major,
    minor and patch. Tags of equal precedence may stand side by side. *)
Theorem getValidTags_idempotent_and_descending :
  forall (listTags : bool -> Core.t (list Tag)) (prefixRegex : RegExp.t)
         (shouldFetchAllTags : bool) (log log1 : list Diagnostic)
         (tags : list Tag),
    listTags shouldFetchAllTags log = (Ok tags, log1) ->
    exists out log2,
      getValidTags listTags prefixRegex shouldFetchAllTags log
      = (Ok out, log2)
      /\ (forall again log', exists log3,
            getValidTags (fun _ => Core.ret out) prefixRegex again log'
            = (Ok out, log3))
      /\ StronglySorted (not_below prefixRegex) out
      /\ (forall a b : Semver.SemVer,
            Semver.major a = Semver.major b ->
            Semver.minor a = Semver.minor b ->
            Semver.patch a = Semver.patch b ->
            Semver.pre a <> [] -> Semver.pre b = [] ->
            Semver.compareVersions a b = Lt).
Proof.
  intros listTags prefixRegex all log log1 tags Hlist.
  do 2 eexists. split; [eapply TagFacts.getValidTags_run; exact Hlist|].
  split.
  - intros again log'. eexists.
    rewrite (@TagFacts.getValidTags_run prefixRegex
               (fun _ => Core.ret (sorted_valid prefixRegex tags))
               again log' (sorted_valid prefixRegex tags) log'
               eq_refl).
    rewrite TagFacts.sorted_valid_idempotent. reflexivity.
  - split; [apply TagFacts.sorted_valid_descending|].
    intros a b. apply SemverFacts.compareVersions_prerelease_below.
Qed.

(** A list with two tags of equal precedence, sorted twice. *)
Lemma getValidTags_idempotent_and_descending_witness :
  exists out,
    fst (getValidTags
           (fun _ => Core.ret
              [Sample.tag "v1.0.0-rc.1"; Sample.tag "1.0.0+a";
               Sample.tag "1.0.0+b"])
           Sample.prefixRegex true []) = Ok out
    /\ fst (getValidTags (fun _ => Core.ret out) Sample.prefixRegex true [])
       = Ok out
    /\ StronglySorted (not_below Sample.prefixRegex) out.
Proof.
  destruct (@getValidTags_idempotent_and_descending
              (fun _ => Core.ret
                 [Sample.tag "v1.0.0-rc.1"; Sample.tag "1.0.0+a";
                  Sample.tag "1.0.0+b"])
              Sample.prefixRegex true [] []
              [Sample.tag "v1.0.0-rc.1"; Sample.tag "1.0.0+a";
               Sample.tag "1.0.0+b"]
              eq_refl)
    as [out [log2 [Hrun [Hagain [Hsorted _]]]]].
  exists out. split; [now rewrite Hrun|].
  destruct (Hagain true []) as [log3 Hrun'].
  split; [now rewrite Hrun' | exact Hsorted].
Defined.

(** C6, as stated, fails on an identifier that is not a regular
    expression. The string ["("] opens a group and never closes it, so
    [new RegExp("(")] throws a syntax error, whatever the run-time; with
    one prerelease tag in the list the callback of [find] runs, and
    [getLatestPrereleaseTag] throws where the claim has it return a tag
    or [undefined]. *)
Lemma getLatestPrereleaseTag_throws_on_malformed_identifier :
  has_prerelease Sample.prefixRegex (Sample.tag "v1.0.0-rc.1") = true
  /\ RegExp.parse "(" = RegExp.Malformed
  /\ forall engine : RegExp.Engine,
       (exists msg,
           getLatestPrereleaseTag engine [Sample.tag "v1.0.0-rc.1"] "("
             Sample.prefixRegex []
           = (Throw (SyntaxError msg), []))
       /\ ~ (exists result,
               fst (getLatestPrereleaseTag engine [Sample.tag "v1.0.0-rc.1"]
                      "(" Sample.prefixRegex [])
               = Ok result).
Proof.
  split; [reflexivity|]. split; [reflexivity|].
  intros engine. split.
  - eexists. reflexivity.
  - intros [result H]. cbn in H. discriminate.
Qed.

(** C6, in the form that holds: for every tag list and every identifier
    that is a well-formed regular expression, that is, for which the
    constructor returns an expression [re], [getLatestPrereleaseTag]
    returns the first tag, in list order, among those whose stripped name
    has a prerelease component, whose stripped name holds a match of
    [re]; it returns [undefined] when no tag with a prerelease component
    matches, and never a made-up tag. On a list in descending precedence
    the tag returned is not below any other tag that qualifies. An
    identifier of plain characters is well formed, and its match is
    containment of the identifier. For an identifier on which the
    constructor throws, the call returns [undefined] when no tag has a
    prerelease component and throws the error of the constructor when
    one has. *)
Theorem getLatestPrereleaseTag_first_match_or_undefined :
  forall (engine : RegExp.Engine) (tags : list Tag) (identifier : string)
         (prefixRegex : RegExp.t) (log : list Diagnostic),
    (forall re : RegExp.t,
        RegExp.compile engine identifier false = Ok re ->
        let wanted := fun tag =>
          has_prerelease prefixRegex tag
          && RegExp.test re (stripped prefixRegex tag) in
        exists result,
          getLatestPrereleaseTag engine tags identifier prefixRegex log
          = (Ok result, log)
          /\ result
             = find (fun tag => RegExp.test re (stripped prefixRegex tag))
                    (filter (has_prerelease prefixRegex) tags)
          /\ (forall tag,
                result = Some tag <->
                exists earlier later,
                  tags = earlier ++ tag :: later
                  /\ wanted tag = true
                  /\ Forall (fun t => wanted t = false) earlier)
          /\ (result = None <-> Forall (fun t => wanted t = false) tags)
          /\ (forall tag, result = Some tag -> In tag tags)
          /\ (StronglySorted (not_below prefixRegex) tags ->
              forall tag other,
                result = Some tag -> In other tags -> wanted other = true ->
                not_below prefixRegex tag other)
          /\ (forallb plain (list_ascii_of_string identifier) = true ->
              forall subject,
                RegExp.test re subject = true <->
                substring identifier subject))
    /\ (forallb plain (list_ascii_of_string identifier) = true ->
        well_formed engine identifier false)
    /\ (forall e : Error,
          RegExp.compile engine identifier false = Throw e ->
          (Forall (fun t => has_prerelease prefixRegex t = false) tags ->
           getLatestPrereleaseTag engine tags identifier prefixRegex log
           = (Ok None, log))
          /\ ((exists tag,
                  In tag tags /\ has_prerelease prefixRegex tag = true) ->
              getLatestPrereleaseTag engine tags identifier prefixRegex log
              = (Throw e, log))).
Proof.
  intros engine tags identifier prefixRegex log. split; [|split].
  - intros re Hre wanted. eexists. split.
    + unfold getLatestPrereleaseTag.
      apply RegExpFacts.find_run
        with (p := fun tag => RegExp.test re (stripped prefixRegex tag)).
      intros tag log'. unfold Core.bind, RegExp.create. now rewrite Hre.
    + fold (has_prerelease prefixRegex).
      rewrite RegExpFacts.find_filter. fold wanted.
      split; [reflexivity|].
      split; [intros tag; apply RegExpFacts.find_first|].
      split; [apply RegExpFacts.find_none_iff|].
      split; [intros tag H; now apply find_some in H|].
      split.
      * intros Hsorted tag other Hres Hin Hother.
        apply RegExpFacts.find_first in Hres
          as [earlier [later [-> [Htag Hearlier]]]].
        apply TagFacts.first_of_descending
          with (wanted := wanted) (earlier := earlier) (later := later);
          auto.
        unfold wanted in Htag. now apply andb_prop in Htag as [Htag _].
      * intros Hplain subject.
        pose proof (RegExpFacts.plain_pattern_substring engine identifier
                      false subject Hplain) as H.
        unfold pattern_matches in H. now rewrite Hre in H.
  - intros Hplain. eexists.
    apply RegExpFacts.compile_fine, RegExpFacts.parse_plain, Hplain.
  - intros e He. unfold getLatestPrereleaseTag.
    fold (has_prerelease prefixRegex). split.
    + intros Hall.
      replace (filter (has_prerelease prefixRegex) tags) with (@nil Tag);
        [reflexivity|].
      symmetry. induction Hall as [|t l Ht Hall IH]; [reflexivity|].
      cbn [filter]. now rewrite Ht.
    + intros [tag [Hin Htag]].
      assert (Hkept : In tag (filter (has_prerelease prefixRegex) tags))
        by (apply filter_In; auto).
      destruct (filter (has_prerelease prefixRegex) tags) as [|t l];
        [destruct Hkept|].
      cbn [Core.find]. unfold Core.bind, RegExp.create. now rewrite He.
Qed.

(** On a descending list, the identifier [beta] selects the highest
    beta; the identifier [alpha] selects nothing; whatever the
    run-time. *)
Lemma getLatestPrereleaseTag_first_match_or_undefined_witness :
  (forall engine : RegExp.Engine,
      getLatestPrereleaseTag engine
        [Sample.tag "v2.0.0"; Sample.tag "v2.0.0-rc.1";
         Sample.tag "v2.0.0-beta.2"; Sample.tag "v2.0.0-beta.1";
         Sample.tag "v1.0.0"]
        "beta" Sample.prefixRegex []
      = (Ok (Some (Sample.tag "v2.0.0-beta.2")), []))
  /\ (forall engine : RegExp.Engine,
        getLatestPrereleaseTag engine
          [Sample.tag "v2.0.0"; Sample.tag "v2.0.0-rc.1"] "alpha"
          Sample.prefixRegex []
        = (Ok None, [])).
Proof.
  split; intros engine.
  - destruct (proj1 (getLatestPrereleaseTag_first_match_or_undefined
                       engine
                       [Sample.tag "v2.0.0"; Sample.tag "v2.0.0-rc.1";
                        Sample.tag "v2.0.0-beta.2"; Sample.tag "v2.0.0-beta.1";
                        Sample.tag "v1.0.0"]
                       "beta" Sample.prefixRegex [])
                    (RegExp.Modelled
                       {| RegExp.node := word "beta";
                          RegExp.global := false |})
                    eq_refl)
      as [result [Hrun [Hfind _]]].
    rewrite Hrun, Hfind. reflexivity.
  - destruct (proj1 (getLatestPrereleaseTag_first_match_or_undefined
                       engine
                       [Sample.tag "v2.0.0"; Sample.tag "v2.0.0-rc.1"]
                       "alpha" Sample.prefixRegex [])
                    (RegExp.Modelled
                       {| RegExp.node := word "alpha";
                          RegExp.global := false |})
                    eq_refl)
      as [result [Hrun [Hfind _]]].
    rewrite Hrun, Hfind. reflexivity.
Defined.

(** The list of the specification's example, which is not in descending
    order: the first matching prerelease of the list is returned. *)
Example getLatestPrereleaseTag_list_order :
  forall engine : RegExp.Engine,
    getLatestPrereleaseTag engine
      [Sample.tag "v2.0.0"; Sample.tag "v2.0.0-beta.1";
       Sample.tag "v2.0.0-beta.2"; Sample.tag "v1.0.0"]
      "beta" Sample.prefixRegex []
    = (Ok (Some (Sample.tag "v2.0.0-beta.1")), []).
Proof. intros engine. vm_compute. reflexivity. Qed.

(* ================================================================== *)
(** ** Commit scoper *)
(* ================================================================== *)




(* ################################################################## *)
(** * Part IV: further properties of the code *)
(* ################################################################## *)

(** Properties read off [utils.ts] itself: the functions the
    specification leaves aside ([getCommits], [getBranchFromRef],
    [isPr]), and for the others their behaviour at the edges, their
    diagnostics, the order of their results and how they compose. *)

(* ================================================================== *)
(** ** Further properties: refs and host commits *)
(* ================================================================== *)

(** X1: [getBranchFromRef] gives back the branch name of a branch ref:
    [refs/heads/] followed by any name yields that name, also when the
    name itself holds [refs/heads/] again. *)
Theorem getBranchFromRef_of_branch_ref :
  forall branch : string,
    getBranchFromRef ("refs/heads/" ++ branch) = branch.
Proof.
  intros branch. unfold getBranchFromRef.
  change (JsText.remove_first "refs/heads/" ("refs/heads/" ++ branch))
    with (JsText.drop (String.length "refs/heads/")
                      ("refs/heads/" ++ branch)).
  apply TextFacts.drop_app.
Qed.

(** X2: [getBranchFromRef] is not tied to the start of the ref. A ref
    that does not hold [refs/heads/] is returned as it is; a ref that
    holds it loses its first occurrence, wherever that stands, and keeps
    everything before and after it. *)
Theorem getBranchFromRef_removes_first_occurrence :
  forall ref : string,
    (~ substring "refs/heads/" ref -> getBranchFromRef ref = ref)
    /\ (substring "refs/heads/" ref ->
        exists before after,
          ref = (before ++ "refs/heads/" ++ after)%string
          /\ getBranchFromRef ref = (before ++ after)%string
          /\ forall before' after',
               ref = (before' ++ "refs/heads/" ++ after')%string ->
               String.length before <= String.length before').
Proof.
  intros ref. unfold getBranchFromRef.
  destruct (TextFacts.remove_first_spec "refs/heads/" ref)
    as [[Hno Hsame]|Hfound].
  - split; [auto|]. intros H. apply TextFacts.includes_iff in H.
    congruence.
  - split; [|auto]. intros Hno. exfalso. apply Hno.
    destruct Hfound as [before [after [H _]]]. exists before, after.
    exact H.
Qed.

(** A tag ref is left alone; a ref with the marker in the middle loses
    the marker. *)
Lemma getBranchFromRef_removes_first_occurrence_witness :
  getBranchFromRef "refs/tags/v1.0.0" = "refs/tags/v1.0.0"
  /\ exists before after,
       "mirror/refs/heads/main" = (before ++ "refs/heads/" ++ after)%string
       /\ getBranchFromRef "mirror/refs/heads/main" = (before ++ after)%string.
Proof.
  split.
  - apply (proj1 (getBranchFromRef_removes_first_occurrence
                    "refs/tags/v1.0.0")).
    intros H. apply TextFacts.includes_iff in H. vm_compute in H.
    discriminate.
  - destruct (proj2 (getBranchFromRef_removes_first_occurrence
                       "mirror/refs/heads/main"))
      as [before [after [H1 [H2 _]]]].
    + apply TextFacts.includes_iff. reflexivity.
    + exists before, after. split; assumption.
Defined.

(** X3: [isPr] holds exactly of the refs that hold [refs/pull/]
    somewhere: at the start, as in a pull-request ref, or further on, as
    in a branch whose name holds it. *)
Theorem isPr_iff_holds_marker :
  forall ref : string,
    (isPr ref = true <->
     exists before after, ref = (before ++ "refs/pull/" ++ after)%string)
    /\ (forall rest, isPr ("refs/pull/" ++ rest) = true)
    /\ (forall branch,
          isPr ("refs/heads/" ++ branch) = isPr branch).
Proof.
  intros ref. split; [apply TextFacts.includes_iff|]. split.
  - intros rest. apply TextFacts.includes_iff.
    exists EmptyString, rest. reflexivity.
  - intros branch. unfold isPr. cbn. reflexivity.
Qed.

(** X4: [getCommits] passes on what the host's comparison gives. When
    the comparison succeeds, the result is the list of the host with the
    commits of empty message left out and every other commit reduced to
    its message and its hash, in the order of the host; no diagnostic is
    emitted. So the result holds exactly the host commits whose message
    is not empty, and no commit of the result has an empty message. When
    the comparison fails, [getCommits] fails with the same error. *)
Theorem getCommits_keeps_commits_with_message :
  forall (compareCommits : string -> string -> Core.t (list Host.Commit))
         (baseRef headRef : string) (log log1 : list Diagnostic),
    (forall commits,
        compareCommits baseRef headRef log = (Ok commits, log1) ->
        exists out,
          getCommits compareCommits baseRef headRef log = (Ok out, log1)
          /\ out
             = List.map commit_of
                 (filter
                    (fun h =>
                       negb (String.eqb (Host.message (Host.commit h)) ""))
                    commits)
          /\ (forall c,
                In c out <->
                exists h, In h commits
                          /\ Host.message (Host.commit h) <> ""
                          /\ c = commit_of h)
          /\ (forall c, In c out -> message c <> "")
          /\ List.length out <= List.length commits
          /\ (Forall (fun h => Host.message (Host.commit h) <> "") commits ->
              out = List.map commit_of commits))
    /\ (forall e,
          compareCommits baseRef headRef log = (Throw e, log1) ->
          getCommits compareCommits baseRef headRef log = (Throw e, log1)).
Proof.
  intros compareCommits baseRef headRef log log1.
  assert (Htruthy : forall s, Js.truthy (Some s) = true <-> s <> "").
  { intros [|c s]; simpl; split; congruence. }
  split.
  - intros commits Hrun. eexists. split.
    { unfold getCommits, Core.bind. rewrite Hrun. reflexivity. }
    fold commit_of.
    assert (Hin : forall c,
               In c (List.map commit_of
                       (filter (fun commit =>
                                  Js.truthy
                                    (Some (Host.message (Host.commit commit))))
                               commits)) <->
               exists h, In h commits
                         /\ Host.message (Host.commit h) <> ""
                         /\ c = commit_of h).
    { intros c. rewrite in_map_iff. split.
      - intros [h [<- Hh]]. apply filter_In in Hh as [Hh Hm].
        apply Htruthy in Hm. eauto.
      - intros [h [Hh [Hm ->]]]. exists h. split; [reflexivity|].
        apply filter_In. split; [exact Hh | now apply Htruthy]. }
    split.
    { f_equal. apply filter_ext. intros h.
      now destruct (Host.message (Host.commit h)). }
    split; [exact Hin|]. split; [|split].
    + intros c Hc. apply Hin in Hc as [h [_ [Hm ->]]]. exact Hm.
    + rewrite length_map. apply filter_length_le.
    + intros Hall. f_equal. apply forallb_filter_id.
      apply forallb_forall. intros h Hh. apply Htruthy.
      rewrite Forall_forall in Hall. auto.
  - intros e Hrun. unfold getCommits, Core.bind. now rewrite Hrun.
Qed.

(** A comparison of three commits, the second without a message; and a
    comparison that fails. *)
Lemma getCommits_keeps_commits_with_message_witness :
  (exists out,
     getCommits
       (fun _ _ => Core.ret
          [ {| Host.commit := {| Host.message := "feat: a" |};
               Host.sha := "1" |};
            {| Host.commit := {| Host.message := "" |}; Host.sha := "2" |};
            {| Host.commit := {| Host.message := "fix: b" |};
               Host.sha := "3" |} ])
       "v1.0.0" "main" []
     = (Ok out, [])
     /\ out = [ {| message := "feat: a"; hash := "1" |};
                {| message := "fix: b"; hash := "3" |} ])
  /\ getCommits
       (fun _ _ => Core.throw (TypeError "Not Found")) "v1.0.0" "main" []
     = (Throw (TypeError "Not Found"), []).
Proof.
  split.
  - destruct (proj1 (getCommits_keeps_commits_with_message
                       (fun _ _ => Core.ret
                          [ {| Host.commit := {| Host.message := "feat: a" |};
                               Host.sha := "1" |};
                            {| Host.commit := {| Host.message := "" |};
                               Host.sha := "2" |};
                            {| Host.commit := {| Host.message := "fix: b" |};
                               Host.sha := "3" |} ])
                       "v1.0.0" "main" [] []) _ eq_refl)
      as [out [Hrun [Hout _]]].
    exists out. split; [exact Hrun | exact Hout].
  - apply (proj2 (getCommits_keeps_commits_with_message
                    (fun _ _ => Core.throw (TypeError "Not Found"))
                    "v1.0.0" "main" [] [])).
    reflexivity.
Defined.

(* ================================================================== *)
(** ** Further properties: tags *)
(* ================================================================== *)

(** X5: [getValidTags] emits one debug message for each tag the host
    returns and nothing else: first one for each invalid tag, all with
    the same text [Found Invalid Tag: [object Object].], which does not
    name the tag; then one for each valid tag, by name, in the order of
    the result. When the host fails, [getValidTags] fails with the same
    error and emits nothing. *)
Theorem getValidTags_reports_every_tag :
  forall (listTags : bool -> Core.t (list Tag)) (prefixRegex : RegExp.t)
         (shouldFetchAllTags : bool) (log log1 : list Diagnostic),
    (forall tags,
        listTags shouldFetchAllTags log = (Ok tags, log1) ->
        exists out diags,
          getValidTags listTags prefixRegex shouldFetchAllTags log
          = (Ok out, log1 ++ diags)
          /\ diags
             = repeat (Debug "Found Invalid Tag: [object Object].")
                      (List.length tags - List.length out)
               ++ List.map
                    (fun tag => Debug ("Found Valid Tag: " ++ name tag ++ "."))
                    out
          /\ List.length diags = List.length tags)
    /\ (forall e,
          listTags shouldFetchAllTags log = (Throw e, log1) ->
          getValidTags listTags prefixRegex shouldFetchAllTags log
          = (Throw e, log1)).
Proof.
  intros listTags prefixRegex all log log1. split.
  - intros tags Hrun.
    assert (Hlen : List.length (sorted_valid prefixRegex tags)
                   = List.length (filter (is_valid prefixRegex) tags)).
    { apply Permutation_length, OrderFacts.stable_sort_perm. }
    pose proof (filter_length_le (is_valid prefixRegex) tags) as Hle.
    do 2 eexists. split; [eapply TagFacts.getValidTags_run; exact Hrun|].
    rewrite SelectionFacts.map_const_repeat,
      SelectionFacts.filter_negb_length, <- Hlen.
    split; [reflexivity|].
    rewrite length_app, repeat_length, length_map. lia.
  - intros e Hrun. unfold getValidTags, Core.bind. now rewrite Hrun.
Qed.

(** Three tags, one of them invalid; and a host that fails. *)
Lemma getValidTags_reports_every_tag_witness :
  (exists out,
     getValidTags
       (fun _ => Core.ret
          [Sample.tag "v1.0.0"; Sample.tag "latest"; Sample.tag "v2.0.0"])
       Sample.prefixRegex true []
     = (Ok out,
        [] ++ repeat (Debug "Found Invalid Tag: [object Object].")
                     (3 - List.length out)
           ++ List.map
                (fun tag => Debug ("Found Valid Tag: " ++ name tag ++ "."))
                out))
  /\ getValidTags (fun _ => Core.throw (TypeError "Bad credentials"))
       Sample.prefixRegex true []
     = (Throw (TypeError "Bad credentials"), []).
Proof.
  split.
  - destruct (proj1 (getValidTags_reports_every_tag
                       (fun _ => Core.ret
                          [Sample.tag "v1.0.0"; Sample.tag "latest";
                           Sample.tag "v2.0.0"])
                       Sample.prefixRegex true [] []) _ eq_refl)
      as [out [diags [Hrun [Hdiags _]]]].
    exists out. rewrite Hrun, Hdiags. reflexivity.
  - apply (proj2 (getValidTags_reports_every_tag
                    (fun _ => Core.throw (TypeError "Bad credentials"))
                    Sample.prefixRegex true [] [])).
    reflexivity.
Defined.

(** X6: the sort of [getValidTags] is stable. For every version [v], the
    tags of the precedence of [v] stand in the result in the order the
    host returned them: the result, restricted to these tags, is the
    host's list restricted to them. *)
Theorem getValidTags_keeps_order_of_ties :
  forall (listTags : bool -> Core.t (list Tag)) (prefixRegex : RegExp.t)
         (shouldFetchAllTags : bool) (log log1 : list Diagnostic)
         (tags : list Tag),
    listTags shouldFetchAllTags log = (Ok tags, log1) ->
    exists out log2,
      getValidTags listTags prefixRegex shouldFetchAllTags log
      = (Ok out, log2)
      /\ forall v : Semver.SemVer,
           filter (same_precedence prefixRegex v) out
           = filter (same_precedence prefixRegex v) tags.
Proof.
  intros listTags prefixRegex all log log1 tags Hrun.
  do 2 eexists. split; [eapply TagFacts.getValidTags_run; exact Hrun|].
  intros v. unfold sorted_valid.
  rewrite SelectionFacts.filter_stable_sort.
  - apply SelectionFacts.filter_filter_implied.
    intros tag. apply SelectionFacts.same_precedence_valid.
  - intros a b. apply SelectionFacts.same_precedence_before.
Qed.

(** Two builds of 1.0.0 around a higher version: the two keep their
    order. *)
Lemma getValidTags_keeps_order_of_ties_witness :
  exists out v,
    fst (getValidTags
           (fun _ => Core.ret
              [Sample.tag "1.0.0+b"; Sample.tag "2.0.0";
               Sample.tag "1.0.0+a"])
           Sample.prefixRegex true []) = Ok out
    /\ version_of Sample.prefixRegex (Sample.tag "1.0.0+a") = Some v
    /\ filter (same_precedence Sample.prefixRegex v) out
       = [Sample.tag "1.0.0+b"; Sample.tag "1.0.0+a"].
Proof.
  destruct (@getValidTags_keeps_order_of_ties
              (fun _ => Core.ret
                 [Sample.tag "1.0.0+b"; Sample.tag "2.0.0";
                  Sample.tag "1.0.0+a"])
              Sample.prefixRegex true [] []
              [Sample.tag "1.0.0+b"; Sample.tag "2.0.0";
               Sample.tag "1.0.0+a"]
              eq_refl)
    as [out [log2 [Hrun Hties]]].
  exists out. eexists. split; [now rewrite Hrun|].
  split; [vm_compute; reflexivity|].
  rewrite Hties. vm_compute. reflexivity.
Defined.

(** X7: [getLatestTag] on the result of [getValidTags]. Whatever list
    the host returns, the tag selected from the sorted list is either a
    tag of the host that is valid, has no prerelease component and is
    not below any other such tag of the host; or it is the synthetic tag,
    and then every valid tag of the host has a prerelease component. *)
Theorem getLatestTag_of_getValidTags :
  forall (listTags : bool -> Core.t (list Tag)) (prefixRegex : RegExp.t)
         (shouldFetchAllTags : bool) (log log1 : list Diagnostic)
         (tags : list Tag) (tagPrefix : string),
    listTags shouldFetchAllTags log = (Ok tags, log1) ->
    exists out log2,
      getValidTags listTags prefixRegex shouldFetchAllTags log
      = (Ok out, log2)
      /\ ((In (getLatestTag out prefixRegex tagPrefix) tags
           /\ is_valid prefixRegex (getLatestTag out prefixRegex tagPrefix)
              = true
           /\ has_prerelease prefixRegex
                (getLatestTag out prefixRegex tagPrefix) = false
           /\ forall other,
                In other tags ->
                is_valid prefixRegex other = true ->
                has_prerelease prefixRegex other = false ->
                not_below prefixRegex
                  (getLatestTag out prefixRegex tagPrefix) other)
          \/ (getLatestTag out prefixRegex tagPrefix
              = {| name := tagPrefix ++ "0.0.0";
                   commit := {| sha := "HEAD" |} |}
              /\ forall tag,
                   In tag tags -> is_valid prefixRegex tag = true ->
                   has_prerelease prefixRegex tag = true)).
Proof.
  intros listTags prefixRegex all log log1 tags tagPrefix Hrun.
  do 2 eexists. split; [eapply TagFacts.getValidTags_run; exact Hrun|].
  rewrite SelectionFacts.getLatestTag_find.
  destruct (find (fun t => negb (has_prerelease prefixRegex t))
                 (sorted_valid prefixRegex tags)) as [tag|] eqn:Hfind.
  - left.
    apply RegExpFacts.find_first in Hfind
      as [earlier [later [Hout [Htag Hearlier]]]].
    assert (Hin : In tag (sorted_valid prefixRegex tags)).
    { rewrite Hout. apply in_or_app. right. now left. }
    apply TagFacts.sorted_valid_In in Hin as [Hin Hvalid].
    split; [exact Hin|]. split; [exact Hvalid|].
    split; [now apply negb_true_iff in Htag|].
    intros other Hother Hv Hp.
    apply SelectionFacts.first_qualified
      with (wanted := fun t => negb (has_prerelease prefixRegex t))
           (earlier := earlier) (later := later); auto.
    + rewrite <- Hout. apply TagFacts.sorted_valid_descending.
    + rewrite <- Hout. apply TagFacts.sorted_valid_In. auto.
    + now rewrite Hp.
  - right. split; [reflexivity|].
    intros tag Hin Hv.
    apply RegExpFacts.find_none_iff in Hfind.
    rewrite Forall_forall in Hfind.
    specialize (Hfind tag (proj2 (TagFacts.sorted_valid_In _ _ _)
                                 (conj Hin Hv))).
    now apply negb_false_iff in Hfind.
Qed.

(** An unsorted host list with an invalid name and a prerelease above
    the highest release. *)
Lemma getLatestTag_of_getValidTags_witness :
  exists out,
    fst (getValidTags
           (fun _ => Core.ret
              [Sample.tag "v1.0.0"; Sample.tag "nightly";
               Sample.tag "v2.0.0-rc.1"; Sample.tag "v1.5.0"])
           Sample.prefixRegex true []) = Ok out
    /\ getLatestTag out Sample.prefixRegex "v" = Sample.tag "v1.5.0".
Proof.
  destruct (@getLatestTag_of_getValidTags
              (fun _ => Core.ret
                 [Sample.tag "v1.0.0"; Sample.tag "nightly";
                  Sample.tag "v2.0.0-rc.1"; Sample.tag "v1.5.0"])
              Sample.prefixRegex true [] []
              [Sample.tag "v1.0.0"; Sample.tag "nightly";
               Sample.tag "v2.0.0-rc.1"; Sample.tag "v1.5.0"]
              "v" eq_refl)
    as [out [log2 [Hrun _]]].
  exists out. split; [now rewrite Hrun|].
  vm_compute in Hrun. injection Hrun as <- _. reflexivity.
Defined.

(** X8: [getLatestTag] does not check that a name is a version. On a
    list that was not filtered, a tag whose stripped name is not valid
    semver counts as having no prerelease component, and is returned when
    only prereleases stand before it. *)
Theorem getLatestTag_returns_invalid_name :
  forall (prefixRegex : RegExp.t) (tagPrefix : string)
         (earlier later : list Tag) (tag : Tag),
    Forall (fun t => has_prerelease prefixRegex t = true) earlier ->
    Semver.valid (stripped prefixRegex tag) = None ->
    getLatestTag (earlier ++ tag :: later) prefixRegex tagPrefix = tag.
Proof.
  intros prefixRegex tagPrefix earlier later tag Hearlier Hinvalid.
  apply SelectionFacts.invalid_no_prerelease in Hinvalid.
  rewrite SelectionFacts.getLatestTag_find.
  replace (find (fun t => negb (has_prerelease prefixRegex t))
                (earlier ++ tag :: later)) with (Some tag); [reflexivity|].
  symmetry. apply RegExpFacts.find_first. exists earlier, later.
  split; [reflexivity|]. split; [now rewrite Hinvalid|].
  eapply Forall_impl; [|exact Hearlier].
  intros t Ht. cbn beta. now rewrite Ht.
Qed.

(** The name [latest] after a release candidate and before a release. *)
Lemma getLatestTag_returns_invalid_name_witness :
  getLatestTag
    ([Sample.tag "v2.0.0-rc.1"] ++ Sample.tag "latest" :: [Sample.tag "v1.0.0"])
    Sample.prefixRegex "v"
  = Sample.tag "latest".
Proof.
  apply getLatestTag_returns_invalid_name.
  - repeat constructor.
  - reflexivity.
Defined.

(** X9: [getLatestPrereleaseTag] on the result of [getValidTags]. For
    every list of the host and every identifier that is a well-formed
    regular expression, that is, for which the constructor returns an
    expression [re], the tag selected from the sorted list is a tag of
    the host with a prerelease component whose stripped name holds a
    match of [re], and it is not below any other such tag of the host;
    nothing is selected exactly when the host has no such tag. *)
Theorem getLatestPrereleaseTag_of_getValidTags :
  forall (engine : RegExp.Engine) (listTags : bool -> Core.t (list Tag))
         (prefixRegex : RegExp.t) (shouldFetchAllTags : bool)
         (log log1 log' : list Diagnostic) (tags : list Tag)
         (identifier : string) (re : RegExp.t),
    listTags shouldFetchAllTags log = (Ok tags, log1) ->
    RegExp.compile engine identifier false = Ok re ->
    let wanted := fun tag =>
      has_prerelease prefixRegex tag
      && RegExp.test re (stripped prefixRegex tag) in
    exists out log2 result,
      getValidTags listTags prefixRegex shouldFetchAllTags log
      = (Ok out, log2)
      /\ getLatestPrereleaseTag engine out identifier prefixRegex log'
         = (Ok result, log')
      /\ (forall tag,
            result = Some tag ->
            In tag tags /\ wanted tag = true
            /\ forall other,
                 In other tags -> wanted other = true ->
                 not_below prefixRegex tag other)
      /\ (result = None <-> forall tag, In tag tags -> wanted tag = false).
Proof.
  intros engine listTags prefixRegex all log log1 log' tags identifier re
         Hrun Hre wanted.
  assert (Hwv : forall tag, wanted tag = true ->
                            is_valid prefixRegex tag = true).
  { intros tag H. apply andb_prop in H as [H _].
    now apply SelectionFacts.has_prerelease_valid. }
  do 3 eexists. split; [eapply TagFacts.getValidTags_run; exact Hrun|].
  split.
  { unfold getLatestPrereleaseTag.
    apply RegExpFacts.find_run
      with (p := fun tag => RegExp.test re (stripped prefixRegex tag)).
    intros tag log0. unfold Core.bind, RegExp.create. now rewrite Hre. }
  fold (has_prerelease prefixRegex).
  rewrite RegExpFacts.find_filter. fold wanted. split.
  - intros tag Hres.
    apply RegExpFacts.find_first in Hres
      as [earlier [later [Hout [Htag Hearlier]]]].
    assert (Hin : In tag (sorted_valid prefixRegex tags)).
    { rewrite Hout. apply in_or_app. right. now left. }
    apply TagFacts.sorted_valid_In in Hin as [Hin Hvalid].
    split; [exact Hin|]. split; [exact Htag|].
    intros other Hother Hw.
    apply SelectionFacts.first_qualified
      with (wanted := wanted) (earlier := earlier) (later := later); auto.
    + rewrite <- Hout. apply TagFacts.sorted_valid_descending.
    + rewrite <- Hout. apply TagFacts.sorted_valid_In. auto.
  - rewrite RegExpFacts.find_none_iff, Forall_forall. split.
    + intros H tag Hin.
      destruct (wanted tag) eqn:Hw; [|reflexivity].
      rewrite <- Hw. apply H. apply TagFacts.sorted_valid_In. auto.
    + intros H tag Hin. apply TagFacts.sorted_valid_In in Hin as [Hin _].
      auto.
Qed.

(** The host returns the betas in ascending order; after the sort the
    higher one is selected, whatever the run-time. *)
Lemma getLatestPrereleaseTag_of_getValidTags_witness :
  exists out,
    fst (getValidTags
           (fun _ => Core.ret
              [Sample.tag "v2.0.0"; Sample.tag "v2.0.0-beta.1";
               Sample.tag "v2.0.0-beta.2"; Sample.tag "v1.0.0"])
           Sample.prefixRegex true []) = Ok out
    /\ forall engine : RegExp.Engine,
         getLatestPrereleaseTag engine out "beta" Sample.prefixRegex []
         = (Ok (Some (Sample.tag "v2.0.0-beta.2")), []).
Proof.
  exists [Sample.tag "v2.0.0"; Sample.tag "v2.0.0-beta.2";
          Sample.tag "v2.0.0-beta.1"; Sample.tag "v1.0.0"].
  split; [vm_compute; reflexivity|]. intros engine.
  destruct (@getLatestPrereleaseTag_of_getValidTags engine
              (fun _ => Core.ret
                 [Sample.tag "v2.0.0"; Sample.tag "v2.0.0-beta.1";
                  Sample.tag "v2.0.0-beta.2"; Sample.tag "v1.0.0"])
              Sample.prefixRegex true [] [] []
              [Sample.tag "v2.0.0"; Sample.tag "v2.0.0-beta.1";
               Sample.tag "v2.0.0-beta.2"; Sample.tag "v1.0.0"]
              "beta"
              (RegExp.Modelled
                 {| RegExp.node := word "beta"; RegExp.global := false |})
              eq_refl eq_refl)
    as [out [log2 [result [Hrun [Hsel _]]]]].
  vm_compute in Hrun. injection Hrun as <- _.
  etransitivity; [exact Hsel|].
  vm_compute in Hsel. injection Hsel as <-. reflexivity.
Defined.

(** X10: when no tag of the list has a prerelease component,
    [getLatestPrereleaseTag] returns [undefined] whatever the identifier
    is: the identifier is not compiled, so one that is no regular
    expression does not make the call throw. *)
Theorem getLatestPrereleaseTag_without_prereleases :
  forall (engine : RegExp.Engine) (tags : list Tag) (identifier : string)
         (prefixRegex : RegExp.t) (log : list Diagnostic),
    Forall (fun t => has_prerelease prefixRegex t = false) tags ->
    getLatestPrereleaseTag engine tags identifier prefixRegex log
    = (Ok None, log).
Proof.
  intros engine tags identifier prefixRegex log Hall.
  unfold getLatestPrereleaseTag. fold (has_prerelease prefixRegex).
  replace (filter (has_prerelease prefixRegex) tags) with (@nil Tag);
    [reflexivity|].
  symmetry. induction Hall as [|t l Ht Hall IH]; [reflexivity|].
  cbn [filter]. now rewrite Ht.
Qed.

(** Two releases and the identifier [(], which is no regular
    expression, whatever the run-time. *)
Lemma getLatestPrereleaseTag_without_prereleases_witness :
  RegExp.parse "(" = RegExp.Malformed
  /\ forall engine : RegExp.Engine,
       getLatestPrereleaseTag engine
         [Sample.tag "v2.0.0"; Sample.tag "v1.0.0"] "(" Sample.prefixRegex []
       = (Ok None, []).
Proof.
  split; [reflexivity|]. intros engine.
  apply getLatestPrereleaseTag_without_prereleases.
  repeat constructor.
Defined.

(** X21: the result of [getValidTags] does not depend on the order in
    which the host returns the tags, as long as no two different valid
    tags compare as equal. If two hosts return the same tags in different
    orders, and any two valid tags for which the comparator of the sort
    answers 0 are one and the same tag, the two results are the same
    list. *)
Theorem getValidTags_independent_of_host_order :
  forall (listTags1 listTags2 : bool -> Core.t (list Tag))
         (prefixRegex : RegExp.t) (shouldFetchAllTags : bool)
         (log log1 log2 : list Diagnostic) (tags1 tags2 : list Tag),
    listTags1 shouldFetchAllTags log = (Ok tags1, log1) ->
    listTags2 shouldFetchAllTags log = (Ok tags2, log2) ->
    Permutation tags1 tags2 ->
    (forall a b,
        In a tags1 -> In b tags1 ->
        is_valid prefixRegex a = true -> is_valid prefixRegex b = true ->
        tag_order prefixRegex a b = 0%Z -> a = b) ->
    fst (getValidTags listTags1 prefixRegex shouldFetchAllTags log)
    = fst (getValidTags listTags2 prefixRegex shouldFetchAllTags log).
Proof.
  intros listTags1 listTags2 prefixRegex all log log1 log2 tags1 tags2
         Hrun1 Hrun2 Hperm Htie.
  rewrite (TagFacts.getValidTags_run prefixRegex listTags1 all log Hrun1).
  rewrite (TagFacts.getValidTags_run prefixRegex listTags2 all log Hrun2).
  cbn [fst]. f_equal.
  apply ArrangementFacts.descending_unique
    with (R := not_below prefixRegex).
  - intros a b Ha Hb Hab Hba.
    apply TagFacts.sorted_valid_In in Ha as [Ha Hva], Hb as [Hb Hvb].
    apply Htie; auto. now apply ArrangementFacts.mutual_not_below.
  - apply TagFacts.sorted_valid_descending.
  - apply TagFacts.sorted_valid_descending.
  - unfold sorted_valid.
    rewrite !OrderFacts.stable_sort_perm.
    now apply ArrangementFacts.filter_perm.
Qed.

(** The same four tags in two orders. *)
Lemma getValidTags_independent_of_host_order_witness :
  fst (getValidTags
         (fun _ => Core.ret
            [Sample.tag "v1.0.0"; Sample.tag "nightly";
             Sample.tag "v2.0.0-rc.1"; Sample.tag "v1.5.0"])
         Sample.prefixRegex true [])
  = fst (getValidTags
           (fun _ => Core.ret
              [Sample.tag "v1.5.0"; Sample.tag "v2.0.0-rc.1";
               Sample.tag "v1.0.0"; Sample.tag "nightly"])
           Sample.prefixRegex true []).
Proof.
  apply getValidTags_independent_of_host_order
    with (log1 := []) (log2 := [])
         (tags1 := [Sample.tag "v1.0.0"; Sample.tag "nightly";
                    Sample.tag "v2.0.0-rc.1"; Sample.tag "v1.5.0"])
         (tags2 := [Sample.tag "v1.5.0"; Sample.tag "v2.0.0-rc.1";
                    Sample.tag "v1.0.0"; Sample.tag "nightly"]).
  - reflexivity.
  - reflexivity.
  - apply Permutation_sym.
    apply perm_trans
      with (l' := [Sample.tag "v1.5.0"; Sample.tag "v1.0.0";
                   Sample.tag "v2.0.0-rc.1"; Sample.tag "nightly"]).
    + apply perm_skip. apply perm_swap.
    + apply perm_trans
        with (l' := [Sample.tag "v1.0.0"; Sample.tag "v1.5.0";
                     Sample.tag "v2.0.0-rc.1"; Sample.tag "nightly"]).
      * apply perm_swap.
      * apply perm_skip.
        apply perm_trans
          with (l' := [Sample.tag "v2.0.0-rc.1"; Sample.tag "v1.5.0";
                       Sample.tag "nightly"]).
        -- apply perm_swap.
        -- apply perm_trans
             with (l' := [Sample.tag "v2.0.0-rc.1"; Sample.tag "nightly";
                          Sample.tag "v1.5.0"]).
           ++ apply perm_skip. apply perm_swap.
           ++ apply perm_swap.
  - intros a b Ha Hb Hva Hvb.
    cbn [In] in Ha, Hb.
    destruct Ha as [<-|[<-|[<-|[<-|[]]]]];
      destruct Hb as [<-|[<-|[<-|[<-|[]]]]];
      try reflexivity; try discriminate Hva; try discriminate Hvb;
      vm_compute; discriminate.
Defined.

(* ================================================================== *)
(** ** Further properties: scoped commits *)
(* ================================================================== *)

(** X11: with an empty list of scopes [getScopedCommits] keeps no commit
    at all, whatever the commits are; and with no commits it returns the
    empty list whatever the scopes are, malformed ones included, since
    no pattern is built. *)
Theorem getScopedCommits_empty_inputs :
  forall (engine : RegExp.Engine) (commits : list Commit)
         (scopes : list string) (log : list Diagnostic),
    getScopedCommits engine commits [] log = (Ok [], log)
    /\ getScopedCommits engine [] scopes log = (Ok [], log).
Proof.
  intros engine commits scopes log. split; [|reflexivity].
  rewrite ScopeFacts.getScopedCommits_filter.
  change (fun commit => Core.some (scope_test engine commit) [])
    with (fun _ : Commit => @Core.ret bool false).
  apply ScopeFacts.filter_none.
Qed.

(** X12: [getScopedCommits] emits no diagnostic, whether it returns or
    throws. When it returns, the result is the input with some commits
    left out, in the same order, and scoping the result again with the
    same scopes returns it unchanged. *)
Theorem getScopedCommits_silent_and_idempotent :
  forall (engine : RegExp.Engine) (commits : list Commit)
         (scopes : list string) (log : list Diagnostic),
    snd (getScopedCommits engine commits scopes log) = log
    /\ forall out,
         fst (getScopedCommits engine commits scopes log) = Ok out ->
         (exists keep : Commit -> bool, out = filter keep commits)
         /\ (forall commit, In commit out -> In commit commits)
         /\ List.length out <= List.length commits
         /\ forall log',
              getScopedCommits engine out scopes log' = (Ok out, log').
Proof.
  intros engine commits scopes log.
  rewrite ScopeFacts.getScopedCommits_filter.
  set (f := fun commit => Core.some (scope_test engine commit) scopes).
  assert (Hsilent : forall x l, f x l = (fst (f x []), l)).
  { intros x l. apply ScopeFacts.some_silent.
    intros scope l'. apply ScopeFacts.scope_test_silent. }
  split; [now rewrite (ScopeFacts.filter_silent f Hsilent)|].
  intros out Hout.
  destruct (Core.filter f commits log) as [r log'] eqn:Hrun.
  cbn [fst] in Hout. subst r.
  destruct (ScopeFacts.filter_kept f Hsilent _ _ Hrun) as [-> Hkept].
  split; [eauto|]. split; [|split].
  - intros commit Hin. rewrite Hkept in Hin. now apply filter_In in Hin.
  - rewrite Hkept. apply filter_length_le.
  - intros log'. rewrite ScopeFacts.getScopedCommits_filter. fold f.
    apply ScopeFacts.filter_all. intros commit Hin l.
    rewrite Hkept in Hin. apply filter_In in Hin as [_ Hin].
    rewrite Hsilent.
    destruct (fst (f commit [])) as [[|]|e]; [reflexivity | | ];
      discriminate.
Qed.

(** Three commits under the scope [api], after earlier diagnostics,
    whatever the run-time. *)
Lemma getScopedCommits_silent_and_idempotent_witness :
  exists out,
    out = [ {| message := "feat(api): x"; hash := "1" |} ]
    /\ forall engine : RegExp.Engine,
         getScopedCommits engine
           [ {| message := "feat(api): x"; hash := "1" |};
             {| message := "fix(web): y"; hash := "2" |};
             {| message := "chore: z"; hash := "3" |} ]
           ["api"] [Debug "earlier"]
         = (Ok out, [Debug "earlier"])
         /\ getScopedCommits engine out ["api"] [] = (Ok out, []).
Proof.
  eexists. split; [reflexivity|]. intros engine.
  destruct (getScopedCommits_silent_and_idempotent engine
              [ {| message := "feat(api): x"; hash := "1" |};
                {| message := "fix(web): y"; hash := "2" |};
                {| message := "chore: z"; hash := "3" |} ]
              ["api"] [Debug "earlier"]) as [Hlog Hout].
  split; [vm_compute; reflexivity|].
  apply (Hout [ {| message := "feat(api): x"; hash := "1" |} ]).
  vm_compute. reflexivity.
Defined.

(** X13: a scope is compiled only when a commit reaches it. Let the
    patterns of the scopes [good] be well-formed regular expressions.
    When every commit matches one of them, [getScopedCommits] returns all
    the commits whatever scopes follow in the list, malformed ones
    included. When [good] is followed by a scope for whose pattern the
    constructor throws an error, and some commit matches none of [good],
    the call throws that error. *)
Theorem getScopedCommits_compiles_on_demand :
  forall (engine : RegExp.Engine) (commits : list Commit)
         (good : list string) (log : list Diagnostic),
    (forall scope,
        In scope good -> well_formed engine (scope_pattern scope) true) ->
    (forall rest,
        (forall commit,
            In commit commits ->
            exists scope,
              In scope good
              /\ pattern_matches engine (scope_pattern scope) true
                                 (message commit)
                 = true) ->
        getScopedCommits engine commits (good ++ rest) log
        = (Ok commits, log))
    /\ (forall bad rest e,
          RegExp.compile engine (scope_pattern bad) true = Throw e ->
          (exists commit,
              In commit commits
              /\ forall scope,
                   In scope good ->
                   pattern_matches engine (scope_pattern scope) true
                                   (message commit)
                   = false) ->
          getScopedCommits engine commits (good ++ bad :: rest) log
          = (Throw e, log)).
Proof.
  intros engine commits good log Hgood.
  assert (Hsome : forall commit rest l,
             Core.some (scope_test engine commit) (good ++ rest) l
             = if existsb (fun scope =>
                             pattern_matches engine (scope_pattern scope)
                                             true (message commit)) good
               then (Ok true, l)
               else Core.some (scope_test engine commit) rest l).
  { intros commit rest l. apply ScopeFacts.some_app.
    intros scope Hin l'. apply ScopeFacts.scope_test_run. auto. }
  split.
  - intros rest Hall. rewrite ScopeFacts.getScopedCommits_filter.
    apply ScopeFacts.filter_all. intros commit Hin l.
    rewrite Hsome.
    replace (existsb _ good) with true; [reflexivity|].
    symmetry. apply existsb_exists. now apply Hall.
  - intros bad rest e Hbad Hex.
    rewrite ScopeFacts.getScopedCommits_filter.
    induction commits as [|x commits IH].
    + destruct Hex as [commit [[] _]].
    + cbn [Core.filter]. unfold Core.bind at 1. rewrite Hsome.
      destruct (existsb _ good) eqn:Hx.
      * cbv iota beta. unfold Core.bind at 1.
        rewrite IH; [reflexivity|].
        destruct Hex as [commit [[<-|Hin] Hnone]]; [|eauto].
        apply existsb_exists in Hx as [scope [Hs Hm]].
        rewrite (Hnone scope Hs) in Hm. discriminate.
      * cbn [Core.some]. unfold Core.bind at 1.
        now rewrite (ScopeFacts.scope_test_throw engine x bad log Hbad).
Qed.

(** The scope [api] followed by the scope [(], whose pattern leaves a
    group open: a commit of the scope [api] alone is returned; with a
    commit of another scope the call throws; whatever the run-time. *)
Lemma getScopedCommits_compiles_on_demand_witness :
  RegExp.parse (scope_pattern "(") = RegExp.Malformed
  /\ forall engine : RegExp.Engine,
       getScopedCommits engine
         [ {| message := "feat(api): x"; hash := "1" |} ]
         (["api"] ++ ["("]) []
       = (Ok [ {| message := "feat(api): x"; hash := "1" |} ], [])
       /\ exists e,
            getScopedCommits engine
              [ {| message := "feat(api): x"; hash := "1" |};
                {| message := "fix(web): y"; hash := "2" |} ]
              (["api"] ++ "(" :: []) []
            = (Throw e, []).
Proof.
  split; [reflexivity|]. intros engine.
  assert (Hgood : forall scope,
             In scope ["api"] ->
             well_formed engine (scope_pattern scope) true).
  { intros scope [<-|[]]. eexists.
    apply RegExpFacts.compile_fine, RegExpFacts.parse_scope_pattern.
    reflexivity. }
  split.
  - apply (proj1 (@getScopedCommits_compiles_on_demand engine
                    [ {| message := "feat(api): x"; hash := "1" |} ]
                    ["api"] [] Hgood)).
    intros commit [<-|[]]. exists "api".
    split; [now left | vm_compute; reflexivity].
  - eexists.
    apply (proj2 (@getScopedCommits_compiles_on_demand engine
                    [ {| message := "feat(api): x"; hash := "1" |};
                      {| message := "fix(web): y"; hash := "2" |} ]
                    ["api"] [] Hgood)).
    + apply RegExpFacts.compile_malformed. reflexivity.
    + exists {| message := "fix(web): y"; hash := "2" |}.
      split; [right; now left|].
      intros scope [<-|[]]. vm_compute. reflexivity.
Defined.

(* ================================================================== *)
(** ** Further properties: release rules *)
(* ================================================================== *)

(** X14: [mapCustomReleaseRules] treats the rules one by one. The rules
    and the diagnostics it gives for two inputs joined by a comma are
    those of the first input followed by those of the second. *)
Theorem mapCustomReleaseRules_of_joined_inputs :
  forall (types : list string) (defaults : list (string * Rule))
         (a b : string) (log : list Diagnostic),
  exists out_a diags_a out_b diags_b,
    mapCustomReleaseRules types defaults a log = (Ok out_a, log ++ diags_a)
    /\ mapCustomReleaseRules types defaults b log
       = (Ok out_b, log ++ diags_b)
    /\ mapCustomReleaseRules types defaults (a ++ "," ++ b) log
       = (Ok (out_a ++ out_b), log ++ diags_a ++ diags_b).
Proof.
  intros types defaults a b log. do 4 eexists.
  split; [apply mapCustomReleaseRules_run|].
  split; [apply mapCustomReleaseRules_run|].
  rewrite mapCustomReleaseRules_run.
  change ("," ++ b)%string with (String "," b).
  rewrite SplitFacts.split_app, filter_app, !flat_map_app. reflexivity.
Qed.

(** X15: what the rules of the result look like, whatever the input.
    There are two rules for each accepted custom rule, so at most twice
    as many as the input has comma-separated pieces. The release of a
    rule is [major] or a member of the allowed list; [breaking] is set,
    and it is [true] on rules of release [major] only. The type of a rule
    holds neither a comma nor a colon. *)
Theorem mapCustomReleaseRules_shape_of_result :
  forall (types : list string) (defaults : list (string * Rule))
         (s : string) (log : list Diagnostic),
  exists out log',
    mapCustomReleaseRules types defaults s log = (Ok out, log')
    /\ List.length out
       = 2 * List.length (filter (accepted types) (Js.split "," s))
    /\ List.length out <= 2 * List.length (Js.split "," s)
    /\ forall r,
         In r out ->
         (exists rel,
             release r = Some rel /\ (rel = "major" \/ In rel types))
         /\ (breaking r = Some true \/ breaking r = Some false)
         /\ (breaking r = Some true -> release r = Some "major")
         /\ ~ In ","%char (list_ascii_of_string (type r))
         /\ ~ In ":"%char (list_ascii_of_string (type r)).
Proof.
  intros types defaults s log. do 2 eexists.
  split; [apply mapCustomReleaseRules_run|].
  assert (Hlen : forall rules,
             List.length (flat_map (variants defaults) rules)
             = 2 * List.length rules).
  { induction rules as [|rule rules IH]; [reflexivity|].
    cbn [flat_map variants app List.length]. rewrite IH. lia. }
  split; [apply Hlen|]. split.
  { rewrite Hlen.
    pose proof (filter_length_le (accepted types) (Js.split "," s)). lia. }
  intros r Hin. apply in_flat_map in Hin as [rule [Hrule Hr]].
  apply filter_In in Hrule as [Hrule Hacc].
  destruct (accepted_parts _ _ Hacc) as [rel [H0 [H1 Hrel]]].
  assert (Htype : forall c,
             In c (list_ascii_of_string (rule_type rule)) ->
             c <> ","%char /\ c <> ":"%char).
  { intros c Hc. apply nth_error_In in H0.
    destruct (SplitFacts.split_chars ":" rule _ c H0 Hc) as [Hc' Hcolon].
    destruct (SplitFacts.split_chars "," s _ c Hrule Hc') as [_ Hcomma].
    auto. }
  destruct Hr as [<-|[<-|[]]]; cbn [release breaking type major_variant
                                      literal_variant].
  - split; [exists "major"; auto|]. split; [auto|]. split; [auto|].
    split; intros Hc; apply Htype in Hc; tauto.
  - rewrite H1. split; [exists rel; auto|]. split; [auto|].
    split; [discriminate|].
    split; intros Hc; apply Htype in Hc; tauto.
Qed.

(** X16: a custom rule is read up to its third part. When a rule has
    three parts or more, a colon and any further text appended to it
    change nothing in the rules it gives: the text after the third colon
    is dropped, so a section cannot hold a colon. *)
Theorem mapCustomReleaseRules_ignores_further_parts :
  forall (types : list string) (defaults : list (string * Rule))
         (rule extra : string) (log : list Diagnostic),
    3 <= List.length (rule_parts rule) ->
    ~ In ","%char (list_ascii_of_string rule) ->
    ~ In ","%char (list_ascii_of_string extra) ->
    fst (mapCustomReleaseRules types defaults (rule ++ ":" ++ extra) log)
    = fst (mapCustomReleaseRules types defaults rule log).
Proof.
  intros types defaults rule extra log Hlen Hrule Hextra.
  rewrite !mapCustomReleaseRules_run. cbn [fst].
  rewrite !SplitFacts.split_without; auto.
  2:{ change (":" ++ extra)%string with (String ":" extra).
      rewrite SplitFacts.chars_app. cbn [list_ascii_of_string].
      intros H. apply in_app_or in H as [H|[H|H]]; auto. discriminate. }
  assert (Hparts : rule_parts (rule ++ ":" ++ extra)
                   = rule_parts rule ++ rule_parts extra).
  { unfold rule_parts. change (":" ++ extra)%string with (String ":" extra).
    apply SplitFacts.split_app. }
  assert (Hnth : forall i, i < 3 ->
             nth_error (rule_parts (rule ++ ":" ++ extra)) i
             = nth_error (rule_parts rule) i).
  { intros i Hi. rewrite Hparts. apply nth_error_app1. lia. }
  assert (Htype : rule_type (rule ++ ":" ++ extra) = rule_type rule).
  { unfold rule_type. rewrite Hparts. apply app_nth1. lia. }
  assert (Hacc : accepted types (rule ++ ":" ++ extra)
                 = accepted types rule).
  { unfold accepted. rewrite (Hnth 1) by lia. f_equal.
    rewrite Hparts, length_app.
    transitivity true; [|symmetry]; apply Nat.leb_le; lia. }
  assert (Hvar : variants defaults (rule ++ ":" ++ extra)
                 = variants defaults rule).
  { unfold variants, major_variant, literal_variant, rule_section.
    now rewrite Htype, (Hnth 1), (Hnth 2) by lia. }
  cbn [filter flat_map]. rewrite Hacc.
  destruct (accepted types rule); cbn [flat_map]; [|reflexivity].
  now rewrite Hvar.
Qed.

(** The rule [fix:patch:Bug] followed by [: fixes]. *)
Lemma mapCustomReleaseRules_ignores_further_parts_witness :
  fst (mapCustomReleaseRules Sample.DEFAULT_RELEASE_TYPES
         Sample.defaultsLiteral ("fix:patch:Bug" ++ ":" ++ " fixes") [])
  = fst (mapCustomReleaseRules Sample.DEFAULT_RELEASE_TYPES
           Sample.defaultsLiteral "fix:patch:Bug" []).
Proof.
  apply mapCustomReleaseRules_ignores_further_parts.
  - vm_compute. lia.
  - vm_compute. intuition discriminate.
  - vm_compute. intuition discriminate.
Defined.

(* ================================================================== *)
(** ** Further properties: the merge with the default rules *)
(* ================================================================== *)

(** X17: without custom rules, which is also the default of the
    argument, [mergeWithDefaultChangelogRules] returns the rules of the
    default table that have a section, in the order of the table. When
    the literal of the table names each key once and no key is an array
    index, that is the order of the literal. *)
Theorem mergeWithDefaultChangelogRules_without_custom_rules :
  forall defaults : list (string * Rule),
    mergeWithDefaultChangelogRules defaults []
    = filter (fun rule => Js.truthy (section rule))
             (Obj.values (defaultChangelogRules defaults))
    /\ (NoDup (List.map fst defaults) ->
        Forall (fun entry => Obj.array_index (fst entry) = None) defaults ->
        mergeWithDefaultChangelogRules defaults []
        = filter (fun rule => Js.truthy (section rule))
                 (List.map snd defaults)).
Proof.
  intros defaults.
  assert (Hmerge : mergeWithDefaultChangelogRules defaults []
                   = filter (fun rule => Js.truthy (section rule))
                            (Obj.values (defaultChangelogRules defaults))).
  { unfold mergeWithDefaultChangelogRules.
    now rewrite MergeFacts.mergedRules_fold. }
  split; [exact Hmerge|].
  intros Hnd Hplain. rewrite Hmerge. f_equal.
  unfold defaultChangelogRules, Obj.literal, Obj.spread.
  rewrite TableFacts.fold_set_canonical; [reflexivity|].
  cbn [app]. split; [exact Hnd|].
  clear Hnd Hmerge. induction Hplain as [|[k d] l Hk Hl IH];
    cbn [Obj.keys List.map fst]; constructor; [exact IH|].
  apply Forall_forall. intros k' Hk'. unfold enum_before.
  cbn [fst] in Hk. rewrite Hk.
  apply in_map_iff in Hk' as [entry [<- Hentry]].
  rewrite Forall_forall in Hl. now rewrite (Hl entry Hentry).
Qed.

(** The sample table: three of its four rules have a section. *)
Lemma mergeWithDefaultChangelogRules_without_custom_rules_witness :
  mergeWithDefaultChangelogRules Sample.defaultsLiteral []
  = filter (fun rule => Js.truthy (section rule))
           (List.map snd Sample.defaultsLiteral).
Proof.
  apply (proj2 (mergeWithDefaultChangelogRules_without_custom_rules
                  Sample.defaultsLiteral)).
  - repeat constructor; cbn; intuition discriminate.
  - repeat constructor.
Defined.

(** X18: the order of the result. When no type that is new to the
    default table is an array index, [mergeWithDefaultChangelogRules]
    returns, of the following rules, those that have a section: first
    the entries of the default table, in the order of the table, each
    replaced in its place by the last custom rule of its key if there is
    one; then, for each type that is not a key of the table, in the order
    in which these types first appear among the custom rules, the last
    custom rule of the type. *)
Theorem mergeWithDefaultChangelogRules_order_of_result :
  forall (defaults : list (string * Rule)) (rules : list Rule),
    (forall r,
        In r rules ->
        In (type r) (Obj.keys (defaultChangelogRules defaults))
        \/ Obj.array_index (type r) = None) ->
    mergeWithDefaultChangelogRules defaults rules
    = filter (fun rule => Js.truthy (section rule))
        (List.map
           (fun entry =>
              match last_writer (fst entry) rules with
              | Some r => r
              | None => snd entry
              end)
           (defaultChangelogRules defaults)
         ++ flat_map
              (fun k =>
                 match last_writer k rules with
                 | Some r => [r]
                 | None => []
                 end)
              (new_keys (Obj.keys (defaultChangelogRules defaults))
                        (List.map type rules))).
Proof.
  intros defaults rules Hnew. unfold mergeWithDefaultChangelogRules.
  f_equal. rewrite MergeFacts.values_mergedRules.
  rewrite MergeFacts.mergedRules_fold, MergeFacts.keys_fold by exact Hnew.
  rewrite flat_map_app. f_equal.
  - apply MergeFacts.defaults_entries. apply incl_refl.
  - apply TableFacts.flat_map_agree. intros k Hk.
    apply MergeFacts.new_keys_spec in Hk as [_ Hk].
    apply ObjFacts.get_None_keys in Hk. rewrite Hk. reflexivity.
Qed.

(** The sample table with custom rules for [perf], [fix], [ci] and
    [perf] again: [fix] keeps its place in the table, [perf] and [ci]
    follow in the order of their first appearance. *)
Lemma mergeWithDefaultChangelogRules_order_of_result_witness :
  List.map (fun r => (type r, section r))
    (mergeWithDefaultChangelogRules Sample.defaultsLiteral
       [ {| type := "perf"; release := Some "patch";
            section := Some "Speed"; breaking := Some false |};
         {| type := "fix"; release := Some "minor";
            section := Some "Fixes"; breaking := Some false |};
         {| type := "ci"; release := Some "patch";
            section := Some "Pipeline"; breaking := Some false |};
         {| type := "perf"; release := Some "minor";
            section := Some "Performance"; breaking := Some false |} ])
  = [ ("feat", Some "Features"); ("fix", Some "Fixes");
      ("docs", Some "Documentation"); ("perf", Some "Performance");
      ("ci", Some "Pipeline") ].
Proof.
  rewrite mergeWithDefaultChangelogRules_order_of_result.
  - reflexivity.
  - intros r [<-|[<-|[<-|[<-|[]]]]]; cbn [type];
      first [ now right | left; cbn; tauto ].
Defined.

(** X19: the breaking variants that [mapCustomReleaseRules] adds leave
    no trace in the changelog rules. Merging the rules it returns gives
    the same list as merging them without the rules of [breaking:
    true]; and a rule of the merged list is an entry of the default
    table or has [breaking: false]. *)
Theorem mergeWithDefaultChangelogRules_drops_breaking_variants :
  forall (types : list string) (defaults : list (string * Rule))
         (s : string) (log : list Diagnostic),
  exists out log',
    mapCustomReleaseRules types defaults s log = (Ok out, log')
    /\ mergeWithDefaultChangelogRules defaults out
       = mergeWithDefaultChangelogRules defaults (filter not_breaking out)
    /\ forall r,
         In r (mergeWithDefaultChangelogRules defaults out) ->
         breaking r = Some false
         \/ exists k, Obj.get k (defaultChangelogRules defaults) = Some r.
Proof.
  intros types defaults s log. do 2 eexists.
  split; [apply mapCustomReleaseRules_run|].
  set (rules := filter (accepted types) (Js.split "," s)).
  assert (Heq : mergedRules defaults (flat_map (variants defaults) rules)
                = mergedRules defaults
                    (filter not_breaking
                       (flat_map (variants defaults) rules))).
  { rewrite MergeFacts.variants_not_breaking.
    rewrite !MergeFacts.mergedRules_fold. apply MergeFacts.variants_fold. }
  split.
  - unfold mergeWithDefaultChangelogRules. now rewrite Heq.
  - intros r Hin.
    apply In_mergeWithDefaultChangelogRules in Hin as [[k Hget] _].
    rewrite Heq, get_mergedRules in Hget.
    destruct (last_writer k _) as [w|] eqn:Hw.
    + injection Hget as <-. left.
      apply MergeFacts.last_writer_type in Hw as [_ Hw].
      rewrite MergeFacts.variants_not_breaking in Hw.
      apply in_map_iff in Hw as [rule [<- _]]. reflexivity.
    + right. eauto.
Qed.

(** X20: one rule for each type. When every entry of the default table
    has the type of its key, the rules [mergeWithDefaultChangelogRules]
    returns have pairwise distinct types, and there are at most as many
    as the table has entries plus the number of custom rules. The rule
    of a type is the last custom rule of that type if there is one, and
    the default entry otherwise. A type whose last custom rule has no
    section has no rule in the result, even when the default table has
    one with a section. *)
Theorem mergeWithDefaultChangelogRules_one_rule_for_each_type :
  forall (defaults : list (string * Rule)) (rules : list Rule),
    Forall (fun entry => type (snd entry) = fst entry)
           (defaultChangelogRules defaults) ->
    NoDup (List.map type (mergeWithDefaultChangelogRules defaults rules))
    /\ List.length (mergeWithDefaultChangelogRules defaults rules)
       <= List.length (defaultChangelogRules defaults) + List.length rules
    /\ (forall r,
          In r (mergeWithDefaultChangelogRules defaults rules) <->
          Js.truthy (section r) = true
          /\ (last_writer (type r) rules = Some r
              \/ (last_writer (type r) rules = None
                  /\ Obj.get (type r) (defaultChangelogRules defaults)
                     = Some r)))
    /\ (forall k r,
          last_writer k rules = Some r ->
          Js.truthy (section r) = false ->
          forall r',
            In r' (mergeWithDefaultChangelogRules defaults rules) ->
            type r' <> k).
Proof.
  intros defaults rules Hkeyed.
  assert (Hdefault : forall k d,
             Obj.get k (defaultChangelogRules defaults) = Some d ->
             type d = k).
  { intros k d Hget. apply ObjFacts.In_get_Some in Hget.
    rewrite Forall_forall in Hkeyed. exact (Hkeyed _ Hget). }
  assert (Hentry : forall k r,
             Obj.get k (mergedRules defaults rules) = Some r -> type r = k).
  { intros k r. rewrite get_mergedRules.
    destruct (last_writer k rules) as [w|] eqn:Hw.
    - intros [= <-]. now apply MergeFacts.last_writer_type in Hw.
    - apply Hdefault. }
  assert (Htypes : List.map type (Obj.values (mergedRules defaults rules))
                   = Obj.keys (mergedRules defaults rules)).
  { pose proof (NoDup_mergedRules defaults rules) as Hnd.
    assert (Hall : forall k r, In (k, r) (mergedRules defaults rules) ->
                               type r = k).
    { intros k r Hin. apply Hentry. now apply ObjFacts.get_Some_In. }
    clear Hnd Hentry.
    induction (mergedRules defaults rules) as [|[k r] o IH];
      [reflexivity|].
    cbn [Obj.values Obj.keys List.map fst snd].
    rewrite (Hall k r) by now left. f_equal.
    apply IH. intros k' r' Hin. apply Hall. now right. }
  assert (Hin : forall r,
             In r (mergeWithDefaultChangelogRules defaults rules) <->
             Js.truthy (section r) = true
             /\ (last_writer (type r) rules = Some r
                 \/ (last_writer (type r) rules = None
                     /\ Obj.get (type r) (defaultChangelogRules defaults)
                        = Some r))).
  { intros r. rewrite In_mergeWithDefaultChangelogRules. split.
    - intros [[k Hget] Hsec]. split; [exact Hsec|].
      pose proof (Hentry _ _ Hget) as <-.
      rewrite get_mergedRules in Hget.
      destruct (last_writer (type r) rules); auto.
    - intros [Hsec Hr]. split; [|exact Hsec]. exists (type r).
      rewrite get_mergedRules.
      destruct Hr as [->|[-> Hget]]; [reflexivity | exact Hget]. }
  split; [|split; [|split]].
  - unfold mergeWithDefaultChangelogRules.
    apply MergeFacts.NoDup_map_filter. rewrite Htypes.
    apply NoDup_mergedRules.
  - unfold mergeWithDefaultChangelogRules.
    etransitivity; [apply filter_length_le|].
    rewrite <- (length_map type), Htypes.
    rewrite <- (length_map fst (defaultChangelogRules defaults)),
      <- (length_map type rules), <- length_app.
    apply NoDup_incl_length; [apply NoDup_mergedRules|].
    intros k Hk.
    destruct (Obj.get k (mergedRules defaults rules)) as [r|] eqn:Hget.
    + rewrite get_mergedRules in Hget. apply in_or_app.
      destruct (last_writer k rules) as [w|] eqn:Hw.
      * right. apply MergeFacts.last_writer_type in Hw as [<- Hw].
        now apply in_map.
      * left. apply ObjFacts.In_get_Some in Hget.
        change k with (fst (k, r)). now apply in_map.
    + apply ObjFacts.get_None_keys in Hget. contradiction.
  - exact Hin.
  - intros k r Hw Hsec r' Hr' Hk. subst k.
    apply Hin in Hr' as [Hsec' [Hr'|[Hr' _]]]; congruence.
Qed.

(** Under the sample table, a custom rule for [docs] without a section
    removes [docs] from the result, and [fix] has one rule. *)
Lemma mergeWithDefaultChangelogRules_one_rule_for_each_type_witness :
  List.map type
    (mergeWithDefaultChangelogRules Sample.defaultsLiteral
       [ {| type := "docs"; release := Some "patch";
            section := None; breaking := Some false |};
         {| type := "fix"; release := Some "minor";
            section := Some "Fixes"; breaking := Some false |} ])
  = ["feat"; "fix"]
  /\ forall r',
       In r' (mergeWithDefaultChangelogRules Sample.defaultsLiteral
                [ {| type := "docs"; release := Some "patch";
                     section := None; breaking := Some false |};
                  {| type := "fix"; release := Some "minor";
                     section := Some "Fixes"; breaking := Some false |} ]) ->
       type r' <> "docs".
Proof.
  split; [reflexivity|].
  assert (Hkeyed : Forall (fun entry => type (snd entry) = fst entry)
                          (defaultChangelogRules Sample.defaultsLiteral)).
  { repeat constructor. }
  destruct (@mergeWithDefaultChangelogRules_one_rule_for_each_type
              Sample.defaultsLiteral
              [ {| type := "docs"; release := Some "patch";
                   section := None; breaking := Some false |};
                {| type := "fix"; release := Some "minor";
                   section := Some "Fixes"; breaking := Some false |} ]
              Hkeyed) as [_ [_ [_ Hhide]]].
  apply (Hhide "docs" {| type := "docs"; release := Some "patch";
                         section := None; breaking := Some false |});
    reflexivity.
Defined.

